(** * util/find-missing-names-dblp.py: a shallow embedding and its properties

    The script reconciles a CSV of names against the DBLP author search.
    This development follows the script top-down:

    - [PyStr]: Python [str] values as lists of Unicode code points, with the
      string methods and the two regular-expression substitutions the script
      uses ([normalize_input_name], [canonicalize]);
    - [PID]: the [PIDController] class, generic in the arithmetic and
      instantiated at binary64 floats, what the interpreter computes;
    - [Dblp]: the lookup of one name ([extract_pid_path], [has_alias_match],
      [dblp_author_search]) against an explicit model of the two remote
      endpoints, with Python exceptions as an error monad;
    - [Batch]: [process_batch] and [find_missing_names] over an explicit
      model of the three files, for one run and for sequences of runs;
    - [FloatOrder]: the order of binary64 under rounding, for the
      controller's signal. *)

From Stdlib Require Import NArith ZArith Lia Uint63 Floats Ascii String.
From Equations.Prop Require Import Equations Logic.
From stdpp Require Import base list gmap sets.

Set Warnings "-inexact-float,-register-all".
#[local] Open Scope N_scope.

(* ===================================================================== *)
(** ** Python strings *)
(* ===================================================================== *)

Module PyStr.

(** A Python [str] is a sequence of code points. *)
Abbreviation str := (list N).

(** String literals of the script, written with ASCII characters only. *)
Definition py (s : string) : str :=
  List.map N_of_ascii (list_ascii_of_string s).

(** [str.isspace] on one character, which is also what [\s] matches in a
    [str] pattern: the code points CPython's [_PyUnicode_IsWhitespace]
    accepts. *)
Definition isspace (c : N) : bool :=
     ((9 <=? c) && (c <=? 13))
  || ((28 <=? c) && (c <=? 32))
  || (c =? 133) || (c =? 160) || (c =? 5760)
  || ((8192 <=? c) && (c <=? 8202))
  || (c =? 8232) || (c =? 8233) || (c =? 8239) || (c =? 8287)
  || (c =? 12288).

Definition SPACE : N := 32.
Definition DOT : N := 46.
Definition LBRACKET : N := 91.
Definition RBRACKET : N := 93.
Definition LF : N := 10.
Definition CR : N := 13.

Fixpoint lstrip (s : str) : str :=
  match s with
  | [] => []
  | c :: t => if isspace c then lstrip t else s
  end.

Definition rstrip (s : str) : str := rev (lstrip (rev s)).

(** [s.strip()] *)
Definition strip (s : str) : str := lstrip (rstrip s).

(** [s.replace] of every period by the empty string *)
Definition remove_dots (s : str) : str :=
  List.filter (fun c => negb (c =? DOT)) s.

(** [s.startswith(p)] and [s[len(p):]] *)
Fixpoint startswith (p s : str) : bool :=
  match p, s with
  | [], _ => true
  | a :: p', b :: s' => (a =? b) && startswith p' s'
  | _ :: _, [] => false
  end.

(** [re.sub(r"\s+", " ", s)]: every maximal run of whitespace becomes one
    space.  [in_run] says that the character before the head was part of a
    run that has already been replaced. *)
Fixpoint sub_spaces_from (in_run : bool) (s : str) : str :=
  match s with
  | [] => []
  | c :: t =>
      if isspace c
      then (if in_run then sub_spaces_from true t
            else SPACE :: sub_spaces_from true t)
      else c :: sub_spaces_from false t
  end.

Definition sub_spaces (s : str) : str := sub_spaces_from false s.

(** *** The pattern [\s*\[.*?\]\s*]

    [match_tail s] is the lazy [.*?\]] part: the shortest run of characters
    other than a line feed that is followed by a closing bracket; it returns
    what follows the bracket.  The trailing [\s*] cannot fail, so the first
    closing bracket is the one taken. *)
Fixpoint match_tail (s : str) : option str :=
  match s with
  | [] => None
  | c :: t =>
      if c =? RBRACKET then Some t
      else if c =? LF then None
      else match_tail t
  end.

(** The whole pattern anchored at the head of [s]; the result is the text
    after the match.  The leading [\s*] is greedy, and giving whitespace back
    never helps (the next character would be whitespace, not a bracket). *)
Definition match_bracket (s : str) : option str :=
  match lstrip s with
  | c :: t =>
      if c =? LBRACKET
      then match match_tail t with
           | Some rest => Some (lstrip rest)
           | None => None
           end
      else None
  | [] => None
  end.

Lemma lstrip_length (s : str) : (length (lstrip s) <= length s)%nat.
Proof.
  induction s as [|c t IH]; simpl; [lia|].
  destruct (isspace c); simpl; lia.
Qed.

Lemma match_tail_length (s rest : str) :
  match_tail s = Some rest -> (length rest < length s)%nat.
Proof.
  revert rest; induction s as [|c t IH]; simpl; intros rest H; [discriminate|].
  destruct (c =? RBRACKET).
  - injection H as <-. lia.
  - destruct (c =? LF); [discriminate|]. apply IH in H. lia.
Qed.

Lemma match_bracket_length (s rest : str) :
  match_bracket s = Some rest -> (length rest < length s)%nat.
Proof.
  unfold match_bracket. pose proof (lstrip_length s) as Hs.
  destruct (lstrip s) as [|c t]; [discriminate|].
  destruct (c =? LBRACKET); [|discriminate].
  destruct (match_tail t) as [r|] eqn:E; [|discriminate].
  intros [= <-]. apply match_tail_length in E.
  pose proof (lstrip_length r). simpl in Hs. lia.
Qed.

(** [re.sub] of that pattern by the empty string: scan from the left; where the pattern
    matches, drop the match and go on after it; elsewhere keep the
    character. *)
Equations? sub_brackets (s : str) : str by wf (length s) lt :=
  sub_brackets s with inspect (match_bracket s) := {
    | exist _ (Some rest) _ => sub_brackets rest
    | exist _ None _ with s := {
        | [] => []
        | c :: t => c :: sub_brackets t } }.
Proof.
  - eauto using match_bracket_length.
  - simpl. lia.
Qed.

(** [normalize_input_name] *)
Definition normalize_input_name (name : str) : str :=
  strip (sub_brackets name).

(** *** Unicode data

    [unicodedata.normalize("NFKC", _)] and [str.lower] read the Unicode
    character database, which is not part of the script.  They are taken as
    an interface; what is required of them is their behaviour on ASCII
    text, where NFKC changes nothing and [lower] maps [A-Z] to [a-z]. *)

Definition is_ascii (s : str) : bool := forallb (fun c => c <? 128) s.

Definition ascii_lower (c : N) : N :=
  if (65 <=? c) && (c <=? 90) then c + 32 else c.

Class UnicodeData := {
  nfkc : str -> str;
  lower : str -> str;
  nfkc_ascii : forall s, is_ascii s = true -> nfkc s = s;
  lower_ascii : forall s, is_ascii s = true -> lower s = List.map ascii_lower s
}.

(** The database cut down to Basic Latin: other code points pass through
    unchanged.  It agrees with the real one on ASCII text. *)
#[export] Instance basic_latin : UnicodeData := {|
  nfkc s := s;
  lower s := List.map ascii_lower s;
  nfkc_ascii _ _ := eq_refl;
  lower_ascii _ _ := eq_refl
|}.

(** [canonicalize] *)
Definition canonicalize `{UnicodeData} (name : str) : str :=
  let name := nfkc name in
  let name := sub_spaces name in
  let name := strip (lower (remove_dots name)) in
  name.

End PyStr.

Import PyStr.

(* ===================================================================== *)
(** ** The PID controller *)
(* ===================================================================== *)

Module PID.

(** The class does arithmetic on whatever numbers it is given; the script
    gives it floats. *)
Class Arith (num : Type) := {
  zero : num;
  add : num -> num -> num;
  sub : num -> num -> num;
  mul : num -> num -> num
}.

(** Python floats are binary64, as Rocq's primitive floats are. *)
#[export] Instance float_arith : Arith float := {|
  zero := 0%float;
  add := PrimFloat.add;
  sub := PrimFloat.sub;
  mul := PrimFloat.mul
|}.

Section Controller.
Context {num : Type} `{Arith num}.

Record PIDController := {
  kp : num;
  ki : num;
  kd : num;
  setpoint : num;
  integral : num;
  prev_error : option num
}.

(** [__init__] *)
Definition init (kp ki kd setpoint : num) : PIDController :=
  {| kp := kp; ki := ki; kd := kd; setpoint := setpoint;
     integral := zero; prev_error := None |}.

(** [update]; the lock makes each call atomic, so a call is a function of
    the state it finds. *)
Definition update (self : PIDController) (measured_value : num)
  : PIDController * num :=
  let error := sub (setpoint self) measured_value in
  let integral' := add (integral self) error in
  let derivative :=
    match prev_error self with
    | None => zero
    | Some prev => sub error prev
    end in
  ({| kp := kp self; ki := ki self; kd := kd self;
      setpoint := setpoint self;
      integral := integral';
      prev_error := Some error |},
   add (add (mul (kp self) error) (mul (ki self) integral'))
       (mul (kd self) derivative)).

(** A sequence of calls on one controller, with the values returned. *)
Fixpoint updates (self : PIDController) (ms : list num)
  : PIDController * list num :=
  match ms with
  | [] => (self, [])
  | m :: ms' =>
      let '(self1, out) := update self m in
      let '(self2, outs) := updates self1 ms' in
      (self2, out :: outs)
  end.
End Controller.

Arguments PIDController num : clear implicits.

(** [max(a, b)] of two floats: the first argument unless the second is
    greater. *)
Definition pymax (a b : float) : float :=
  if PrimFloat.ltb a b then b else a.

(** The delay [process_batch] derives from the controller's signal. *)
Definition sleep_time (sleep_adjustment : float) : float :=
  pymax 0.1%float (1.0 + sleep_adjustment)%float.

(** The controller [find_missing_names] creates. *)
Definition program_pid : PIDController float :=
  init 5.0%float 0.5%float 0.2%float 0.01%float.

End PID.

(* ===================================================================== *)
(** ** The lookup of one name *)
(* ===================================================================== *)

Module Dblp.

(** *** Exceptions

    Every exception the lookup can meet derives from [Exception]; the class
    only matters for the message. *)
Inductive exn_class :=
  | RequestException | HTTPError | JSONDecodeError | ParseError
  | AttributeError | TypeError | ValueError | KeyError.

Record exn := Exception { cls : exn_class; message : str }.

Inductive result (A : Type) :=
  | Ok (a : A)
  | Raise (e : exn).
Arguments Ok {A} a.
Arguments Raise {A} e.

#[export] Instance result_ret : MRet result := @Ok.
#[export] Instance result_bind : MBind result :=
  fun A B f m => match m with Ok a => f a | Raise e => Raise e end.

Definition raise {A} (c : exn_class) (msg : string) : result A :=
  Raise (Exception c (py msg)).

(** *** JSON values, as [response.json()] returns them *)
Inductive json :=
  | JNull
  | JBool (b : bool)
  | JInt (z : Z)
  | JFloat (f : float)
  | JStr (s : str)
  | JList (l : list json)
  | JDict (items : list (str * json)).

Definition str_eqb (a b : str) : bool := bool_decide (a = b).

(** The value bound to a key in the items of a dict or of an attribute
    table. *)
Fixpoint assoc {V : Type} (key : str) (items : list (str * V)) : option V :=
  match items with
  | [] => None
  | (k, v) :: rest => if str_eqb k key then Some v else assoc key rest
  end.

(** [obj.get(key, default)]: only a dict has the method. *)
Definition py_get (obj : json) (key : string) (dflt : json) : result json :=
  match obj with
  | JDict items => Ok (default dflt (assoc (py key) items))
  | _ => raise AttributeError "object has no attribute 'get'"
  end.

(** [for x in obj]: the elements of a list, the keys of a dict, the
    characters of a string; nothing else in JSON is iterable. *)
Definition py_iter (obj : json) : result (list json) :=
  match obj with
  | JList l => Ok l
  | JDict items => Ok (List.map (fun kv => JStr (fst kv)) items)
  | JStr s => Ok (List.map (fun c => JStr [c]) s)
  | _ => raise TypeError "object is not iterable"
  end.

(** Truth value of an object in a condition. *)
Definition truthy (obj : json) : bool :=
  match obj with
  | JNull => false
  | JBool b => b
  | JInt z => negb (z =? 0)%Z
  | JFloat f => negb (PrimFloat.eqb f 0%float)
  | JStr s => negb (str_eqb s [])
  | JList l => match l with [] => false | _ => true end
  | JDict items => match items with [] => false | _ => true end
  end.

(** *** XML, as [ET.fromstring] returns it *)
Inductive element :=
  Element (tag : str) (attrib : list (str * str)) (text : option str)
          (children : list element).

Definition tag_of (e : element) := let 'Element t _ _ _ := e in t.
Definition attrib_of (e : element) := let 'Element _ a _ _ := e in a.
Definition text_of (e : element) := let 'Element _ _ t _ := e in t.

(** Everything below an element, in document order. *)
Fixpoint descendants (e : element) : list element :=
  match e with
  | Element _ _ _ cs => List.flat_map (fun c => c :: descendants c) cs
  end.

(** [root.findall(".//" + tag)] *)
Definition findall_below (tag : string) (root : element) : list element :=
  List.filter (fun e => str_eqb (tag_of e) (py tag)) (descendants root).

(** *** The remote service

    [requests.get] either raises (no connection, timeout) or returns a
    response: a status code and a body, of which the script only uses the
    parsed form ([response.json()], [ET.fromstring(response.content)]),
    which may itself raise. *)
Record response (A : Type) := {
  status_code : Z;
  parsed : result A
}.
Arguments status_code {A} r.
Arguments parsed {A} r.

Record remote := {
  (** GET https://dblp.org/search/author/api?q=<q>&format=json *)
  search_author : str -> result (response json);
  (** GET <url> for the XML record of a person *)
  pid_record : str -> result (response element)
}.

(** [response.raise_for_status()]: requests raises for 4xx and 5xx. *)
Definition raise_for_status {A} (r : response A) : result unit :=
  if ((400 <=? status_code r) && (status_code r <? 600))%Z
  then raise HTTPError "Client or Server Error"
  else Ok tt.

(** [urllib.parse.urlparse(url).path], which the script does not define: it
    may raise [ValueError]. *)
Class UrlLib := { urlparse_path : str -> result str }.

Section Lookup.
Context `{UnicodeData} `{UrlLib} (net : remote).

(** [extract_pid_path]: [urlparse] raises on anything that is not text,
    and the handler turns every exception into [None]. *)
Definition extract_pid_path (dblp_pid_url : json) : option str :=
  match dblp_pid_url with
  | JStr url =>
      match urlparse_path url with
      | Ok path =>
          if startswith (py "/pid/") path
          then Some (drop (length (py "/pid/")) path)
          else None
      | Raise _ => None
      end
  | _ => None
  end.

(** The body of the [try] in [has_alias_match]. *)
Definition alias_lookup (pid_path : str) (normalized_query : str)
  : result bool :=
  let xml_url := (py "https://dblp.org/pid/" ++ pid_path ++ py ".xml")%list in
  response ← pid_record net xml_url;
  _ ← raise_for_status response;
  root ← parsed response;
  let target_pid := pid_path in
  let canon_query := canonicalize normalized_query in
  Ok (existsb
        (fun author =>
           match assoc (py "pid") (attrib_of author) with
           | Some pid =>
               str_eqb pid target_pid
               && str_eqb (canonicalize (default [] (text_of author)))
                          canon_query
           | None => false
           end)
        (findall_below "author" root)).

(** [has_alias_match] *)
Definition has_alias_match (dblp_pid_url : json) (normalized_query : str)
  : bool :=
  match extract_pid_path dblp_pid_url with
  | None | Some [] => false
  | Some pid_path =>
      match alias_lookup pid_path normalized_query with
      | Ok found => found
      | Raise _ => false
      end
  end.

(** [canonicalize] applied to an object: [unicodedata.normalize] accepts
    text only. *)
Definition canonicalize_obj (obj : json) : result str :=
  match obj with
  | JStr s => Ok (canonicalize s)
  | _ => raise TypeError "normalize() argument 2 must be str"
  end.

(** The [for hit in hits] loop with its two flags. *)
Fixpoint scan_hits (normalized canon_query : str) (hits : list json)
    (found_exact found_alias : bool) : result (bool * bool) :=
  match hits with
  | [] => Ok (found_exact, found_alias)
  | hit :: rest =>
      info ← py_get hit "info" (JDict []);
      author_name ← py_get info "author" (JStr []);
      dblp_url ← py_get info "url" (JStr []);
      c ← canonicalize_obj author_name;
      if str_eqb c canon_query
      then scan_hits normalized canon_query rest true found_alias
      else if truthy dblp_url && has_alias_match dblp_url normalized
      then scan_hits normalized canon_query rest found_exact true
      else scan_hits normalized canon_query rest found_exact found_alias
  end.

(** The request and what the script reads of the answer: the statements
    of the [try] in [dblp_author_search] up to the loop, and the items the
    loop will go through. *)
Definition search_hits (normalized : str) : result (list json) :=
  response ← search_author net normalized;
  if (status_code response =? 429)%Z
  then raise RequestException "HTTP 429: Too Many Requests"
  else
    _ ← raise_for_status response;
    data ← parsed response;
    result ← py_get data "result" (JDict []);
    hits ← py_get result "hits" (JDict []);
    hit ← py_get hits "hit" (JList []);
    py_iter hit.

(** The body of the [try] in [dblp_author_search]. *)
Definition search_and_classify (normalized canon_query : str) : result str :=
  hits ← search_hits normalized;
  '(found_exact, found_alias) ← scan_hits normalized canon_query hits false false;
  Ok (if found_exact : bool then py "EXACT"
      else if found_alias : bool then py "ALIAS"
      else py "NOT_FOUND").

(** [dblp_author_search] *)
Definition dblp_author_search (name : str) : str * str :=
  let normalized := normalize_input_name name in
  let canon_query := canonicalize normalized in
  match search_and_classify normalized canon_query with
  | Ok verdict => (name, verdict)
  | Raise e => (name, py "ERROR")
  end.
End Lookup.

End Dblp.

(* ===================================================================== *)
(** ** The batch loop and the command *)
(* ===================================================================== *)

Module Batch.
Import Dblp PID.

(** *** Rows and CSV files

    A row of the input CSV, as [csv.DictReader] yields it: a dict with the
    [name] column, which the script requires, the other columns of the
    header (an entry of [fields] under the key [name] is not a column),
    and, for a line with more cells than the header has columns, the cells
    beyond them, which the reader keeps as a list under the key [None];
    [rest] holds the text [str()] makes of that list.  The name column
    comes first, as in the files of the repository. *)
Record row := Row {
  name : str;
  fields : list (str * str);
  rest : option str
}.

(** A key of such a dict: a column name, or [None]. *)
Definition key := option str.

(** [row.keys()] *)
Definition keys (r : row) : list key :=
  Some (py "name")
  :: (Some <$> filter (fun k => k <> py "name") (fields r).*1)
  ++ match rest r with Some _ => [None] | None => [] end.

(** The cell the writer prints for [rowdict.get(key, restval)]: a missing value is the
    empty text. *)
Definition get (r : row) (k : key) : str :=
  match k with
  | Some k =>
      if str_eqb k (py "name") then name r
      else default [] (assoc k (fields r))
  | None => default [] (rest r)
  end.

(** [rowdict.keys() - self.fieldnames] *)
Definition wrong_fields (fieldnames : list key) (r : row) : list key :=
  filter (fun k => k ∉ fieldnames) (keys r).

(** A line of a CSV file, as the csv module reads and writes it: the list
    of its cells (quoting is not modelled: what the writer is given, the
    reader returns).  A blank line is the empty list. *)
Definition record := list str.

(** [writer.writeheader()]: the field names as a line, [None] printed as
    the empty text. *)
Definition header_line (fieldnames : list key) : record :=
  default [] <$> fieldnames.

(** The text of the [ValueError] of [DictWriter] names the wrong fields,
    [", ".join(repr(x) for x in wrong_fields)]: it depends on [repr] and on
    the order in which Python goes through a set, which the script does
    not decide. *)
Class CsvLib := { wrong_fields_text : list key -> str }.

Definition refusal `{CsvLib} (wrong : list key) : exn :=
  Exception ValueError
    (py "dict contains fields not in fieldnames: " ++ wrong_fields_text wrong).

(** What [future.result()] does: return the pair of the lookup, or raise. *)
Inductive future_result :=
  | Returned (r : str * str)
  | Raised (e : exn).

(** *** The files

    The progress file and the log are text; the output CSV is the list of
    its lines, the header among them when it has one.  [None] is a file
    that does not exist. *)
Record files := {
  progress_file : option str;
  output_csv : option (list record);
  log_file : option str
}.

(** [open(path, "a")] followed by a write: the file is created if need be. *)
Definition append {A} (file : option (list A)) (data : list A) : option (list A) :=
  Some (default [] file ++ data).

(** The lines of a text file as [for line in f] yields them: universal
    newlines, so a line ends at LF, CR or CR LF and is returned ending in LF;
    a last line without a terminator is returned as it is.  [after_cr] is set
    when the previous character was a CR, [cur] holds the current line,
    reversed. *)
Fixpoint lines_from (after_cr : bool) (cur : str) (text : str) : list str :=
  match text with
  | [] => match cur with [] => [] | _ => [rev cur] end
  | c :: t =>
      if c =? LF then
        if after_cr then lines_from false cur t
        else rev (LF :: cur) :: lines_from false [] t
      else if c =? CR then rev (LF :: cur) :: lines_from true [] t
      else lines_from false (c :: cur) t
  end.

Definition lines (text : str) : list str := lines_from false [] text.

(** [seen.update(line.strip() for line in f if line.strip())], and the empty
    set when the file is missing. *)
Definition stripped_lines (text : str) : list str :=
  filter (fun l => l <> []) (strip <$> lines text).

Definition load_seen (fs : files) : gset str :=
  match progress_file fs with
  | Some text => list_to_set (stripped_lines text)
  | None => ∅
  end.

(** The index of the last cell of a header that is [x]: of two columns
    with the same name, [csv.DictReader] keeps the later one. *)
Fixpoint last_index (x : str) (header : record) : option nat :=
  match header with
  | [] => None
  | y :: t =>
      match last_index x t with
      | Some j => Some (S j)
      | None => if str_eqb y x then Some 0%nat else None
      end
  end.

(** [row["name"]] for every row of [csv.DictReader(f)].  The first line
    gives the field names, whatever it holds; blank lines after it are
    skipped; a line that is too short for the name column has the name
    [None]; and without a name column the first row raises [KeyError]. *)
Definition read_names (file : list record) : result (list (option str)) :=
  match file with
  | [] => Ok []
  | fieldnames :: rows =>
      match last_index (py "name") fieldnames, filter (fun r => r <> []) rows with
      | Some j, rows => Ok ((fun r => r !! j) <$> rows)
      | None, [] => Ok []
      | None, _ :: _ => raise KeyError "'name'"
      end
  end.

(** [already_output.add(row["name"])] for every row of the output file,
    and the empty set when the file is missing.  ([None] is not kept: it is
    not a name any lookup returns.) *)
Definition load_already_output (fs : files) : result (gset str) :=
  match output_csv fs with
  | Some file => names ← read_names file; Ok (list_to_set (omap id names))
  | None => Ok ∅
  end.

(** *** The state of [process_batch] *)
Record batch := {
  disk : files;
  seen : gset str;
  already_output : gset str;
  total_requests : Z;
  total_errors : Z;
  pid_controller : PIDController float;
  (** the arguments of [time.sleep], latest first *)
  slept : list float
}.

Definition on_disk (f : files -> files) (b : batch) : batch :=
  {| disk := f (disk b); seen := seen b; already_output := already_output b;
     total_requests := total_requests b; total_errors := total_errors b;
     pid_controller := pid_controller b; slept := slept b |}.

Definition write_log (text : str) : batch -> batch :=
  on_disk (fun fs =>
    {| progress_file := progress_file fs; output_csv := output_csv fs;
       log_file := append (log_file fs) text |}).

Definition write_progress (text : str) : batch -> batch :=
  on_disk (fun fs =>
    {| progress_file := append (progress_file fs) text;
       output_csv := output_csv fs; log_file := log_file fs |}).

Definition write_line (line : record) : batch -> batch :=
  on_disk (fun fs =>
    {| progress_file := progress_file fs;
       output_csv := append (output_csv fs) [line]; log_file := log_file fs |}).

Definition add_already_output (n : str) (b : batch) : batch :=
  {| disk := disk b; seen := seen b;
     already_output := {[ n ]} ∪ already_output b;
     total_requests := total_requests b; total_errors := total_errors b;
     pid_controller := pid_controller b; slept := slept b |}.

Definition add_seen (n : str) (b : batch) : batch :=
  {| disk := disk b; seen := {[ n ]} ∪ seen b;
     already_output := already_output b;
     total_requests := total_requests b; total_errors := total_errors b;
     pid_controller := pid_controller b; slept := slept b |}.

Definition count_error (b : batch) : batch :=
  {| disk := disk b; seen := seen b; already_output := already_output b;
     total_requests := total_requests b;
     total_errors := (total_errors b + 1)%Z;
     pid_controller := pid_controller b; slept := slept b |}.

Definition count_request (b : batch) : batch :=
  {| disk := disk b; seen := seen b; already_output := already_output b;
     total_requests := (total_requests b + 1)%Z;
     total_errors := total_errors b;
     pid_controller := pid_controller b; slept := slept b |}.

(** [a / b] on two counters: the quotient of two integers that floats hold
    exactly, rounded once. *)
Definition true_div (a b : Z) : float :=
  (PrimFloat.of_uint63 (Uint63.of_Z a) / PrimFloat.of_uint63 (Uint63.of_Z b))%float.

(** The name the rest of the iteration uses: the one the lookup returned,
    or the row's when [future.result()] raised. *)
Definition result_name (r : row) (fut : future_result) : str :=
  match fut with
  | Returned (n, _) => n
  | Raised _ => name r
  end.

(** The first line written to the log: the verdict in the [try], or the
    exception of [future.result()] in the handler. *)
Definition log_result (r : row) (fut : future_result) (b : batch) : batch :=
  match fut with
  | Returned (n, result) => write_log (n ++ py " -> " ++ result ++ [LF]) b
  | Raised e =>
      write_log (name r ++ py " -> EXCEPTION: " ++ message e ++ [LF]) b
  end.

Section Loop.
Context `{CsvLib}.

(** The rest of the [try] and its handler: the output row and the error
    count.  [writer.writerow(row)] raises [ValueError] for a row with a key
    that is not among the writer's field names; the handler then writes a
    second line to the log and counts an error, and nothing is written to
    the output file. *)
Definition output_result (fieldnames : list key) (r : row)
    (fut : future_result) (b : batch) : batch :=
  match fut with
  | Returned (n, result) =>
      let counted b :=
        if str_eqb result (py "ERROR") then count_error b else b in
      if str_eqb result (py "NOT_FOUND")
         && negb (bool_decide (n ∈ already_output b))
      then match wrong_fields fieldnames r with
           | [] =>
               counted (add_already_output n
                          (write_line (get r <$> fieldnames) b))
           | wrong =>
               count_error
                 (write_log (n ++ py " -> EXCEPTION: "
                               ++ message (refusal wrong) ++ [LF]) b)
           end
      else counted b
  | Raised _ => count_error b
  end.

(** The progress line, [seen.add] and the request count. *)
Definition record_progress (r : row) (fut : future_result) (b : batch) : batch :=
  let n := result_name r fut in
  count_request (add_seen n (write_progress (n ++ [LF]) b)).

(** The controller update and the sleep. *)
Definition pace (b : batch) : batch :=
  if (0 <? total_requests b)%Z then
    let error_rate := true_div (total_errors b) (total_requests b) in
    let '(pid, sleep_adjustment) := update (pid_controller b) error_rate in
    {| disk := disk b; seen := seen b; already_output := already_output b;
       total_requests := total_requests b; total_errors := total_errors b;
       pid_controller := pid;
       slept := sleep_time sleep_adjustment :: slept b |}
  else b.

(** One iteration of [for future in as_completed(futures)], for a writer
    with the given field names. *)
Definition handle (fieldnames : list key) (b : batch)
    (item : future_result * row) : batch :=
  let '(fut, r) := item in
  pace (record_progress r fut
          (output_result fieldnames r fut (log_result r fut b))).

(** Where a run that is killed leaves the iteration it was in: after the
    log line, or after the output row.  (Later points leave the files as a
    finished iteration does.) *)
Inductive cut := Finished | AfterLog | AfterOutput.

Definition handle_last (fieldnames : list key) (c : cut) (b : batch)
    (item : future_result * row) : batch :=
  let '(fut, r) := item in
  match c with
  | Finished => handle fieldnames b item
  | AfterLog => log_result r fut b
  | AfterOutput => output_result fieldnames r fut (log_result r fut b)
  end.

Fixpoint drain (fieldnames : list key) (c : cut) (b : batch)
    (items : list (future_result * row)) : batch :=
  match items with
  | [] => b
  | [item] => handle_last fieldnames c b item
  | item :: rest => drain fieldnames c (handle fieldnames b item) rest
  end.
End Loop.

(** What the script does not decide in a run: what each task finds at the
    remote service, in which order the pool delivers the results (and, for a
    run that is killed, how many it delivers), and where the last iteration
    stops. *)
Record schedule := {
  world : nat -> remote;
  as_completed : list (future_result * row) -> list (future_result * row);
  stop : cut
}.

(** A run that ends by itself drains every future once, in some order. *)
Definition runs_to_end (s : schedule) : Prop :=
  stop s = Finished /\ forall futures, as_completed s futures ≡ₚ futures.

(** A run, killed or not, drains some of the futures, each at most once. *)
Definition well_scheduled (s : schedule) : Prop :=
  forall futures, as_completed s futures ⊆+ futures.

Section Run.
Context `{UnicodeData} `{UrlLib} `{CsvLib}.

(** The dict [futures]: one task per row whose name is not in [seen]. *)
Definition submit (s : schedule) (rows : list row) (seen : gset str)
  : list (future_result * row) :=
  imap (fun i r => (Returned (dblp_author_search (world s i) (name r)), r))
       (filter (fun r => name r ∉ seen) rows).

(** The [with] statement opens the output file and the log for appending,
    which creates a file that is missing. *)
Definition open_for_append (fs : files) : files :=
  {| progress_file := progress_file fs;
     output_csv := Some (default [] (output_csv fs));
     log_file := Some (default [] (log_file fs)) |}.

(** The state in which the loop starts. *)
Definition start (fs : files) (seen already_output : gset str)
    (pid_controller : PIDController float) : batch :=
  {| disk := open_for_append fs;
     seen := seen; already_output := already_output;
     total_requests := 0; total_errors := 0;
     pid_controller := pid_controller; slept := [] |}.

(** [rows[0].keys()], the field names of the writer.  ([rows] is not empty
    when [find_missing_names] calls [process_batch].) *)
Definition fieldnames_of (rows : list row) : list key :=
  match rows with
  | r0 :: _ => keys r0
  | [] => []
  end.

(** [process_batch], and the names [dblp_author_search] was submitted
    with. *)
Definition process_batch (rows : list row) (fs : files)
    (seen already_output : gset str) (pid_controller : PIDController float)
    (s : schedule) : batch * list str :=
  let futures := submit s rows seen in
  (drain (fieldnames_of rows) (stop s)
         (start fs seen already_output pid_controller)
         (as_completed s futures),
   (fun item => name (snd item)) <$> futures).

(** [if not os.path.exists(output_csv)]: the file is created with the
    header; a file that exists is left as it is, with or without header. *)
Definition write_header_if_missing (fs : files) (reader : list row) : files :=
  match output_csv fs with
  | Some _ => fs
  | None => {| progress_file := progress_file fs;
               output_csv := Some [header_line (fieldnames_of reader)];
               log_file := log_file fs |}
  end.

(** [find_missing_names]: the files it leaves, and the names it had
    looked up.  A [KeyError] out of the loop that reads the output file is
    not caught: the command ends there, before it has written anything. *)
Definition find_missing_names (fs : files) (input : list row) (s : schedule)
  : files * list str :=
  let seen := load_seen fs in
  match load_already_output fs with
  | Raise _ => (fs, [])
  | Ok already_output =>
      match input with
      | [] => (fs, [])
      | _ :: _ =>
          let fs := write_header_if_missing fs input in
          let '(b, queried) :=
            process_batch input fs seen already_output program_pid s in
          (disk b, queried)
      end
  end.

(** *** Runs one after another on the same files *)
Record history := {
  now : files;
  (** every name a lookup was submitted with, latest run first *)
  queried : list str
}.

Definition resume (h : history) (run : list row * schedule) : history :=
  let '(fs, q) := find_missing_names (now h) (fst run) (snd run) in
  {| now := fs; queried := q ++ queried h |}.

Definition lifetime (fs : files) (runs : list (list row * schedule)) : history :=
  foldl resume {| now := fs; queried := [] |} runs.
End Run.

(** No file exists yet. *)
Definition no_files : files :=
  {| progress_file := None; output_csv := None; log_file := None |}.

Definition output_lines (fs : files) : list record := default [] (output_csv fs).
Definition progress_lines (fs : files) : list str :=
  lines (default [] (progress_file fs)).

End Batch.

(* ===================================================================== *)
(** * Properties *)
(* ===================================================================== *)

(** ** Strings *)

Module StrProps.

Definition whitespace (c : N) : Prop := isspace c = true.

Lemma isspace_ascii_lower c : isspace (ascii_lower c) = isspace c.
Proof.
  unfold ascii_lower.
  destruct ((65 <=? c) && (c <=? 90)) eqn:E; [|reflexivity].
  apply andb_prop in E as [H1 H2].
  apply N.leb_le in H1, H2.
  assert (Hc : isspace c = false).
  { unfold isspace.
    repeat match goal with
    | |- context [?a <=? ?b] => destruct (N.leb_spec a b); try lia
    | |- context [?a =? ?b] => destruct (N.eqb_spec a b); try lia
    end; reflexivity. }
  rewrite Hc. unfold isspace.
  repeat match goal with
  | |- context [?a <=? ?b] => destruct (N.leb_spec a b); try lia
  | |- context [?a =? ?b] => destruct (N.eqb_spec a b); try lia
  end; reflexivity.
Qed.

Lemma ascii_lower_idem c : ascii_lower (ascii_lower c) = ascii_lower c.
Proof.
  unfold ascii_lower.
  destruct ((65 <=? c) && (c <=? 90)) eqn:E; [|now rewrite E].
  apply andb_prop in E as [H1 H2]. apply N.leb_le in H1, H2.
  destruct (N.leb_spec 65 (c + 32)), (N.leb_spec (c + 32) 90); simpl; lia.
Qed.

Lemma ascii_lower_dot c : ascii_lower c = DOT -> c = DOT.
Proof.
  unfold ascii_lower, DOT.
  destruct ((65 <=? c) && (c <=? 90)) eqn:E; [|auto].
  apply andb_prop in E as [H1 H2]. apply N.leb_le in H1, H2. lia.
Qed.


Lemma ascii_lower_bound c : c < 128 -> ascii_lower c < 128.
Proof.
  unfold ascii_lower.
  destruct ((65 <=? c) && (c <=? 90)) eqn:E; [|auto].
  apply andb_prop in E as [H1 H2]. apply N.leb_le in H1, H2. lia.
Qed.

(** *** [lstrip], [rstrip], [strip] *)

Lemma lstrip_split s :
  exists w, s = (w ++ lstrip s)%list /\ Forall whitespace w.
Proof.
  induction s as [|c t [w [Hs Hw]]]; simpl.
  - exists []. split; [reflexivity | constructor].
  - destruct (isspace c) eqn:E.
    + exists (c :: w). split; [simpl; congruence | constructor; assumption].
    + exists []. split; [reflexivity | constructor].
Qed.

Lemma lstrip_head s c t : lstrip s = c :: t -> isspace c = false.
Proof.
  induction s as [|d u IH]; simpl; [discriminate|].
  destruct (isspace d) eqn:E; [exact IH|].
  intros [= <- <-]. exact E.
Qed.

Lemma lstrip_id c t : isspace c = false -> lstrip (c :: t) = c :: t.
Proof. intros E. simpl. now rewrite E. Qed.

Lemma lstrip_whitespace w s : Forall whitespace w -> lstrip (w ++ s) = lstrip s.
Proof.
  induction 1 as [|c w Hc _ IH]; simpl; [reflexivity|].
  unfold whitespace in Hc. now rewrite Hc.
Qed.

Lemma lstrip_app_not_all s u :
  lstrip s <> [] -> lstrip (s ++ u) = (lstrip s ++ u)%list.
Proof.
  induction s as [|c t IH]; simpl; [congruence|].
  destruct (isspace c); [exact IH | reflexivity].
Qed.

Lemma lstrip_nil_whitespace s : lstrip s = [] <-> Forall whitespace s.
Proof.
  induction s as [|c t IH]; simpl.
  - split; [constructor | reflexivity].
  - destruct (isspace c) eqn:E.
    + rewrite IH. split; [now constructor | now inversion 1].
    + split; [discriminate | inversion 1; unfold whitespace in *; congruence].
Qed.

Lemma lstrip_In s c : In c (lstrip s) -> In c s.
Proof.
  destruct (lstrip_split s) as [w [Hs _]]. intros Hc.
  rewrite Hs. apply in_or_app. now right.
Qed.

(** [rstrip] one character at a time. *)
Lemma rstrip_cons c t :
  rstrip (c :: t) =
  match rstrip t with
  | [] => if isspace c then [] else [c]
  | r => c :: r
  end.
Proof.
  unfold rstrip. simpl rev.
  destruct (lstrip (rev t)) as [|d u] eqn:E.
  - apply lstrip_nil_whitespace in E.
    rewrite lstrip_whitespace by exact E. simpl.
    destruct (isspace c); reflexivity.
  - rewrite lstrip_app_not_all by congruence. rewrite E.
    simpl. rewrite rev_app_distr. simpl.
    destruct (rev u ++ [d])%list eqn:E2; [|reflexivity].
    destruct (rev u); discriminate.
Qed.

Lemma rstrip_nil : rstrip [] = [].
Proof. reflexivity. Qed.

Lemma rstrip_In s c : In c (rstrip s) -> In c s.
Proof.
  unfold rstrip. rewrite <- in_rev. intros Hc%lstrip_In. now apply in_rev.
Qed.

Lemma strip_In s c : In c (strip s) -> In c s.
Proof. unfold strip. intros Hc%lstrip_In. now apply rstrip_In. Qed.

(** A string with no whitespace at either end. *)
Definition trimmed (s : str) : Prop :=
  (forall c t, s = c :: t -> isspace c = false) /\
  (forall c t, rev s = c :: t -> isspace c = false).

Lemma rstrip_last s c t : rev (rstrip s) = c :: t -> isspace c = false.
Proof. unfold rstrip. rewrite rev_involutive. apply lstrip_head. Qed.

Lemma strip_trimmed s : trimmed (strip s).
Proof.
  split; unfold strip.
  - intros c t. apply lstrip_head.
  - intros c t Hrev.
    destruct (lstrip_split (rstrip s)) as [w [Hs _]].
    destruct (rev (rstrip s)) as [|d u] eqn:E.
    { apply (f_equal (@rev N)) in E. rewrite rev_involutive in E.
      rewrite E in Hrev. discriminate. }
    assert (Hd : isspace d = false) by (eapply rstrip_last; eauto).
    rewrite Hs, rev_app_distr, Hrev in E.
    injection E as -> _. exact Hd.
Qed.

Lemma trimmed_strip s : trimmed s -> strip s = s.
Proof.
  intros [Hhead Hlast]. unfold strip, rstrip.
  destruct (rev s) as [|c t] eqn:E.
  - apply (f_equal (@rev N)) in E. rewrite rev_involutive in E. now subst.
  - rewrite lstrip_id by eauto. rewrite <- E, rev_involutive.
    destruct s as [|d u]; [reflexivity|]. apply lstrip_id. eauto.
Qed.

Lemma strip_idem s : strip (strip s) = strip s.
Proof. apply trimmed_strip, strip_trimmed. Qed.

Lemma trimmed_map_lower s :
  trimmed s -> trimmed (List.map ascii_lower s).
Proof.
  intros [Hhead Hlast]. split.
  - destruct s as [|d u]; [discriminate|]. intros c t [= <- <-].
    rewrite isspace_ascii_lower. eauto.
  - rewrite <- map_rev. destruct (rev s) as [|d u]; [discriminate|].
    intros c t [= <- <-]. rewrite isspace_ascii_lower. eauto.
Qed.

(** *** [re.sub(r"\s+", " ", _)] *)

(** Whitespace is made of single spaces; [prev] says that the character
    before the head was whitespace. *)
Fixpoint single_spaced (prev : bool) (s : str) : bool :=
  match s with
  | [] => true
  | c :: t =>
      if isspace c
      then negb prev && (c =? SPACE) && single_spaced true t
      else single_spaced false t
  end.

Lemma sub_spaces_single_spaced b s :
  single_spaced b (sub_spaces_from b s) = true.
Proof.
  revert b; induction s as [|c t IH]; intros b; simpl; [reflexivity|].
  destruct (isspace c) eqn:E.
  - destruct b; [apply IH|]. simpl. apply IH.
  - simpl. rewrite E. apply IH.
Qed.



Lemma single_spaced_weaken b s :
  single_spaced b s = true -> single_spaced false s = true.
Proof.
  destruct s as [|c t]; simpl; [reflexivity|].
  destruct (isspace c); [|auto].
  intros [[_ Hc]%andb_prop Ht]%andb_prop. now rewrite Hc, Ht.
Qed.




Lemma sub_spaces_In b s c :
  In c (sub_spaces_from b s) -> c = SPACE \/ In c s.
Proof.
  revert b; induction s as [|d t IH]; intros b; simpl; [tauto|].
  destruct (isspace d).
  - destruct b; simpl; intros Hc.
    + apply IH in Hc. tauto.
    + destruct Hc as [<- | Hc]; [tauto|]. apply IH in Hc. tauto.
  - simpl. intros [<- | Hc]; [tauto|]. apply IH in Hc. tauto.
Qed.

(** *** ASCII text without periods *)

Definition has_dot (s : str) : bool := existsb (fun c => c =? DOT) s.

Lemma is_ascii_spec s : is_ascii s = true <-> forall c, In c s -> c < 128.
Proof.
  unfold is_ascii. rewrite forallb_forall.
  split; intros Hs c Hc; apply N.ltb_lt + apply N.ltb_lt; auto.
Qed.

Lemma has_dot_spec s : has_dot s = false <-> forall c, In c s -> c <> DOT.
Proof.
  unfold has_dot. split.
  - intros Hs c Hc ->.
    assert (existsb (fun c => c =? DOT) s = true); [|congruence].
    apply existsb_exists. exists DOT. split; [exact Hc | reflexivity].
  - intros Hs. destruct (existsb _ s) eqn:E; [|reflexivity].
    apply existsb_exists in E as [c [Hc ->%N.eqb_eq]]. now apply Hs in Hc.
Qed.


Lemma remove_dots_In s c : In c (remove_dots s) <-> In c s /\ c <> DOT.
Proof.
  unfold remove_dots. rewrite filter_In.
  destruct (N.eqb_spec c DOT); simpl; intuition congruence.
Qed.


Section Canonicalize.
Context `{UnicodeData}.

(** On ASCII text the definition only uses the string methods. *)
Lemma canonicalize_ascii s :
  is_ascii s = true ->
  canonicalize s = strip (List.map ascii_lower (remove_dots (sub_spaces s))).
Proof.
  intros Hs. unfold canonicalize. rewrite nfkc_ascii by exact Hs.
  rewrite lower_ascii; [reflexivity|].
  apply is_ascii_spec. intros c [Hc _]%remove_dots_In.
  apply sub_spaces_In in Hc as [->|Hc]; [reflexivity|].
  now apply is_ascii_spec with (s := s).
Qed.

Lemma canonicalize_is_ascii s :
  is_ascii s = true -> is_ascii (canonicalize s) = true.
Proof.
  intros Hs. rewrite canonicalize_ascii by exact Hs.
  apply is_ascii_spec. intros c Hc%strip_In.
  apply in_map_iff in Hc as [d [<- [Hd _]%remove_dots_In]].
  apply ascii_lower_bound.
  apply sub_spaces_In in Hd as [->|Hd]; [reflexivity|].
  now apply is_ascii_spec with (s := s).
Qed.

Lemma canonicalize_no_dot s :
  is_ascii s = true -> has_dot (canonicalize s) = false.
Proof.
  intros Hs. rewrite canonicalize_ascii by exact Hs.
  apply has_dot_spec. intros c Hc%strip_In.
  apply in_map_iff in Hc as [d [<- [Hd Hdot]%remove_dots_In]].
  intros Heq%ascii_lower_dot. contradiction.
Qed.

End Canonicalize.

(** *** The substitution of the bracket pattern *)

Lemma sub_brackets_unfold s :
  sub_brackets s =
  match match_bracket s with
  | Some rest => sub_brackets rest
  | None => match s with [] => [] | c :: t => c :: sub_brackets t end
  end.
Proof.
  funelim (sub_brackets s);
    try match goal with E : match_bracket _ = _ |- _ => rewrite E end;
    reflexivity.
Qed.

Lemma match_tail_body body post :
  ~ In RBRACKET body -> ~ In LF body ->
  match_tail (body ++ RBRACKET :: post) = Some post.
Proof.
  induction body as [|c t IH]; simpl; intros Hr Hl; [reflexivity|].
  destruct (N.eqb_spec c RBRACKET) as [->|_]; [tauto|].
  destruct (N.eqb_spec c LF) as [->|_]; [tauto|].
  apply IH; tauto.
Qed.

Lemma sub_brackets_segment pre body post :
  ~ In LBRACKET pre -> ~ In RBRACKET body -> ~ In LF body ->
  sub_brackets (pre ++ LBRACKET :: body ++ RBRACKET :: post) =
  (rstrip pre ++ sub_brackets (lstrip post))%list.
Proof.
  intros Hpre Hb1 Hb2.
  induction pre as [|c p IH].
  - simpl. rewrite sub_brackets_unfold. unfold match_bracket. simpl.
    now rewrite match_tail_body.
  - rewrite sub_brackets_unfold, rstrip_cons.
    assert (IH' := IH (fun Hin => Hpre (or_intror Hin))). clear IH.
    unfold match_bracket.
    destruct (lstrip (c :: p)) as [|d u] eqn:E.
    + (* only whitespace up to the bracket *)
      apply lstrip_nil_whitespace in E.
      rewrite lstrip_whitespace by exact E. simpl.
      rewrite match_tail_body by assumption.
      assert (Hp : rstrip p = []).
      { inversion E as [|? ? _ Hw]; subst. unfold rstrip.
        replace (lstrip (rev p)) with (@nil N); [reflexivity|].
        symmetry. apply lstrip_nil_whitespace. now apply Forall_rev. }
      rewrite Hp. inversion E as [|? ? Hc _]; subst.
      unfold whitespace in Hc. now rewrite Hc.
    + rewrite lstrip_app_not_all by congruence. rewrite E. simpl.
      assert (Hd : d <> LBRACKET).
      { intros ->. apply Hpre, lstrip_In. rewrite E. now left. }
      destruct (N.eqb_spec d LBRACKET) as [?|_]; [contradiction|].
      rewrite IH'.
      destruct (rstrip p) as [|r rs] eqn:Hp; [|reflexivity].
      destruct (isspace c) eqn:Hc; [|reflexivity].
      exfalso.
      assert (Hall : Forall whitespace (c :: p)).
      { constructor; [exact Hc|].
        unfold rstrip in Hp. apply (f_equal (@rev N)) in Hp.
        rewrite rev_involutive in Hp. simpl in Hp.
        apply lstrip_nil_whitespace in Hp. apply Forall_rev in Hp.
        now rewrite rev_involutive in Hp. }
      apply lstrip_nil_whitespace in Hall. congruence.
Qed.

Lemma match_tail_no_close s : ~ In RBRACKET s -> match_tail s = None.
Proof.
  induction s as [|c t IH]; simpl; intros Hs; [reflexivity|].
  destruct (N.eqb_spec c RBRACKET) as [->|_]; [tauto|].
  destruct (c =? LF); [reflexivity|]. apply IH. tauto.
Qed.

Lemma match_bracket_incomplete s :
  ~ In LBRACKET s \/ ~ In RBRACKET s -> match_bracket s = None.
Proof.
  unfold match_bracket. intros Hs.
  destruct (lstrip s) as [|c t] eqn:E; [reflexivity|].
  assert (Hsub : forall d, In d (c :: t) -> In d s)
    by (intros d Hd; apply lstrip_In; now rewrite E).
  destruct (N.eqb_spec c LBRACKET) as [->|_]; [|reflexivity].
  destruct Hs as [Hs|Hs]; [exfalso; apply Hs, Hsub; now left|].
  rewrite match_tail_no_close; [reflexivity|].
  intros Hin. apply Hs, Hsub. now right.
Qed.

Lemma sub_brackets_incomplete s :
  ~ In LBRACKET s \/ ~ In RBRACKET s -> sub_brackets s = s.
Proof.
  intros Hs.
  induction s as [|c t IH]; rewrite sub_brackets_unfold,
    match_bracket_incomplete by exact Hs; [reflexivity|].
  rewrite IH; [reflexivity|]. simpl in Hs. tauto.
Qed.

(** *** Names with several annotations *)

(** The text [before] a bracketed segment and the [body] between its
    brackets; a name is a sequence of such pieces and a last text. *)
Definition annotate (pieces : list (str * str)) (last : str) : str :=
  (concat ((fun p => p.1 ++ LBRACKET :: p.2 ++ [RBRACKET]) <$> pieces) ++ last)%list.

Lemma annotate_cons pre body pieces last :
  annotate ((pre, body) :: pieces) last
  = (pre ++ LBRACKET :: body ++ RBRACKET :: annotate pieces last)%list.
Proof.
  unfold annotate. cbn [fmap list_fmap concat fst snd].
  rewrite <- !app_assoc. cbn [app]. now rewrite <- !app_assoc.
Qed.

Lemma lstrip_before_bracket pre rest :
  lstrip (pre ++ LBRACKET :: rest) = (lstrip pre ++ LBRACKET :: rest)%list.
Proof.
  induction pre as [|c p IH]; [reflexivity|].
  cbn [app lstrip]. destruct (isspace c); [exact IH | reflexivity].
Qed.

Lemma rstrip_lstrip s : rstrip (lstrip s) = strip s.
Proof.
  unfold strip. induction s as [|c t IH]; [reflexivity|].
  cbn [lstrip]. destruct (isspace c) eqn:Hc.
  - rewrite IH, (rstrip_cons c t).
    destruct (rstrip t); rewrite ?Hc; cbn [lstrip]; rewrite ?Hc; reflexivity.
  - rewrite (rstrip_cons c t).
    destruct (rstrip t); rewrite ?Hc; cbn [lstrip]; rewrite ?Hc; reflexivity.
Qed.

(** What [sub_brackets] leaves of a text that starts right after a
    segment: the pieces, stripped, and the last text without the whitespace
    in front of it. *)
Lemma sub_brackets_annotate pieces last :
  Forall (fun p => ~ In LBRACKET p.1 /\ ~ In RBRACKET p.2 /\ ~ In LF p.2) pieces ->
  ~ In LBRACKET last \/ ~ In RBRACKET last ->
  sub_brackets (lstrip (annotate pieces last))
  = (concat (strip <$> pieces.*1) ++ lstrip last)%list.
Proof.
  intros Hpieces Hlast.
  induction Hpieces as [|[pre body] pieces (Hpre & Hb1 & Hb2) _ IH].
  - cbn. apply sub_brackets_incomplete.
    destruct Hlast as [Hl|Hl]; [left|right]; intros Hin; apply Hl, lstrip_In, Hin.
  - cbn [fst snd] in *. rewrite annotate_cons, lstrip_before_bracket.
    rewrite sub_brackets_segment; try assumption.
    + rewrite IH, rstrip_lstrip. cbn [fmap list_fmap concat fst].
      now rewrite <- app_assoc.
    + intros Hin. apply Hpre, lstrip_In, Hin.
Qed.

(** Stripping a concatenation of stripped texts. *)
Lemma lstrip_app_trimmed a b :
  (forall c t, b = c :: t -> isspace c = false) ->
  lstrip (a ++ b) = (lstrip a ++ b)%list.
Proof.
  intros Hb. induction a as [|c a IH]; cbn [app lstrip].
  - destruct b as [|d u]; [reflexivity|]. cbn [lstrip]. now rewrite (Hb d u).
  - destruct (isspace c); [exact IH | reflexivity].
Qed.

Lemma rstrip_app_trimmed a b :
  (forall c t, rev a = c :: t -> isspace c = false) ->
  rstrip (a ++ b) = (a ++ rstrip b)%list.
Proof.
  intros Ha. unfold rstrip. rewrite rev_app_distr.
  rewrite lstrip_app_trimmed by exact Ha.
  now rewrite rev_app_distr, rev_involutive.
Qed.

Lemma concat_strip_head (l : list str) c t :
  concat (strip <$> l) = c :: t -> isspace c = false.
Proof.
  induction l as [|s l IH]; [discriminate|].
  cbn [fmap list_fmap concat].
  destruct (strip s) as [|d u] eqn:E; [exact IH|].
  intros [= <- _]. destruct (strip_trimmed s) as [Hh _]. eapply Hh, E.
Qed.

Lemma concat_strip_last (l : list str) c t :
  rev (concat (strip <$> l)) = c :: t -> isspace c = false.
Proof.
  induction l as [|s l IH] using rev_ind; [discriminate|].
  rewrite fmap_app, concat_app. cbn [fmap list_fmap concat].
  rewrite app_nil_r, rev_app_distr.
  destruct (rev (strip s)) as [|d u] eqn:E; [exact IH|].
  intros [= <- _]. destruct (strip_trimmed s) as [_ Hl]. eapply Hl, E.
Qed.

(** *** The two normalisations on examples and in general *)

(** C7, as stated, fails: canonicalize removes the periods of
    "J. R. R. Tolkien" but keeps the spaces between the initials, so the
    result is not that of "jrr tolkien". *)
Lemma canonicalize_tolkien_differs :
  @canonicalize basic_latin (py "J. R. R. Tolkien")
  <> @canonicalize basic_latin (py "jrr tolkien").
Proof. vm_compute. discriminate. Qed.

(** C7, amended: canonicalize("J. R. R. Tolkien") is "j r r tolkien", which
    is also canonicalize("j r r tolkien"); canonicalize("jrr tolkien") is
    "jrr tolkien".  This holds whatever the Unicode tables are beyond
    ASCII. *)
Theorem canonicalize_tolkien `{UnicodeData} :
  canonicalize (py "J. R. R. Tolkien") = py "j r r tolkien"
  /\ canonicalize (py "J. R. R. Tolkien") = canonicalize (py "j r r tolkien")
  /\ canonicalize (py "jrr tolkien") = py "jrr tolkien".
Proof.
  rewrite !canonicalize_ascii by reflexivity.
  repeat split; vm_compute; reflexivity.
Qed.




(** C10, as stated, fails: a bracketed segment with a line break inside is
    not removed, since [.] in the pattern does not match a line feed. *)
Lemma normalize_input_name_keeps_broken_segment :
  normalize_input_name (py "Jane [00" ++ LF :: py "02] Doe")
  = (py "Jane [00" ++ LF :: py "02] Doe")%list
  /\ normalize_input_name (py "Jane [00" ++ LF :: py "02] Doe") <> py "JaneDoe".
Proof. split; [reflexivity | discriminate]. Qed.

(** C10, amended: in a name made of texts that hold no opening bracket,
    each followed by a bracketed segment without closing bracket or line
    feed inside, and of a last text without a complete segment,
    normalize_input_name removes every segment with the whitespace on both
    sides of it, wherever it stands: what is left is the texts, each
    stripped, one after the other.  So the words next to a bracket inside
    a name are joined, and a trailing annotation disappears. *)
Theorem normalize_input_name_brackets :
  (forall (pieces : list (str * str)) (last : str),
     Forall (fun p => ~ In LBRACKET p.1 /\ ~ In RBRACKET p.2 /\ ~ In LF p.2)
            pieces ->
     ~ In LBRACKET last \/ ~ In RBRACKET last ->
     normalize_input_name (annotate pieces last)
     = (concat (strip <$> pieces.*1) ++ strip last)%list)
  /\ normalize_input_name (py "Jane [0002] Doe") = py "JaneDoe"
  /\ normalize_input_name (py "Jane Doe [0002]") = py "Jane Doe".
Proof.
  split; [|split; reflexivity].
  intros pieces last Hpieces Hlast. unfold normalize_input_name.
  destruct Hpieces as [|[pre body] pieces (Hpre & Hb1 & Hb2) Hrest].
  - cbn. now rewrite sub_brackets_incomplete.
  - cbn [fst snd] in *. rewrite annotate_cons.
    rewrite sub_brackets_segment by assumption.
    rewrite sub_brackets_annotate by assumption.
    cbn [fmap list_fmap concat fst].
    unfold strip at 1.
    rewrite app_assoc, rstrip_app_trimmed, rstrip_lstrip.
    2:{ intros c t.
        rewrite rev_app_distr.
        destruct (rev (concat (strip <$> pieces.*1))) as [|d u] eqn:E.
        - cbn [app]. apply rstrip_last.
        - intros [= <- _]. eapply concat_strip_last, E. }
    rewrite <- app_assoc.
    rewrite lstrip_app_trimmed.
    2:{ intros c t.
        destruct (concat (strip <$> pieces.*1)) as [|d u] eqn:E.
        - cbn [app]. destruct (strip_trimmed last) as [Hh _]. apply Hh.
        - intros [= <- _]. eapply concat_strip_head, E. }
    now rewrite <- app_assoc.
Qed.

Lemma normalize_input_name_brackets_witness :
  normalize_input_name (py "Jane Q. [0002]  Doe [x] ") = py "Jane Q.Doe".
Proof.
  refine (eq_trans
    (proj1 normalize_input_name_brackets
       [(py "Jane Q. ", py "0002"); (py "  Doe ", py "x")] (py " ") _ _) _).
  - repeat constructor; vm_compute; intuition discriminate.
  - left. vm_compute. intuition discriminate.
  - reflexivity.
Defined.

End StrProps.

(* ===================================================================== *)
(** ** Rounding in binary64 is monotone

    The operations of Rocq's primitive floats are specified by the
    functions of [SpecFloat] (the axioms [add_spec], [sub_spec], [mul_spec]
    of the library).  This module shows that what they compute does not
    decrease when an operand grows: every result is the rounding of the
    exact result, and rounding is monotone.  Values are measured as
    integers, in units of the smallest positive float. *)

Module FloatOrder.
#[local] Open Scope Z_scope.

(** *** Right shifts *)

Definition shrn (n : nat) (mrs : shr_record) : shr_record :=
  Nat.iter n shr_1 mrs.

Lemma iter_pos_nat {A} (f : A -> A) (p : positive) (x : A) :
  SpecFloat.iter_pos f p x = Nat.iter (Pos.to_nat p) f x.
Proof.
  revert x; induction p as [p IH|p IH|]; intros x; cbn [SpecFloat.iter_pos].
  - rewrite !IH, Pos2Nat.inj_xI.
    replace (S (2 * Pos.to_nat p))%nat
      with (Pos.to_nat p + (Pos.to_nat p + 1))%nat by lia.
    rewrite !Nat.iter_add. reflexivity.
  - rewrite !IH, Pos2Nat.inj_xO.
    replace (2 * Pos.to_nat p)%nat with (Pos.to_nat p + Pos.to_nat p)%nat by lia.
    rewrite Nat.iter_add. reflexivity.
  - reflexivity.
Qed.

Lemma shrn_add (a b : nat) mrs : shrn (a + b) mrs = shrn a (shrn b mrs).
Proof. apply Nat.iter_add. Qed.

Lemma shr_1_spec m r s :
  0 <= m ->
  shr_1 (Build_shr_record m r s)
  = Build_shr_record (Z.div2 m) (Z.odd m) (r || s).
Proof.
  intros Hm. destruct m as [|[p|p|]|p]; try reflexivity. lia.
Qed.

(** A record as a number: the mantissa followed by the round and sticky
    bits. *)
Definition val (mrs : shr_record) : Z :=
  4 * shr_m mrs + (if shr_r mrs then 2 else 0) + (if shr_s mrs then 1 else 0).

Lemma shr_1_nonneg mrs : 0 <= shr_m mrs -> 0 <= shr_m (shr_1 mrs).
Proof.
  destruct mrs as [m r s]. cbn [shr_m]. intros Hm.
  rewrite shr_1_spec by exact Hm. cbn [shr_m].
  rewrite Z.div2_div. apply Z.div_pos; lia.
Qed.

Lemma shr_1_mono x y :
  0 <= shr_m x -> 0 <= shr_m y -> val x <= val y ->
  val (shr_1 x) <= val (shr_1 y).
Proof.
  destruct x as [m1 r1 s1], y as [m2 r2 s2]. unfold val. cbn [shr_m shr_r shr_s].
  intros H1 H2 Hle. rewrite !shr_1_spec by assumption.
  cbn [shr_m shr_r shr_s].
  pose proof (Z.div2_odd m1) as E1. pose proof (Z.div2_odd m2) as E2.
  destruct (Z.odd m1), (Z.odd m2), r1, s1, r2, s2; cbn [orb Z.b2z] in *; lia.
Qed.

Lemma shrn_nonneg n mrs : 0 <= shr_m mrs -> 0 <= shr_m (shrn n mrs).
Proof.
  intros Hm. induction n as [|n IH]; [exact Hm|].
  change (shrn (S n) mrs) with (shr_1 (shrn n mrs)). now apply shr_1_nonneg.
Qed.

Lemma shrn_mono n x y :
  0 <= shr_m x -> 0 <= shr_m y -> val x <= val y ->
  val (shrn n x) <= val (shrn n y).
Proof.
  intros Hx Hy Hle. induction n as [|n IH]; [exact Hle|].
  change (val (shr_1 (shrn n x)) <= val (shr_1 (shrn n y))).
  apply shr_1_mono; try apply shrn_nonneg; assumption.
Qed.

Lemma shrn_m n mrs :
  0 <= shr_m mrs -> shr_m (shrn n mrs) = shr_m mrs / 2 ^ Z.of_nat n.
Proof.
  intros Hm. induction n as [|n IH]; [cbn; now rewrite Z.div_1_r|].
  change (shrn (S n) mrs) with (shr_1 (shrn n mrs)).
  pose proof (shrn_nonneg n mrs Hm) as Hn.
  destruct (shrn n mrs) as [m r s]. cbn [shr_m] in *.
  rewrite shr_1_spec by exact Hn. cbn [shr_m].
  rewrite Z.div2_div, IH, Z.div_div by lia.
  f_equal. rewrite Nat2Z.inj_succ, Z.pow_succ_r by lia. lia.
Qed.

(** Shifting out zeros loses nothing. *)
Lemma shrn_zeros n m :
  0 <= m ->
  shrn n (Build_shr_record (m * 2 ^ Z.of_nat n) false false)
  = Build_shr_record m false false.
Proof.
  revert m; induction n as [|n IH]; intros m Hm.
  - cbn. now rewrite Z.mul_1_r.
  - replace (S n) with (n + 1)%nat by lia. rewrite shrn_add.
    change (shrn 1 ?x) with (shr_1 x).
    rewrite shr_1_spec by (apply Z.mul_nonneg_nonneg; lia).
    replace (m * 2 ^ Z.of_nat (n + 1)) with (2 * (m * 2 ^ Z.of_nat n))
      by (rewrite Nat2Z.inj_add, Z.pow_add_r by lia; cbn; lia).
    assert (Hhalf : Z.div2 (2 * (m * 2 ^ Z.of_nat n)) = m * 2 ^ Z.of_nat n)
      by (rewrite Z.div2_div, Z.mul_comm, Z.div_mul; lia).
    assert (Hodd : Z.odd (2 * (m * 2 ^ Z.of_nat n)) = false)
      by (rewrite Z.odd_mul; reflexivity).
    rewrite Hhalf, Hodd. cbn [orb]. now apply IH.
Qed.

(** *** Rounding to nearest, ties to even *)

Definition rne (mrs : shr_record) : Z :=
  round_nearest_even (shr_m mrs) (loc_of_shr_record mrs).

Lemma rne_bounds mrs : shr_m mrs <= rne mrs <= shr_m mrs + 1.
Proof.
  destruct mrs as [m [] []]; unfold rne; cbn; try destruct (Z.even m); lia.
Qed.

Lemma rne_mono x y : val x <= val y -> rne x <= rne y.
Proof.
  destruct x as [m1 r1 s1], y as [m2 r2 s2]. unfold val, rne.
  cbn [shr_m shr_r shr_s loc_of_shr_record round_nearest_even].
  intros Hle.
  destruct (Z.eq_dec m1 m2) as [->|Hne].
  - destruct r1, s1, r2, s2; cbn; destruct (Z.even m2); lia.
  - assert (m1 < m2) by (destruct r1, s1, r2, s2; lia).
    destruct r1, s1, r2, s2; cbn; try destruct (Z.even m1);
      try destruct (Z.even m2); lia.
Qed.

Lemma rne_exact m : rne (Build_shr_record m false false) = m.
Proof. reflexivity. Qed.

(** The mantissa [m] shifted right by [k] and rounded. *)
Definition rz (k : Z) (m : Z) : Z :=
  rne (shrn (Z.to_nat k) (Build_shr_record m false false)).

Lemma rz_bounds k m :
  0 <= k -> 0 <= m -> m / 2 ^ k <= rz k m <= m / 2 ^ k + 1.
Proof.
  intros Hk Hm. unfold rz.
  pose proof (rne_bounds (shrn (Z.to_nat k) (Build_shr_record m false false))) as Hb.
  rewrite shrn_m in Hb by exact Hm. cbn [shr_m] in Hb.
  now rewrite Z2Nat.id in Hb by exact Hk.
Qed.

Lemma rz_mono k m m' : 0 <= m -> m <= m' -> rz k m <= rz k m'.
Proof.
  intros Hm Hle. unfold rz. apply rne_mono, shrn_mono; cbn [shr_m]; try lia.
  unfold val. cbn. lia.
Qed.

Lemma rz_zeros j k m :
  0 <= j -> 0 <= k -> 0 <= m -> rz (j + k) (m * 2 ^ j) = rz k m.
Proof.
  intros Hj Hk Hm. unfold rz.
  rewrite Z2Nat.inj_add, Nat.add_comm, shrn_add by lia.
  rewrite <- (Z2Nat.id j) at 2 by exact Hj.
  now rewrite shrn_zeros.
Qed.

Lemma rz_exact j m : 0 <= j -> 0 <= m -> rz j (m * 2 ^ j) = m.
Proof.
  intros Hj Hm. rewrite <- (Z.add_0_r j) at 1.
  rewrite rz_zeros by lia. reflexivity.
Qed.

(** *** Digits *)

Lemma digits2_log2 p : Zpos (digits2_pos p) = Z.log2 (Zpos p) + 1.
Proof.
  assert (Hsize : forall q, digits2_pos q = Pos.size q).
  { induction q; cbn; congruence. }
  rewrite Hsize. destruct p; cbn; lia.
Qed.

Definition dg (m : Z) : Z := Z.log2 m + 1.

Lemma dg_bounds m : 0 < m -> 2 ^ (dg m - 1) <= m < 2 ^ dg m.
Proof.
  intros Hm. unfold dg. replace (Z.log2 m + 1 - 1) with (Z.log2 m) by lia.
  apply Z.log2_spec, Hm.
Qed.

Lemma dg_pos m : 0 < m -> 1 <= dg m.
Proof. intros Hm. unfold dg. pose proof (Z.log2_nonneg m). lia. Qed.

Lemma dg_mono m m' : 0 < m -> m <= m' -> dg m <= dg m'.
Proof. intros Hm Hle. unfold dg. pose proof (Z.log2_le_mono m m' Hle). lia. Qed.

Lemma dg_shift m j : 0 < m -> 0 <= j -> dg (m * 2 ^ j) = dg m + j.
Proof. intros Hm Hj. unfold dg. rewrite Z.log2_mul_pow2 by lia. lia. Qed.

Lemma dg_lt m d : 0 < m -> m < 2 ^ d -> dg m <= d.
Proof.
  intros Hm Hlt. unfold dg.
  destruct (Z.le_gt_cases 0 d) as [Hd|Hd].
  - pose proof (proj1 (Z.log2_lt_pow2 m d Hm) Hlt). lia.
  - rewrite Z.pow_neg_r in Hlt by lia. lia.
Qed.

Lemma dg_ge m d : 0 < m -> 2 ^ d <= m -> d + 1 <= dg m.
Proof.
  intros Hm Hle. unfold dg.
  destruct (Z.le_gt_cases 0 d) as [Hd|Hd].
  - pose proof (proj1 (Z.log2_le_pow2 m d Hm) Hle). lia.
  - pose proof (Z.log2_nonneg m). lia.
Qed.


(** *** The rounding of [SpecFloat], on binary64 *)

Lemma fexp_eq e : fexp prec emax e = Z.max (e - 53) (-1074).
Proof. reflexivity. Qed.

Lemma shr_spec mrs e k :
  shr mrs e k = if 0 <? k then (shrn (Z.to_nat k) mrs, e + k) else (mrs, e).
Proof.
  destruct k as [|p|p]; cbn [shr Z.ltb Z.compare]; try reflexivity.
  now rewrite iter_pos_nat.
Qed.

Lemma pos_iter_xO p d : Zpos (Pos.iter xO p d) = Zpos p * 2 ^ Zpos d.
Proof.
  induction d as [|d IH] using Pos.peano_ind.
  - cbn. lia.
  - rewrite Pos.iter_succ, Pos2Z.inj_xO, IH, Pos2Z.inj_succ, Z.pow_succ_r by lia.
    lia.
Qed.

(** The end of [binary_round_aux]: the rounded mantissa is renormalised
    and checked for overflow. *)
Definition fin (s : bool) (n e : Z) : spec_float :=
  let '(mrs, e') := shr_fexp prec emax n e loc_Exact in
  match shr_m mrs with
  | Z0 => S754_zero s
  | Zpos m => if e' <=? emax - prec then S754_finite s m e' else S754_infinity s
  | Zneg _ => S754_nan
  end.

Lemma binary_round_aux_fin s mx ex :
  binary_round_aux prec emax s mx ex loc_Exact =
  (if 0 <? fexp prec emax (Zdigits2 mx + ex) - ex
   then fin s (rz (fexp prec emax (Zdigits2 mx + ex) - ex) mx)
            (fexp prec emax (Zdigits2 mx + ex))
   else fin s mx ex).
Proof.
  unfold binary_round_aux, shr_fexp at 1. cbn [shr_record_of_loc].
  rewrite shr_spec.
  destruct (0 <? _) eqn:E; unfold fin, rz, rne; cbn [shr_m loc_of_shr_record
    round_nearest_even].
  - replace (ex + (fexp prec emax (Zdigits2 mx + ex) - ex))
      with (fexp prec emax (Zdigits2 mx + ex)) by lia.
    reflexivity.
  - reflexivity.
Qed.

(** Values are counted in units of [2^-1074], the smallest positive
    float; an infinity counts as a number larger than every float. *)
Definition BIG : Z := 2 ^ 4000.

Definition sg (s : bool) : Z := if s then -1 else 1.

Definition jval (x : spec_float) : Z :=
  match x with
  | S754_zero _ => 0
  | S754_infinity s => sg s * BIG
  | S754_nan => 0
  | S754_finite s m e => sg s * (Zpos m * 2 ^ (e + 1074))
  end.

Definition is_nan (x : spec_float) : bool :=
  match x with S754_nan => true | _ => false end.

(** The value of [fin s n e], up to the sign. *)
Definition gv (n e : Z) : Z :=
  if n =? 0 then 0
  else if e + (if n =? 2 ^ 53 then 1 else 0) <=? 971
       then n * 2 ^ (e + 1074) else BIG.

Lemma jval_fin s n e :
  0 <= n <= 2 ^ 53 -> -1074 <= e ->
  jval (fin s n e) = sg s * gv n e /\ is_nan (fin s n e) = false.
Proof.
  intros Hn He. unfold fin, gv, shr_fexp. cbn [shr_record_of_loc].
  rewrite shr_spec, fexp_eq.
  destruct (Z.eqb_spec n 0) as [->|Hn0].
  - cbn [Zdigits2]. destruct (Z.ltb_spec 0 (Z.max (0 + e - 53) (-1074) - e)); [lia|].
    cbn. split; [lia | reflexivity].
  - destruct n as [|p|p]; try lia. cbn [Zdigits2]. rewrite digits2_log2.
    fold (dg (Zpos p)).
    destruct (Z.eqb_spec (Zpos p) (2 ^ 53)) as [Hp|Hp].
    + rewrite Hp.
      replace (dg (2 ^ 53)) with 54 by reflexivity.
      destruct (Z.ltb_spec 0 (Z.max (54 + e - 53) (-1074) - e)); [|lia].
      replace (Z.max (54 + e - 53) (-1074) - e) with 1 by lia.
      change (Z.to_nat 1) with 1%nat.
      replace (2 ^ 53) with (2 ^ 52 * 2 ^ Z.of_nat 1) by reflexivity.
      rewrite shrn_zeros by (apply Z.pow_nonneg; lia).
      cbn [shr_m]. change (2 ^ 52) with (Zpos (2 ^ 52)%positive).
      change (emax - prec) with 971.
      destruct (Z.leb_spec (e + 1) 971); cbn [jval is_nan].
      * split; [|reflexivity]. f_equal.
        replace (e + 1 + 1074) with ((e + 1074) + 1) by lia.
        rewrite Z.pow_add_r by lia.
        change (2 ^ 52 * 2 ^ Z.of_nat 1) with (Zpos (2 ^ 52)%positive * 2 ^ 1).
        lia.
      * split; reflexivity.
    + assert (Hd : dg (Zpos p) <= 53).
      { apply dg_lt; lia. }
      destruct (Z.ltb_spec 0 (Z.max (dg (Zpos p) + e - 53) (-1074) - e)); [lia|].
      cbn [shr_m]. change (emax - prec) with 971. rewrite Z.add_0_r.
      destruct (Z.leb_spec e 971); cbn [jval is_nan]; split; reflexivity.
Qed.

(** [binary_round] only looks at the value it is given: with the mantissa
    brought to the exponent [-2148], at which every exact sum and product
    of two floats is an integer, it is a function of that integer. *)
Definition e0 : Z := -2148.

Definition Gpos (M : Z) : Z :=
  let K := Z.max (dg M - 53) 1074 in
  gv (rz K M) (e0 + K).

Lemma rz_small M K :
  0 < M -> dg M - 53 <= K -> 0 <= K -> 0 <= rz K M <= 2 ^ 53.
Proof.
  intros HM HK HK0.
  pose proof (rz_bounds K M HK0 (Z.lt_le_incl _ _ HM)) as [Hlo Hhi].
  assert (Hq : 0 <= M / 2 ^ K) by (apply Z.div_pos; [lia | apply Z.pow_pos_nonneg; lia]).
  split; [lia|].
  assert (M / 2 ^ K < 2 ^ 53); [|lia].
  apply Z.div_lt_upper_bound; [apply Z.pow_pos_nonneg; lia|].
  rewrite <- Z.pow_add_r by lia.
  pose proof (dg_bounds M HM) as [_ Hlt].
  eapply Z.lt_le_trans; [exact Hlt|].
  apply Z.pow_le_mono_r; lia.
Qed.

Lemma round_pos s p E :
  e0 <= E ->
  let M := Zpos p * 2 ^ (E - e0) in
  let K := Z.max (dg M - 53) 1074 in
  binary_round prec emax s p E = fin s (rz K M) (e0 + K).
Proof.
  intros HE M K. unfold e0 in *.
  assert (HM : dg M = dg (Zpos p) + (E + 2148)).
  { unfold M. rewrite dg_shift by lia. lia. }
  assert (HK : K = Z.max (dg (Zpos p) + E - 53) (-1074) + 2148) by (unfold K; lia).
  unfold binary_round, shl_align. rewrite fexp_eq, digits2_log2.
  fold (dg (Zpos p)).
  set (T := Z.max (dg (Zpos p) + E - 53) (-1074)) in *.
  replace (-2148 + K) with T by lia.
  destruct (T - E) as [|k|k] eqn:Hk.
  - (* the mantissa is kept *)
    rewrite binary_round_aux_fin. cbn [Zdigits2]. rewrite fexp_eq, digits2_log2.
    fold (dg (Zpos p)). fold T.
    destruct (Z.ltb_spec 0 (T - E)); [lia|].
    replace T with E by lia. f_equal.
    unfold M. replace K with (E - -2148) by lia.
    symmetry. apply rz_exact; lia.
  - (* the mantissa is shifted right and rounded *)
    rewrite binary_round_aux_fin. cbn [Zdigits2]. rewrite fexp_eq, digits2_log2.
    fold (dg (Zpos p)). fold T.
    destruct (Z.ltb_spec 0 (T - E)); [|lia].
    f_equal. unfold M.
    replace K with ((E - -2148) + (T - E)) by lia.
    symmetry. apply rz_zeros; lia.
  - (* the mantissa is shifted left: the value is a float already *)
    rewrite binary_round_aux_fin. cbn [Zdigits2].
    rewrite fexp_eq, digits2_log2, pos_iter_xO.
    assert (Hshift : Zpos k = E - T) by lia.
    fold (dg (Zpos p * 2 ^ Zpos k)).
    rewrite dg_shift by lia. rewrite Hshift.
    replace (Z.max (dg (Zpos p) + (E - T) + T - 53) (-1074)) with T by lia.
    destruct (Z.ltb_spec 0 (T - T)); [lia|].
    f_equal. unfold M.
    replace (E - -2148) with ((E - T) + K) by lia.
    rewrite Z.pow_add_r, Z.mul_assoc by lia.
    symmetry. apply rz_exact; [lia|].
    apply Z.mul_nonneg_nonneg; [lia | apply Z.pow_nonneg; lia].
Qed.

Lemma jval_round s p E :
  e0 <= E ->
  jval (binary_round prec emax s p E) = sg s * Gpos (Zpos p * 2 ^ (E - e0))
  /\ is_nan (binary_round prec emax s p E) = false.
Proof.
  intros HE. rewrite round_pos by exact HE. cbn zeta. unfold Gpos.
  set (M := Zpos p * 2 ^ (E - e0)).
  assert (HM : 0 < M) by (apply Z.mul_pos_pos; [lia | apply Z.pow_pos_nonneg; lia]).
  apply jval_fin; [apply rz_small; lia | unfold e0; lia].
Qed.

(** The rounded value of an integer number of units of [2^-2148]. *)
Definition G (M : Z) : Z :=
  if M =? 0 then 0 else if 0 <? M then Gpos M else - Gpos (- M).

Lemma jval_normalize S E :
  e0 <= E ->
  jval (binary_normalize prec emax S E false) = G (S * 2 ^ (E - e0))
  /\ is_nan (binary_normalize prec emax S E false) = false.
Proof.
  intros HE. unfold G.
  assert (Hpow : 0 < 2 ^ (E - e0)) by (apply Z.pow_pos_nonneg; lia).
  destruct S as [|p|p]; cbn [binary_normalize].
  - cbn. auto.
  - destruct (jval_round false p E HE) as [-> ->].
    destruct (Z.eqb_spec (Zpos p * 2 ^ (E - e0)) 0); [lia|].
    destruct (Z.ltb_spec 0 (Zpos p * 2 ^ (E - e0))); [|lia].
    cbn [sg]. split; [lia | reflexivity].
  - destruct (jval_round true p E HE) as [-> ->].
    destruct (Z.eqb_spec (Zneg p * 2 ^ (E - e0)) 0); [lia|].
    destruct (Z.ltb_spec 0 (Zneg p * 2 ^ (E - e0))); [lia|].
    replace (- (Zneg p * 2 ^ (E - e0))) with (Zpos p * 2 ^ (E - e0)) by lia.
    cbn [sg]. split; [lia | reflexivity].
Qed.


(** *** Rounding is monotone *)

Lemma BIG_large : 2 ^ 53 * 2 ^ 2045 < BIG.
Proof. unfold BIG. rewrite <- Z.pow_add_r by lia. apply Z.pow_lt_mono_r; lia. Qed.

Lemma gv_range n e :
  0 <= n <= 2 ^ 53 -> -1074 <= e -> 0 <= gv n e <= BIG.
Proof.
  intros Hn He. unfold gv. pose proof BIG_large as HB.
  assert (0 < 2 ^ 53 * 2 ^ 2045) by (apply Z.mul_pos_pos; apply Z.pow_pos_nonneg; lia).
  destruct (Z.eqb_spec n 0); [lia|].
  destruct (Z.leb_spec (e + (if n =? 2 ^ 53 then 1 else 0)) 971) as [Hov|Hov]; [|lia].
  assert (He' : e <= 971) by (destruct (n =? 2 ^ 53); lia).
  assert (Hpow : 0 < 2 ^ (e + 1074) <= 2 ^ 2045).
  { split; [apply Z.pow_pos_nonneg; lia | apply Z.pow_le_mono_r; lia]. }
  split; [apply Z.mul_nonneg_nonneg; lia|].
  apply Z.lt_le_incl. eapply Z.le_lt_trans; [|exact HB].
  apply Z.mul_le_mono_nonneg; lia.
Qed.

Lemma Gpos_range M : 0 < M -> 0 <= Gpos M <= BIG.
Proof.
  intros HM. unfold Gpos. apply gv_range; [apply rz_small; lia | unfold e0; lia].
Qed.

Lemma Gpos_mono M M' : 0 < M -> M <= M' -> Gpos M <= Gpos M'.
Proof.
  intros HM Hle. assert (HM' : 0 < M') by lia.
  pose proof (Gpos_range M HM) as HG. pose proof (Gpos_range M' HM') as HG'.
  unfold Gpos in *.
  pose proof (dg_mono M M' HM Hle) as Hdg.
  set (K := Z.max (dg M - 53) 1074) in *.
  set (K' := Z.max (dg M' - 53) 1074) in *.
  assert (HK : K <= K') by (unfold K, K'; lia).
  pose proof (rz_small M K HM ltac:(unfold K; lia) ltac:(unfold K; lia)) as Hn.
  pose proof (rz_small M' K' HM' ltac:(unfold K'; lia) ltac:(unfold K'; lia)) as Hn'.
  assert (Hsame : K = K' -> rz K M <= rz K' M').
  { intros <-. apply rz_mono; lia. }
  assert (Hmore : K < K' -> 2 ^ 52 <= rz K' M').
  { intros Hlt.
    assert (HK' : K' = dg M' - 53) by (unfold K, K' in *; lia).
    pose proof (rz_bounds K' M' ltac:(lia) ltac:(lia)) as [Hlo _].
    eapply Z.le_trans; [|exact Hlo].
    apply Z.div_le_lower_bound; [apply Z.pow_pos_nonneg; lia|].
    rewrite <- Z.pow_add_r by lia.
    pose proof (dg_bounds M' HM') as [Hlow _].
    eapply Z.le_trans; [|exact Hlow].
    apply Z.pow_le_mono_r; lia. }
  set (n := rz K M) in *. set (n' := rz K' M') in *.
  unfold gv in *. unfold e0 in *.
  destruct (Z.eqb_spec n 0) as [Hz|Hz]; [lia|].
  assert (Hpos' : n' <> 0).
  { destruct (Z.eq_dec K K') as [E|E]; [specialize (Hsame E) | specialize (Hmore ltac:(lia))];
      assert (0 < 2 ^ 52) by (apply Z.pow_pos_nonneg; lia); lia. }
  destruct (Z.eqb_spec n' 0) as [|_]; [contradiction|].
  set (c := if n =? 2 ^ 53 then 1 else 0) in *.
  set (c' := if n' =? 2 ^ 53 then 1 else 0) in *.
  assert (Hc : K + c <= K' + c').
  { unfold c, c'.
    destruct (Z.eq_dec K K') as [E|E].
    - specialize (Hsame E).
      destruct (Z.eqb_spec n (2 ^ 53)), (Z.eqb_spec n' (2 ^ 53)); lia.
    - destruct (Z.eqb_spec n (2 ^ 53)), (Z.eqb_spec n' (2 ^ 53)); lia. }
  destruct (Z.leb_spec (-2148 + K' + c') 971) as [Hov'|Hov'].
  - destruct (Z.leb_spec (-2148 + K + c) 971) as [Hov|Hov]; [|lia].
    replace (-2148 + K + 1074) with (K - 1074) by lia.
    replace (-2148 + K' + 1074) with (K' - 1074) by lia.
    assert (K >= 1074) by (unfold K; lia).
    assert (Ha : 0 < 2 ^ (K - 1074)) by (apply Z.pow_pos_nonneg; lia).
    destruct (Z.eq_dec K K') as [E|E].
    + rewrite <- E. apply Z.mul_le_mono_nonneg_r; [lia | now apply Hsame].
    + specialize (Hmore ltac:(lia)).
      assert (Ha' : 2 * 2 ^ (K - 1074) <= 2 ^ (K' - 1074)).
      { rewrite <- Z.pow_succ_r by lia. apply Z.pow_le_mono_r; lia. }
      assert (H53 : n <= 2 * 2 ^ 52) by (change (2 * 2 ^ 52) with (2 ^ 53); lia).
      assert (H52 : 0 < 2 ^ 52) by (apply Z.pow_pos_nonneg; lia).
      clear - Ha Ha' H53 H52 Hmore Hn.
      destruct Hn as [Hn0 _].
      generalize dependent (2 ^ (K - 1074)). generalize dependent (2 ^ (K' - 1074)).
      generalize dependent (2 ^ 52). intros P52 HP1 HP2 HP3 a' a Ha Ha'.
      nia.
  - destruct (Z.leb_spec (-2148 + K + c) 971) as [Hov|Hov]; [|lia].
    lia.
Qed.

Lemma G_mono M M' : M <= M' -> G M <= G M'.
Proof.
  intros Hle. unfold G.
  destruct (Z.eqb_spec M 0), (Z.eqb_spec M' 0); try lia;
    destruct (Z.ltb_spec 0 M), (Z.ltb_spec 0 M'); try lia.
  - pose proof (Gpos_range M'). lia.
  - pose proof (Gpos_range (- M)). lia.
  - now apply Gpos_mono.
  - pose proof (Gpos_range (- M)). pose proof (Gpos_range M'). lia.
  - pose proof (Gpos_mono (- M') (- M)). lia.
Qed.

(** Above the largest float, every value is rounded to infinity. *)
Lemma Gpos_overflow M : 2 ^ 3172 <= M -> Gpos M = BIG.
Proof.
  intros HM.
  assert (H0 : 0 < M) by (assert (0 < 2 ^ 3172) by (apply Z.pow_pos_nonneg; lia); lia).
  pose proof (dg_ge M 3172 H0 HM) as Hd.
  unfold Gpos, gv, e0.
  set (K := Z.max (dg M - 53) 1074).
  assert (HK : K = dg M - 53) by (unfold K; lia).
  pose proof (rz_bounds K M ltac:(lia) ltac:(lia)) as [Hlo _].
  assert (Hq : 2 ^ 52 <= M / 2 ^ K).
  { apply Z.div_le_lower_bound; [apply Z.pow_pos_nonneg; lia|].
    rewrite <- Z.pow_add_r by lia.
    pose proof (dg_bounds M H0) as [Hlow _].
    eapply Z.le_trans; [|exact Hlow]. apply Z.pow_le_mono_r; lia. }
  assert (0 < 2 ^ 52) by (apply Z.pow_pos_nonneg; lia).
  destruct (Z.eqb_spec (rz K M) 0); [lia|].
  destruct (Z.leb_spec (-2148 + K + (if rz K M =? 2 ^ 53 then 1 else 0)) 971);
    [destruct (rz K M =? 2 ^ 53); lia | reflexivity].
Qed.

Lemma G_overflow M : 2 ^ 3172 <= M -> G M = BIG /\ G (- M) = - BIG.
Proof.
  intros HM.
  assert (H0 : 0 < M) by (assert (0 < 2 ^ 3172) by (apply Z.pow_pos_nonneg; lia); lia).
  unfold G.
  destruct (Z.eqb_spec M 0), (Z.eqb_spec (- M) 0); try lia.
  destruct (Z.ltb_spec 0 M), (Z.ltb_spec 0 (- M)); try lia.
  rewrite Z.opp_involutive, Gpos_overflow by exact HM. auto.
Qed.

Lemma G_0 : G 0 = 0.
Proof. reflexivity. Qed.

Lemma G_opp M : G (- M) = - G M.
Proof.
  unfold G.
  destruct (Z.eqb_spec M 0), (Z.eqb_spec (- M) 0); try lia.
  destruct (Z.ltb_spec 0 M), (Z.ltb_spec 0 (- M)); try lia.
  now rewrite Z.opp_involutive.
Qed.


(** *** Floats of the format *)

Definition valid (x : spec_float) : Prop := valid_binary x = true.

Lemma valid_finite s m e :
  valid (S754_finite s m e) ->
  e = Z.max (dg (Zpos m) + e - 53) (-1074) /\ e <= 971.
Proof.
  unfold valid. cbn [SpecFloat.valid_binary]. unfold bounded, canonical_mantissa.
  rewrite fexp_eq, digits2_log2. fold (dg (Zpos m)).
  intros [Hc He]%andb_prop. apply Z.eqb_eq in Hc. apply Z.leb_le in He.
  change (emax - prec) with 971 in He. split; [lia | exact He].
Qed.

Lemma valid_mantissa s m e :
  valid (S754_finite s m e) -> Zpos m < 2 ^ 53 /\ -1074 <= e <= 971.
Proof.
  intros [Hc He]%valid_finite.
  assert (Hd : dg (Zpos m) <= 53) by lia.
  pose proof (dg_bounds (Zpos m) ltac:(lia)) as [_ Hlt].
  split; [|lia]. eapply Z.lt_le_trans; [exact Hlt|].
  apply Z.pow_le_mono_r; lia.
Qed.

(** The largest value of a float, in units of [2^-1074]. *)
Definition TOP : Z := 2 ^ 2098.

Lemma TOP_BIG : 0 < TOP /\ 2 * TOP <= BIG /\ 2 ^ 3172 <= (BIG - TOP) * 2 ^ 1074.
Proof.
  unfold TOP, BIG.
  assert (H1 : 0 < 2 ^ 2098) by (apply Z.pow_pos_nonneg; lia).
  assert (H2 : 2 * 2 ^ 2098 <= 2 ^ 4000).
  { rewrite <- Z.pow_succ_r by lia. apply Z.pow_le_mono_r; lia. }
  split; [exact H1|]. split; [exact H2|].
  replace (2 ^ 3172) with (2 ^ 2098 * 2 ^ 1074) by (rewrite <- Z.pow_add_r by lia; reflexivity).
  apply Z.mul_le_mono_nonneg_r; [apply Z.pow_nonneg; lia | lia].
Qed.

Lemma jval_bound x :
  valid x -> match x with S754_infinity _ => True | _ => - TOP < jval x < TOP end.
Proof.
  pose proof TOP_BIG as (HT & _).
  destruct x as [s|s| |s m e]; cbn [jval]; intros Hv;
    [lia | exact I | lia |].
  destruct (valid_mantissa s m e Hv) as [Hm He]. clear Hv.
  assert (Hp : 0 < 2 ^ (e + 1074) <= 2 ^ 2045).
  { split; [apply Z.pow_pos_nonneg; lia | apply Z.pow_le_mono_r; lia]. }
  assert (Hv : Zpos m * 2 ^ (e + 1074) < TOP).
  { unfold TOP. replace 2098 with (53 + 2045) by lia.
    rewrite (Z.pow_add_r 2 53 2045) by lia.
    apply Z.lt_le_trans with (2 ^ 53 * 2 ^ (e + 1074));
      [apply Z.mul_lt_mono_pos_r; lia | apply Z.mul_le_mono_nonneg_l; lia]. }
  assert (0 < Zpos m * 2 ^ (e + 1074)) by (apply Z.mul_pos_pos; lia).
  destruct s; cbn [sg]; lia.
Qed.

Lemma Gpos_repr s m e :
  valid (S754_finite s m e) ->
  Gpos (Zpos m * 2 ^ (e - e0)) = Zpos m * 2 ^ (e + 1074).
Proof.
  intros Hv. destruct (valid_finite s m e Hv) as [Hc He].
  destruct (valid_mantissa s m e Hv) as [Hm He'].
  unfold Gpos, e0 in *.
  rewrite dg_shift by lia.
  replace (Z.max (dg (Zpos m) + (e - -2148) - 53) 1074) with (e - -2148) by lia.
  rewrite rz_exact by lia.
  replace (-2148 + (e - -2148)) with e by lia.
  unfold gv.
  destruct (Z.eqb_spec (Zpos m) 0); [lia|].
  destruct (Z.eqb_spec (Zpos m) (2 ^ 53)); [lia|].
  rewrite Z.add_0_r. destruct (Z.leb_spec e 971); [reflexivity | lia].
Qed.

Lemma G_pos M : 0 < M -> G M = Gpos M.
Proof.
  intros HM. unfold G.
  destruct (Z.eqb_spec M 0); [lia|]. destruct (Z.ltb_spec 0 M); [reflexivity | lia].
Qed.

Lemma G_sg s M : 0 < M -> G (sg s * M) = sg s * Gpos M.
Proof.
  intros HM. destruct s; cbn [sg].
  - replace (-1 * M) with (- M) by lia. rewrite G_opp, G_pos by exact HM. lia.
  - replace (1 * M) with M by lia. rewrite G_pos by exact HM. lia.
Qed.

(** A float is its own rounding. *)
Lemma G_repr x :
  valid x -> is_nan x = false -> G (jval x * 2 ^ 1074) = jval x.
Proof.
  intros Hv Hnan. pose proof TOP_BIG as (HT & HB & HO).
  destruct x as [s|s| |s m e]; cbn [jval]; try discriminate.
  - reflexivity.
  - assert (Hbig : 2 ^ 3172 <= BIG * 2 ^ 1074).
    { eapply Z.le_trans; [exact HO|].
      apply Z.mul_le_mono_nonneg_r; [apply Z.pow_nonneg; lia | lia]. }
    destruct (G_overflow _ Hbig) as [Hp Hn].
    destruct s; cbn [sg].
    + replace (-1 * BIG * 2 ^ 1074) with (- (BIG * 2 ^ 1074)) by lia. lia.
    + replace (1 * BIG * 2 ^ 1074) with (BIG * 2 ^ 1074) by lia. lia.
  - destruct (valid_mantissa s m e Hv) as [Hm He].
    replace (sg s * (Zpos m * 2 ^ (e + 1074)) * 2 ^ 1074)
      with (sg s * (Zpos m * 2 ^ (e - e0))).
    + rewrite G_sg by (apply Z.mul_pos_pos; [lia | apply Z.pow_pos_nonneg; unfold e0; lia]).
      now rewrite (Gpos_repr s m e Hv).
    + unfold e0. replace (e - -2148) with ((e + 1074) + 1074) by lia.
      rewrite Z.pow_add_r by lia. lia.
Qed.

(** *** Comparison *)

Lemma compare_finite m1 e1 m2 e2 :
  valid (S754_finite false m1 e1) -> valid (S754_finite false m2 e2) ->
  (Zpos m1 * 2 ^ (e1 + 1074) ?= Zpos m2 * 2 ^ (e2 + 1074))
  = match e1 ?= e2 with
    | Lt => Lt
    | Gt => Gt
    | Eq => Pos.compare_cont Eq m1 m2
    end.
Proof.
  intros H1 H2.
  destruct (valid_finite _ _ _ H1) as [Hc1 _], (valid_finite _ _ _ H2) as [Hc2 _].
  destruct (valid_mantissa _ _ _ H1) as [Hm1 He1].
  destruct (valid_mantissa _ _ _ H2) as [Hm2 He2].
  assert (Hstep : forall ma ea mb eb,
            ea = Z.max (dg (Zpos ma) + ea - 53) (-1074) ->
            eb = Z.max (dg (Zpos mb) + eb - 53) (-1074) ->
            Zpos ma < 2 ^ 53 -> -1074 <= ea -> ea < eb ->
            Zpos ma * 2 ^ (ea + 1074) < Zpos mb * 2 ^ (eb + 1074)).
  { intros ma ea mb eb Ha Hb Hma Hea Hlt.
    assert (Hd : dg (Zpos mb) = 53) by lia.
    pose proof (dg_bounds (Zpos mb) ltac:(lia)) as [Hlow _].
    rewrite Hd in Hlow. change (2 ^ (53 - 1)) with (2 ^ 52) in Hlow.
    assert (Hp : 0 < 2 ^ (ea + 1074)) by (apply Z.pow_pos_nonneg; lia).
    assert (Hq : 2 * 2 ^ (ea + 1074) <= 2 ^ (eb + 1074)).
    { rewrite <- Z.pow_succ_r by lia. apply Z.pow_le_mono_r; lia. }
    change (2 ^ 53) with (2 * 2 ^ 52) in Hma.
    assert (H52 : 0 < 2 ^ 52) by (apply Z.pow_pos_nonneg; lia).
    clear - Hlow Hp Hq Hma H52.
    generalize dependent (2 ^ (ea + 1074)). generalize dependent (2 ^ (eb + 1074)).
    generalize dependent (2 ^ 52). intros. nia. }
  destruct (Z.compare_spec e1 e2) as [->|Hlt|Hgt].
  - change (Pos.compare_cont Eq m1 m2) with (Pos.compare m1 m2).
    rewrite Pos2Z.inj_compare.
    assert (Hp : 0 < 2 ^ (e2 + 1074)) by (apply Z.pow_pos_nonneg; lia).
    destruct (Z.compare_spec (Zpos m1) (Zpos m2)) as [E|E|E].
    + rewrite E. apply Z.compare_refl.
    + apply Z.compare_lt_iff. apply Z.mul_lt_mono_pos_r; lia.
    + apply Z.compare_gt_iff. apply Z.mul_lt_mono_pos_r; lia.
  - apply Z.compare_lt_iff. apply Hstep; lia.
  - apply Z.compare_gt_iff. apply Hstep; lia.
Qed.

Lemma valid_sign s s' m e : valid (S754_finite s m e) -> valid (S754_finite s' m e).
Proof. exact (fun H => H). Qed.

Lemma SFcompare_jval x y :
  valid x -> valid y -> is_nan x = false -> is_nan y = false ->
  SFcompare x y = Some (jval x ?= jval y).
Proof.
  intros Hx Hy Nx Ny. pose proof TOP_BIG as (HT & HB & _).
  pose proof (jval_bound x Hx) as Bx. pose proof (jval_bound y Hy) as By.
  destruct x as [sx|sx| |sx mx ex], y as [sy|sy| |sy my ey];
    try discriminate; cbn [SFcompare jval] in *.
  - reflexivity.
  - f_equal. symmetry. destruct sy; cbn [sg];
      [apply Z.compare_gt_iff | apply Z.compare_lt_iff]; lia.
  - f_equal. symmetry.
    assert (0 < Zpos my * 2 ^ (ey + 1074))
      by (apply Z.mul_pos_pos; [lia | apply Z.pow_pos_nonneg;
          destruct (valid_mantissa _ _ _ Hy); lia]).
    destruct sy; cbn [sg];
      [apply Z.compare_gt_iff | apply Z.compare_lt_iff]; lia.
  - f_equal. symmetry. destruct sx; cbn [sg];
      [apply Z.compare_lt_iff | apply Z.compare_gt_iff]; lia.
  - f_equal. symmetry. destruct sx, sy; cbn [sg];
      [apply Z.compare_eq_iff | apply Z.compare_lt_iff
       | apply Z.compare_gt_iff | apply Z.compare_eq_iff]; lia.
  - f_equal. symmetry. destruct sx; cbn [sg];
      [apply Z.compare_lt_iff | apply Z.compare_gt_iff]; lia.
  - f_equal. symmetry.
    assert (0 < Zpos mx * 2 ^ (ex + 1074))
      by (apply Z.mul_pos_pos; [lia | apply Z.pow_pos_nonneg;
          destruct (valid_mantissa _ _ _ Hx); lia]).
    destruct sx; cbn [sg];
      [apply Z.compare_lt_iff | apply Z.compare_gt_iff]; lia.
  - f_equal. symmetry. destruct sy; cbn [sg];
      [apply Z.compare_gt_iff | apply Z.compare_lt_iff]; lia.
  - f_equal.
    assert (Px : 0 < Zpos mx * 2 ^ (ex + 1074))
      by (apply Z.mul_pos_pos; [lia | apply Z.pow_pos_nonneg;
          destruct (valid_mantissa _ _ _ Hx); lia]).
    assert (Py : 0 < Zpos my * 2 ^ (ey + 1074))
      by (apply Z.mul_pos_pos; [lia | apply Z.pow_pos_nonneg;
          destruct (valid_mantissa _ _ _ Hy); lia]).
    pose proof (compare_finite mx ex my ey
                  (valid_sign _ false _ _ Hx) (valid_sign _ false _ _ Hy)) as Hc.
    pose proof (compare_finite my ey mx ex
                  (valid_sign _ false _ _ Hy) (valid_sign _ false _ _ Hx)) as Hc'.
    destruct sx, sy; cbn [sg].
    + (* both negative *)
      replace (-1 * (Zpos mx * 2 ^ (ex + 1074)) ?= -1 * (Zpos my * 2 ^ (ey + 1074)))
        with (Zpos my * 2 ^ (ey + 1074) ?= Zpos mx * 2 ^ (ex + 1074))
        by (destruct (Z.compare_spec (Zpos my * 2 ^ (ey + 1074)) (Zpos mx * 2 ^ (ex + 1074))),
              (Z.compare_spec (-1 * (Zpos mx * 2 ^ (ex + 1074)))
                              (-1 * (Zpos my * 2 ^ (ey + 1074))));
            try reflexivity; lia).
      rewrite Hc'. rewrite (Z.compare_antisym ex ey).
      destruct (ex ?= ey); cbn [CompOpp]; try reflexivity.
      change (Pos.compare_cont Eq ?a ?b) with (Pos.compare a b).
      now rewrite (Pos.compare_antisym mx my).
    + symmetry. apply Z.compare_lt_iff. lia.
    + symmetry. apply Z.compare_gt_iff. lia.
    + rewrite !Z.mul_1_l. symmetry. exact Hc.
Qed.

Lemma SFltb_false x y :
  valid x -> valid y -> jval y <= jval x -> SFltb x y = false.
Proof.
  intros Hx Hy Hle. unfold SFltb.
  destruct (is_nan x) eqn:Nx; [destruct x; try discriminate; reflexivity|].
  destruct (is_nan y) eqn:Ny;
    [destruct y; try discriminate; destruct x; reflexivity|].
  rewrite SFcompare_jval by assumption.
  destruct (Z.compare_spec (jval x) (jval y)); try reflexivity. lia.
Qed.

Lemma SFleb_jval x y :
  valid x -> valid y -> SFleb x y = true -> jval x <= jval y.
Proof.
  intros Hx Hy. unfold SFleb.
  destruct (is_nan x) eqn:Nx; [destruct x; try discriminate; cbn; discriminate|].
  destruct (is_nan y) eqn:Ny;
    [destruct y; try discriminate; destruct x; cbn; discriminate|].
  rewrite SFcompare_jval by assumption.
  destruct (Z.compare_spec (jval x) (jval y)); try discriminate; lia.
Qed.

(** *** The operations *)

Lemma sg_xorb a b : sg (xorb a b) = sg a * sg b.
Proof. destruct a, b; reflexivity. Qed.

Lemma sg_negb a : sg (negb a) = - sg a.
Proof. destruct a; reflexivity. Qed.

Lemma cond_Zopp_sg s z : cond_Zopp s z = sg s * z.
Proof. destruct s; cbn [cond_Zopp sg]; lia. Qed.

Lemma shl_align_val mx ex ez :
  ez <= ex -> Zpos (shl_align mx ex ez).1 = Zpos mx * 2 ^ (ex - ez).
Proof.
  intros Hle. unfold shl_align.
  destruct (ez - ex) as [|d|d] eqn:E; cbn [fst].
  - replace (ex - ez) with 0 by lia. cbn. lia.
  - lia.
  - rewrite pos_iter_xO. f_equal. f_equal. lia.
Qed.

Lemma G_big s M : 2 ^ 3172 <= M -> G (sg s * M) = sg s * BIG.
Proof.
  intros HM.
  assert (0 < M) by (assert (0 < 2 ^ 3172) by (apply Z.pow_pos_nonneg; lia); lia).
  rewrite G_sg by assumption. now rewrite Gpos_overflow.
Qed.

(** An infinity absorbs what is added to it, unless it is the opposite
    infinity. *)
Lemma G_inf s v :
  - TOP < sg s * v -> G ((sg s * BIG + v) * 2 ^ 1074) = sg s * BIG.
Proof.
  intros Hv. pose proof TOP_BIG as (HT & HB & HO).
  replace ((sg s * BIG + v) * 2 ^ 1074)
    with (sg s * ((BIG + sg s * v) * 2 ^ 1074)) by (destruct s; cbn [sg]; lia).
  apply G_big. eapply Z.le_trans; [exact HO|].
  apply Z.mul_le_mono_nonneg_r; [apply Z.pow_nonneg; lia | lia].
Qed.

Lemma jval_add x y :
  valid x -> valid y -> is_nan (SF64add x y) = false ->
  is_nan x = false /\ is_nan y = false
  /\ jval (SF64add x y) = G ((jval x + jval y) * 2 ^ 1074).
Proof.
  intros Hx Hy Hn. pose proof TOP_BIG as (HT & HB & HO).
  pose proof (jval_bound x Hx) as Bx. pose proof (jval_bound y Hy) as By.
  destruct x as [sx|sx| |sx mx ex], y as [sy|sy| |sy my ey];
    try discriminate Hn; (split; [reflexivity|]); (split; [reflexivity|]).
  - destruct sx, sy; reflexivity.
  - cbn [SF64add SFadd]. symmetry. apply (G_repr (S754_infinity sy) Hy eq_refl).
  - cbn [SF64add SFadd]. symmetry. apply (G_repr (S754_finite sy my ey) Hy eq_refl).
  - cbn [SF64add SFadd jval]. symmetry. apply G_inf. lia.
  - destruct sx, sy; try discriminate Hn; cbn [SF64add SFadd jval];
      symmetry; apply G_inf; cbn [sg]; lia.
  - cbn [SF64add SFadd jval] in *. symmetry. apply G_inf. destruct sx; cbn [sg]; lia.
  - cbn [SF64add SFadd]. rewrite Z.add_0_r. symmetry.
    apply (G_repr (S754_finite sx mx ex) Hx eq_refl).
  - cbn [SF64add SFadd jval] in *. rewrite Z.add_comm. symmetry. apply G_inf.
    destruct sy; cbn [sg]; lia.
  - destruct (valid_mantissa _ _ _ Hx) as [_ Hex].
    destruct (valid_mantissa _ _ _ Hy) as [_ Hey].
    cbn [SF64add SFadd] in *. cbn zeta.
    destruct (jval_normalize
                (cond_Zopp sx (Zpos (shl_align mx ex (Z.min ex ey)).1)
                 + cond_Zopp sy (Zpos (shl_align my ey (Z.min ex ey)).1))
                (Z.min ex ey) ltac:(unfold e0; lia)) as [-> _].
    f_equal. rewrite !cond_Zopp_sg, !shl_align_val by lia. cbn [jval].
    unfold e0.
    replace (ex + 1074) with ((ex - Z.min ex ey) + (Z.min ex ey + 1074)) by lia.
    replace (ey + 1074) with ((ey - Z.min ex ey) + (Z.min ex ey + 1074)) by lia.
    replace (Z.min ex ey - -2148) with ((Z.min ex ey + 1074) + 1074) by lia.
    rewrite (Z.pow_add_r 2 (ex - Z.min ex ey)), (Z.pow_add_r 2 (ey - Z.min ex ey)),
      (Z.pow_add_r 2 (Z.min ex ey + 1074) 1074) by lia.
    ring.
Qed.

Lemma valid_opp x : valid x -> valid (SFopp x).
Proof. destruct x; exact (fun H => H). Qed.

Lemma jval_opp x : jval (SFopp x) = - jval x /\ is_nan (SFopp x) = is_nan x.
Proof.
  destruct x as [s|s| |s m e]; cbn [SFopp jval is_nan]; rewrite ?sg_negb;
    split; try reflexivity; lia.
Qed.

Lemma SFsub_add x y : is_nan (SF64sub x y) = is_nan (SF64add x (SFopp y))
                      /\ jval (SF64sub x y) = jval (SF64add x (SFopp y)).
Proof.
  destruct x as [sx|sx| |sx mx ex], y as [sy|sy| |sy my ey];
    try (split; reflexivity);
    destruct sx, sy; split; reflexivity.
Qed.

Lemma jval_sub x y :
  valid x -> valid y -> is_nan (SF64sub x y) = false ->
  is_nan x = false /\ is_nan y = false
  /\ jval (SF64sub x y) = G ((jval x - jval y) * 2 ^ 1074).
Proof.
  intros Hx Hy Hn. destruct (SFsub_add x y) as [En Ev]. rewrite En in Hn.
  destruct (jval_add x (SFopp y) Hx (valid_opp y Hy) Hn) as (Nx & Ny & E).
  destruct (jval_opp y) as [Eo Eno]. rewrite Eno in Ny.
  split; [exact Nx|]. split; [exact Ny|].
  rewrite Ev, E, Eo. f_equal; lia.
Qed.

Lemma dg_mul a b : 0 < a -> 0 < b -> dg a + dg b - 1 <= dg (a * b).
Proof.
  intros Ha Hb.
  pose proof (dg_bounds a Ha) as [La _]. pose proof (dg_bounds b Hb) as [Lb _].
  pose proof (dg_pos a Ha). pose proof (dg_pos b Hb).
  replace (dg a + dg b - 1) with ((dg a - 1) + (dg b - 1) + 1) by lia.
  apply dg_ge; [apply Z.mul_pos_pos; lia|].
  rewrite Z.pow_add_r by lia.
  apply Z.mul_le_mono_nonneg; try (apply Z.pow_nonneg; lia); assumption.
Qed.

(** The exponent of a product of two floats is not above the one that
    rounding gives it, so [SFmul] rounds as [binary_round] does. *)
Lemma round_aux_round s p E :
  E <= fexp prec emax (Zpos (digits2_pos p) + E) ->
  binary_round_aux prec emax s (Zpos p) E loc_Exact = binary_round prec emax s p E.
Proof.
  intros HE. unfold binary_round, shl_align.
  destruct (fexp prec emax (Zpos (digits2_pos p) + E) - E) eqn:Hk; try reflexivity.
  lia.
Qed.

Lemma jval_mul x y :
  valid x -> valid y -> is_nan (SF64mul x y) = false ->
  is_nan x = false /\ is_nan y = false
  /\ jval (SF64mul x y) = G (jval x * jval y).
Proof.
  intros Hx Hy Hn. pose proof TOP_BIG as (HT & HB & HO).
  assert (Hbig : 2 ^ 3172 <= BIG).
  { unfold BIG. apply Z.pow_le_mono_r; lia. }
  assert (HB0 : 0 < BIG) by (unfold BIG; apply Z.pow_pos_nonneg; lia).
  destruct x as [sx|sx| |sx mx ex], y as [sy|sy| |sy my ey];
    try discriminate Hn; (split; [reflexivity|]); (split; [reflexivity|]);
    cbn [SF64mul SFmul jval] in *.
  - reflexivity.
  - reflexivity.
  - replace (sg sx * BIG * (sg sy * BIG)) with (sg (xorb sx sy) * (BIG * BIG))
      by (rewrite sg_xorb; ring).
    symmetry. apply G_big. nia.
  - destruct (valid_mantissa _ _ _ Hy) as [_ Hey].
    assert (0 < 2 ^ (ey + 1074)) by (apply Z.pow_pos_nonneg; lia).
    replace (sg sx * BIG * (sg sy * (Zpos my * 2 ^ (ey + 1074))))
      with (sg (xorb sx sy) * (BIG * (Zpos my * 2 ^ (ey + 1074))))
      by (rewrite sg_xorb; ring).
    symmetry. apply G_big. nia.
  - now rewrite Z.mul_0_r.
  - destruct (valid_mantissa _ _ _ Hx) as [_ Hex].
    assert (0 < 2 ^ (ex + 1074)) by (apply Z.pow_pos_nonneg; lia).
    replace (sg sx * (Zpos mx * 2 ^ (ex + 1074)) * (sg sy * BIG))
      with (sg (xorb sx sy) * (BIG * (Zpos mx * 2 ^ (ex + 1074))))
      by (rewrite sg_xorb; ring).
    symmetry. apply G_big. nia.
  - destruct (valid_finite _ _ _ Hx) as [Hcx _], (valid_finite _ _ _ Hy) as [Hcy _].
    destruct (valid_mantissa _ _ _ Hx) as [_ Hex].
    destruct (valid_mantissa _ _ _ Hy) as [_ Hey].
    pose proof (dg_mul (Zpos mx) (Zpos my) ltac:(lia) ltac:(lia)) as Hd.
    pose proof (dg_pos (Zpos mx) ltac:(lia)). pose proof (dg_pos (Zpos my) ltac:(lia)).
    rewrite round_aux_round in *
      by (rewrite fexp_eq, digits2_log2; fold (dg (Zpos (mx * my)));
          rewrite Pos2Z.inj_mul; lia).
    destruct (jval_round (xorb sx sy) (mx * my) (ex + ey) ltac:(unfold e0; lia))
      as [-> _].
    replace (sg sx * (Zpos mx * 2 ^ (ex + 1074)) * (sg sy * (Zpos my * 2 ^ (ey + 1074))))
      with (sg (xorb sx sy) * (Zpos (mx * my) * 2 ^ (ex + ey - e0))).
    + symmetry. apply G_sg.
      apply Z.mul_pos_pos; [lia | apply Z.pow_pos_nonneg; unfold e0; lia].
    + rewrite sg_xorb, Pos2Z.inj_mul. unfold e0.
      replace (ex + ey - -2148) with ((ex + 1074) + (ey + 1074)) by lia.
      rewrite Z.pow_add_r by lia. ring.
Qed.

(** *** Primitive floats *)

Definition J (x : float) : Z := jval (Prim2SF x).

Definition nan (x : float) : bool := is_nan (Prim2SF x).

(** [x] is at most [y], when both are numbers. *)
Definition fle (x y : float) : Prop :=
  nan x = false -> nan y = false -> J x <= J y.

Lemma fle_refl x : fle x x.
Proof. intros _ _. lia. Qed.

Lemma add_fle (x x' y y' : float) :
  fle x x' -> fle y y' -> fle (x + y)%float (x' + y')%float.
Proof.
  unfold fle, nan, J. rewrite !add_spec. intros Hx Hy N N'.
  destruct (jval_add _ _ (Prim2SF_valid x) (Prim2SF_valid y) N) as (Nx & Ny & ->).
  destruct (jval_add _ _ (Prim2SF_valid x') (Prim2SF_valid y') N') as (Nx' & Ny' & ->).
  specialize (Hx Nx Nx'). specialize (Hy Ny Ny').
  apply G_mono. apply Z.mul_le_mono_nonneg_r; [apply Z.pow_nonneg; lia | lia].
Qed.

Lemma sub_fle (x x' y y' : float) :
  fle x x' -> fle y' y -> fle (x - y)%float (x' - y')%float.
Proof.
  unfold fle, nan, J. rewrite !sub_spec. intros Hx Hy N N'.
  destruct (jval_sub _ _ (Prim2SF_valid x) (Prim2SF_valid y) N) as (Nx & Ny & ->).
  destruct (jval_sub _ _ (Prim2SF_valid x') (Prim2SF_valid y') N') as (Nx' & Ny' & ->).
  specialize (Hx Nx Nx'). specialize (Hy Ny' Ny).
  apply G_mono. apply Z.mul_le_mono_nonneg_r; [apply Z.pow_nonneg; lia | lia].
Qed.

Lemma mul_fle (c x x' : float) :
  0 <= J c -> fle x x' -> fle (c * x)%float (c * x')%float.
Proof.
  unfold fle, nan, J. rewrite !mul_spec. intros Hc Hx N N'.
  destruct (jval_mul _ _ (Prim2SF_valid c) (Prim2SF_valid x) N) as (_ & Nx & ->).
  destruct (jval_mul _ _ (Prim2SF_valid c) (Prim2SF_valid x') N') as (_ & Nx' & ->).
  specialize (Hx Nx Nx').
  apply G_mono. now apply Z.mul_le_mono_nonneg_l.
Qed.

Lemma leb_fle (x y : float) : (x <=? y)%float = true -> fle x y.
Proof.
  rewrite leb_spec. intros Hle _ _.
  exact (SFleb_jval _ _ (Prim2SF_valid x) (Prim2SF_valid y) Hle).
Qed.

Lemma leb_0_J (c : float) : (0 <=? c)%float = true -> 0 <= J c.
Proof.
  rewrite leb_spec. intros Hle.
  exact (SFleb_jval _ _ (Prim2SF_valid 0%float) (Prim2SF_valid c) Hle).
Qed.

Lemma fle_ltb (x y : float) : fle y x -> (x <? y)%float = false.
Proof.
  rewrite ltb_spec. unfold fle, nan, J. intros Hle.
  destruct (is_nan (Prim2SF x)) eqn:Nx;
    [destruct (Prim2SF x); try discriminate; reflexivity|].
  destruct (is_nan (Prim2SF y)) eqn:Ny;
    [destruct (Prim2SF y); try discriminate; destruct (Prim2SF x); reflexivity|].
  apply SFltb_false; [apply Prim2SF_valid | apply Prim2SF_valid | exact (Hle eq_refl eq_refl)].
Qed.

End FloatOrder.


(** ** The controller *)

Module PIDProps.
Import PID.

Section Generic.
Context {num : Type} `{Arith num}.

(** The quantities of the description, for a controller [c] that has
    received the errors [errs] so far ([errs !! i] is the error of call
    [i]). *)
Definition integral_after (c : PIDController num) (errs : list num) : num :=
  fold_left add errs (integral c).

Definition error_before (c : PIDController num) (errs : list num) (i : nat)
  : option num :=
  match i with
  | O => prev_error c
  | S j => errs !! j
  end.

Definition signal_at (c : PIDController num) (errs : list num) (i : nat)
    (e : num) : num :=
  add (add (mul (kp c) e) (mul (ki c) (integral_after c (take (S i) errs))))
      (mul (kd c)
         match error_before c errs i with
         | None => zero
         | Some prev => sub e prev
         end).

Lemma updates_cons c m ms :
  updates c (m :: ms) =
  ((updates (update c m).1 ms).1,
   (update c m).2 :: (updates (update c m).1 ms).2).
Proof.
  simpl. destruct (updates _ ms) as [c2 outs]. reflexivity.
Qed.

Lemma updates_gains c ms :
  kp (updates c ms).1 = kp c /\ ki (updates c ms).1 = ki c /\
  kd (updates c ms).1 = kd c /\ setpoint (updates c ms).1 = setpoint c.
Proof.
  revert c; induction ms as [|m ms IH]; intros c; [simpl; auto|].
  rewrite updates_cons. cbn [fst]. apply (IH (update c m).1).
Qed.

Lemma updates_state c ms :
  let errs := List.map (sub (setpoint c)) ms in
  integral (updates c ms).1 = integral_after c errs /\
  prev_error (updates c ms).1 =
    match last errs with Some e => Some e | None => prev_error c end.
Proof.
  revert c; induction ms as [|m ms IH]; intros c; [simpl; auto|].
  rewrite updates_cons. cbn [fst].
  destruct (IH (update c m).1) as [IH1 IH2]. cbn zeta in *.
  split.
  - rewrite IH1. reflexivity.
  - rewrite IH2. cbn [List.map]. rewrite last_cons. simpl.
    destruct (last (List.map (sub (setpoint c)) ms)); reflexivity.
Qed.

Lemma updates_outputs c ms :
  let errs := List.map (sub (setpoint c)) ms in
  length (updates c ms).2 = length ms /\
  forall i e, errs !! i = Some e ->
              (updates c ms).2 !! i = Some (signal_at c errs i e).
Proof.
  revert c; induction ms as [|m ms IH]; intros c.
  - split; [reflexivity | intros i e; discriminate].
  - rewrite updates_cons. cbn [snd].
    destruct (IH (update c m).1) as [IHlen IHout]. cbn zeta in *.
    split; [cbn [length]; now rewrite IHlen|].
    intros [|i] e He.
    + injection He as <-. reflexivity.
    + cbn [List.map] in He. rewrite lookup_cons in He.
      rewrite lookup_cons, (IHout i e He).
      unfold signal_at, integral_after. simpl.
      destruct i; reflexivity.
Qed.
End Generic.

(** C4: in every sequence of calls to [update], each call takes
    error = setpoint - measured, adds it to the running integral, takes the
    derivative to be 0 when there is no previous error (the first call on a
    new controller) and error - previous error otherwise, stores the error,
    and returns kp*error + ki*integral + kd*derivative.  The integral after
    the calls is the plain sum of the errors on top of its initial value:
    nothing clamps it.  This holds for any arithmetic, floats included. *)
Theorem update_sequence {num : Type} `{Arith num}
    (c : PIDController num) (ms : list num) :
  let errs := List.map (sub (setpoint c)) ms in
  let final := (updates c ms).1 in
  let outs := (updates c ms).2 in
  prev_error (init (kp c) (ki c) (kd c) (setpoint c)) = None
  /\ integral (init (kp c) (ki c) (kd c) (setpoint c)) = zero
  /\ (kp final = kp c /\ ki final = ki c /\ kd final = kd c
      /\ setpoint final = setpoint c)
  /\ integral final = fold_left add errs (integral c)
  /\ prev_error final =
       match last errs with Some e => Some e | None => prev_error c end
  /\ length outs = length ms
  /\ forall i e, errs !! i = Some e ->
       outs !! i =
       Some (add (add (mul (kp c) e)
                      (mul (ki c) (fold_left add (take (S i) errs) (integral c))))
                 (mul (kd c)
                    match match i with O => prev_error c | S j => errs !! j end with
                    | None => zero
                    | Some prev => sub e prev
                    end)).
Proof.
  cbn zeta.
  split; [reflexivity|]. split; [reflexivity|].
  split; [apply updates_gains|].
  destruct (updates_state c ms) as [Hi Hp].
  destruct (updates_outputs c ms) as [Hl Ho].
  repeat split; assumption.
Qed.

Lemma update_sequence_witness :
  (updates PID.program_pid [0.5%float; 0.25%float]).2 !! 1%nat
  = Some (5.0 * (0.01 - 0.25)
          + 0.5 * (0 + (0.01 - 0.5) + (0.01 - 0.25))
          + 0.2 * ((0.01 - 0.25) - (0.01 - 0.5)))%float.
Proof.
  exact (proj2 (proj2 (proj2 (proj2 (proj2 (proj2
           (update_sequence PID.program_pid [0.5%float; 0.25%float]))))))
           1%nat (0.01 - 0.25)%float eq_refl).
Defined.

(** *** The pacing signal *)

(** A controller with the script's gains and setpoint whose integral has
    grown large. *)
Definition wound_up (integral : float) : PIDController float :=
  {| kp := 5.0%float; ki := 0.5%float; kd := 0.2%float; setpoint := 0.01%float;
     integral := integral; prev_error := Some 0.01%float |}.

(** C5, as stated, fails in the floats the script computes with: on a
    controller with the script's gains and setpoint whose integral is
    [1e20], the error rates [0 / 200] and [1 / 200], both below the
    setpoint, give the same signal; so do [0 / 10^10] and [1 / 10^10] when
    the integral is [1e8]. *)
Lemma update_not_strictly_decreasing :
  (Batch.true_div 0%Z 200%Z <? Batch.true_div 1%Z 200%Z)%float = true
  /\ (Batch.true_div 1%Z 200%Z <? 0.01)%float = true
  /\ (update (wound_up 1e20%float) (Batch.true_div 1%Z 200%Z)).2
     = (update (wound_up 1e20%float) (Batch.true_div 0%Z 200%Z)).2
  /\ ((update (wound_up 1e20%float) (Batch.true_div 1%Z 200%Z)).2
      <? (update (wound_up 1e20%float) (Batch.true_div 0%Z 200%Z)).2)%float = false
  /\ (Batch.true_div 0%Z (10 ^ 10)%Z <? Batch.true_div 1%Z (10 ^ 10)%Z)%float = true
  /\ (Batch.true_div 1%Z (10 ^ 10)%Z <? 0.01)%float = true
  /\ (update (wound_up 1e8%float) (Batch.true_div 1%Z (10 ^ 10)%Z)).2
     = (update (wound_up 1e8%float) (Batch.true_div 0%Z (10 ^ 10)%Z)).2
  /\ ((update (wound_up 1e8%float) (Batch.true_div 1%Z (10 ^ 10)%Z)).2
      <? (update (wound_up 1e8%float) (Batch.true_div 0%Z (10 ^ 10)%Z)).2)%float = false.
Proof. vm_compute. repeat split. Qed.

Lemma float_ltb_leb (x y : float) :
  (x <? y)%float = true -> (x <=? y)%float = true.
Proof.
  rewrite ltb_spec, leb_spec. unfold SpecFloat.SFltb, SpecFloat.SFleb.
  destruct (SpecFloat.SFcompare _ _) as [[]|]; auto; discriminate.
Qed.

Lemma sleep_time_floor (s : float) : (0.1 <=? sleep_time s)%float = true.
Proof.
  unfold sleep_time, pymax.
  destruct (0.1 <? 1.0 + s)%float eqn:E.
  - now apply float_ltb_leb.
  - reflexivity.
Qed.

(** With gains that are not negative, the signal at a larger measured
    value is at most the signal at a smaller one, when both are numbers. *)
Lemma update_fle (c : PIDController float) (m1 m2 : float) :
  (0 <=? kp c)%float = true -> (0 <=? ki c)%float = true ->
  (0 <=? kd c)%float = true -> (m1 <=? m2)%float = true ->
  FloatOrder.fle (update c m2).2 (update c m1).2.
Proof.
  intros Hp Hi Hd Hm.
  apply FloatOrder.leb_0_J in Hp, Hi, Hd. apply FloatOrder.leb_fle in Hm.
  destruct c as [kp ki kd sp itg prev].
  cbn [update snd PID.kp PID.ki PID.kd setpoint integral prev_error
       add sub mul zero float_arith] in *.
  assert (He : FloatOrder.fle (sp - m2)%float (sp - m1)%float)
    by (apply FloatOrder.sub_fle; [apply FloatOrder.fle_refl | exact Hm]).
  apply FloatOrder.add_fle; [apply FloatOrder.add_fle|];
    apply FloatOrder.mul_fle; try assumption.
  - apply FloatOrder.add_fle; [apply FloatOrder.fle_refl | exact He].
  - destruct prev as [p|]; [|apply FloatOrder.fle_refl].
    apply FloatOrder.sub_fle; [exact He | apply FloatOrder.fle_refl].
Qed.

(** C5, amended: in the binary64 floats the script computes with, for
    every controller state (any integral, previous error and setpoint,
    infinities and NaN included) and gains that are not negative, the
    script's 5.0, 0.5 and 0.2 among them, the value [update] returns never
    increases when the measured rate grows: at the larger rate it is not
    greater than at the smaller one.  It need not be smaller.  The delay
    [max(0.1, 1.0 + signal)] is at least 0.1 for every signal, infinities
    and NaN included. *)
Theorem update_never_increasing_and_floor
    (c : PIDController float) (m1 m2 signal : float) :
  (0 <=? kp c)%float = true -> (0 <=? ki c)%float = true ->
  (0 <=? kd c)%float = true -> (m1 <=? m2)%float = true ->
  ((update c m1).2 <? (update c m2).2)%float = false
  /\ (0.1 <=? sleep_time signal)%float = true.
Proof.
  intros Hp Hi Hd Hm. split; [|apply sleep_time_floor].
  apply FloatOrder.fle_ltb. now apply update_fle.
Qed.

Lemma update_never_increasing_and_floor_witness :
  ((update (wound_up 0.25%float) 0%float).2 <? (update (wound_up 0.25%float) 0.5%float).2)%float
  = false
  /\ (0.1 <=? sleep_time (-3.5))%float = true.
Proof.
  apply (update_never_increasing_and_floor (wound_up 0.25%float) 0%float 0.5%float (-3.5)%float);
    reflexivity.
Defined.

End PIDProps.


(** ** The lookup of one name *)

Module DblpProps.
Import Dblp.



(** What the loop reads of a hit: the displayed name and the URL.  A hit is
    well formed when it is an object whose "info", if present, is an object
    whose "author", if present, is text. *)
Definition hit_fields (hit : json) : option (str * json) :=
  match hit with
  | JDict items =>
      match default (JDict []) (assoc (py "info") items) with
      | JDict info =>
          match default (JStr []) (assoc (py "author") info) with
          | JStr author_name =>
              Some (author_name, default (JStr []) (assoc (py "url") info))
          | _ => None
          end
      | _ => None
      end
  | _ => None
  end.

Definition well_formed (hit : json) : bool :=
  match hit_fields hit with Some _ => true | None => false end.

Section Lookup.
Context `{UnicodeData} `{UrlLib} (net : remote).


(** The hit has a URL and its person record lists the query as a name. *)
Definition alias_match (normalized : str) (hit : json) : bool :=
  match hit_fields hit with
  | Some (_, dblp_url) => truthy dblp_url && has_alias_match net dblp_url normalized
  | None => false
  end.


Lemma dblp_author_search_name name :
  (dblp_author_search net name).1 = name.
Proof.
  unfold dblp_author_search. now destruct (search_and_classify _ _ _).
Qed.




(** *** The loop over the hits *)

Lemma scan_hits_cons normalized canon_query hit rest fe fa a u :
  hit_fields hit = Some (a, u) ->
  scan_hits net normalized canon_query (hit :: rest) fe fa =
  if str_eqb (canonicalize a) canon_query
  then scan_hits net normalized canon_query rest true fa
  else if truthy u && has_alias_match net u normalized
  then scan_hits net normalized canon_query rest fe true
  else scan_hits net normalized canon_query rest fe fa.
Proof.
  unfold hit_fields. intros E. cbn [scan_hits].
  unfold py_get, mbind, result_bind.
  destruct hit as [| | | | |?|items]; try discriminate.
  destruct (default (JDict []) (assoc (py "info") items))
    as [| | | | |?|info]; try discriminate.
  destruct (default (JStr []) (assoc (py "author") info))
    as [| | | |author_name|?|?]; try discriminate.
  injection E as <- <-. reflexivity.
Qed.




End Lookup.


(** *** Worked lookups *)

(** A reading of [urlparse(url).path] that is right for the profile URLs
    DBLP returns (https://dblp.org/<path>, no query, no fragment). *)
Definition dblp_urls : UrlLib :=
  {| urlparse_path url :=
       Ok (if startswith (py "https://dblp.org") url
           then drop (length (py "https://dblp.org")) url
           else url) |}.

Definition hit (author url : string) : json :=
  JDict [(py "info", JDict [(py "author", JStr (py author));
                            (py "url", JStr (py url))])].

Definition answer (hits : list json) : response json :=
  {| status_code := 200;
     parsed := Ok (JDict [(py "result",
                     JDict [(py "hits", JDict [(py "hit", JList hits)])])]) |}.

Definition person (pid : string) (names : list string) : response element :=
  {| status_code := 200;
     parsed := Ok (Element (py "dblpperson") [] None
                     [Element (py "person") [] None
                        (List.map (fun n => Element (py "author")
                                              [(py "pid", py pid)]
                                              (Some (py n)) []) names)]) |}.

(** A service that knows "Alice Smith", knows "Carol Lee" both under that
    name and as another name of "Carol Li", knows "Dan Roe" only as another
    name of "Daniel Roe", and is out of order for "Eve". *)
Definition example_net : remote :=
  {| search_author q :=
       if str_eqb q (py "Alice Smith") then
         Ok (answer [hit "Alice  SMITH." "https://dblp.org/pid/01/1"])
       else if str_eqb q (py "Carol Lee") then
         Ok (answer [hit "Carol Li" "https://dblp.org/pid/12/34";
                     hit "Carol Lee" "https://dblp.org/pid/56/78"])
       else if str_eqb q (py "Dan Roe") then
         Ok (answer [hit "Daniel Roe" "https://dblp.org/pid/90/9"])
       else if str_eqb q (py "Eve") then
         Ok {| status_code := 429; parsed := raise JSONDecodeError "Expecting value" |}
       else Ok (answer []);
     pid_record url :=
       if str_eqb url (py "https://dblp.org/pid/12/34.xml") then
         Ok (person "12/34" ["Carol Li"%string; "Carol Lee"%string])
       else if str_eqb url (py "https://dblp.org/pid/90/9.xml") then
         Ok (person "90/9" ["Daniel Roe"%string; "Dan Roe"%string])
       else raise RequestException "timed out" |}.

Definition lookup (name : string) : str * str :=
  @dblp_author_search basic_latin dblp_urls example_net (py name).

Example lookup_exact : lookup "Alice Smith" = (py "Alice Smith", py "EXACT").
Proof. vm_compute. reflexivity. Qed.

Example lookup_alias : lookup "Dan Roe [0001]" = (py "Dan Roe [0001]", py "ALIAS").
Proof. vm_compute. reflexivity. Qed.

Example lookup_not_found : lookup "Bob Jones" = (py "Bob Jones", py "NOT_FOUND").
Proof. vm_compute. reflexivity. Qed.



Example carol_li_is_an_alias_hit :
  @alias_match basic_latin dblp_urls example_net (py "Carol Lee")
    (hit "Carol Li" "https://dblp.org/pid/12/34") = true.
Proof. vm_compute. reflexivity. Qed.




End DblpProps.


(** ** The batch loop and repeated runs *)

Module BatchProps.
Import Dblp Batch PID.

(** *** What each step of an iteration does to the state *)

Lemma pace_disk b : disk (pace b) = disk b.
Proof.
  unfold pace. destruct (0 <? total_requests b)%Z; [|reflexivity].
  destruct (update _ _). reflexivity.
Qed.

Lemma pace_already_output b : already_output (pace b) = already_output b.
Proof.
  unfold pace. destruct (0 <? total_requests b)%Z; [|reflexivity].
  destruct (update _ _). reflexivity.
Qed.

Lemma log_result_output r fut b :
  output_csv (disk (log_result r fut b)) = output_csv (disk b)
  /\ progress_file (disk (log_result r fut b)) = progress_file (disk b)
  /\ already_output (log_result r fut b) = already_output b.
Proof. destruct fut as [[n v]|e]; simpl; auto. Qed.

(** The test before [writer.writerow]: the verdict is NOT_FOUND and the
    name is not in [already_output]. *)
Definition wanted (fut : future_result) (b : batch) : bool :=
  match fut with
  | Returned (n, result) =>
      str_eqb result (py "NOT_FOUND") && negb (bool_decide (n ∈ already_output b))
  | Raised _ => false
  end.

(** The writer takes the row: it has no key outside the field names. *)
Definition accepted (fieldnames : list key) (r : row) : bool :=
  match wrong_fields fieldnames r with [] => true | _ :: _ => false end.

Definition writes_row (fieldnames : list key) (r : row)
    (fut : future_result) (b : batch) : bool :=
  wanted fut b && accepted fieldnames r.

Definition refuses_row (fieldnames : list key) (r : row)
    (fut : future_result) (b : batch) : bool :=
  wanted fut b && negb (accepted fieldnames r).

(** A future made by [submit]: it returns, and with the name of its row. *)
Definition from_lookup (item : future_result * row) : Prop :=
  exists verdict, item.1 = Returned (name item.2, verdict).

(** The names [csv.DictReader] finds in a file (none if it raises). *)
Definition file_names (file : list record) : list str :=
  match read_names file with
  | Ok names => omap id names
  | Raise _ => []
  end.

Definition names_of (fs : files) : list str := file_names (output_lines fs).

(** The first line of the file is a header, and its only name column is
    the first. *)
Definition headed_file (file : list record) : Prop :=
  exists header rows,
    file = header :: rows /\ last_index (py "name") header = Some 0%nat.

(** The output file is missing, or has such a header. *)
Definition headed (fs : files) : Prop :=
  match output_csv fs with
  | Some file => headed_file file
  | None => True
  end.

Section Run.
Context `{UnicodeData} `{UrlLib} `{CsvLib}.

Lemma output_result_output fn r fut b :
  output_csv (disk (output_result fn r fut b)) =
    (if writes_row fn r fut b
     then append (output_csv (disk b)) [get r <$> fn]
     else output_csv (disk b))
  /\ already_output (output_result fn r fut b) =
    (if writes_row fn r fut b then {[ result_name r fut ]} ∪ already_output b
     else already_output b)
  /\ progress_file (disk (output_result fn r fut b)) = progress_file (disk b).
Proof.
  unfold writes_row, accepted.
  destruct fut as [[n v]|e]; cbn [output_result wanted result_name]; [|auto].
  destruct (str_eqb v (py "NOT_FOUND") && negb (bool_decide (n ∈ already_output b)));
    cbn [andb]; [destruct (wrong_fields fn r)|];
    destruct (str_eqb v (py "ERROR")); simpl; auto.
Qed.

Lemma record_progress_output r fut b :
  output_csv (disk (record_progress r fut b)) = output_csv (disk b)
  /\ already_output (record_progress r fut b) = already_output b
  /\ progress_file (disk (record_progress r fut b)) =
     append (progress_file (disk b)) (result_name r fut ++ [LF]).
Proof. unfold record_progress. simpl. auto. Qed.

Lemma handle_progress fn b fut r :
  progress_file (disk (handle fn b (fut, r))) =
  append (progress_file (disk b)) (result_name r fut ++ [LF]).
Proof.
  unfold handle. rewrite pace_disk.
  destruct (record_progress_output r fut
              (output_result fn r fut (log_result r fut b))) as (_ & _ & ->).
  destruct (output_result_output fn r fut (log_result r fut b)) as (_ & _ & ->).
  destruct (log_result_output r fut b) as (_ & -> & _). reflexivity.
Qed.

Lemma drain_finished fn b items :
  drain fn Finished b items = foldl (handle fn) b items.
Proof.
  revert b; induction items as [|item rest IH]; intros b; [reflexivity|].
  destruct rest as [|item2 rest]; [destruct item; reflexivity|].
  change (drain fn Finished (handle fn b item) (item2 :: rest)
          = foldl (handle fn) (handle fn b item) (item2 :: rest)).
  apply IH.
Qed.

(** *** The tasks *)

Lemma submit_rows s rows seen :
  (submit s rows seen).*2 = filter (fun r => name r ∉ seen) rows.
Proof.
  unfold submit. generalize (world s) as w.
  induction (filter _ rows) as [|r l IH]; intros w; [reflexivity|].
  cbn [imap fmap list_fmap]. f_equal. exact (IH (w ∘ S)).
Qed.

Lemma submit_from_lookup s rows seen :
  Forall from_lookup (submit s rows seen).
Proof.
  unfold submit. generalize (world s) as w.
  induction (filter _ rows) as [|r l IH]; intros w; [constructor|].
  cbn [imap]. constructor; [|exact (IH (w ∘ S))].
  exists (dblp_author_search (w 0%nat) (name r)).2. cbn [fst snd].
  pose proof (DblpProps.dblp_author_search_name (w 0%nat) (name r)) as Hn.
  destruct (dblp_author_search _ _) as [n v]. simpl in Hn. now subst.
Qed.

Lemma process_batch_queried rows fs seen ao pid s :
  (process_batch rows fs seen ao pid s).2
  = name <$> filter (fun r => name r ∉ seen) rows.
Proof.
  unfold process_batch. cbn [snd].
  rewrite <- (submit_rows s), <- list_fmap_compose. reflexivity.
Qed.

Lemma find_missing_names_cons fs r0 rows s ao :
  load_already_output fs = Ok ao ->
  find_missing_names fs (r0 :: rows) s =
  let run := process_batch (r0 :: rows)
               (write_header_if_missing fs (r0 :: rows))
               (load_seen fs) ao program_pid s in
  (disk run.1, run.2).
Proof.
  intros Hao. unfold find_missing_names. rewrite Hao.
  now destruct (process_batch _ _ _ _ _ _).
Qed.

Lemma find_missing_names_raise fs input s e :
  load_already_output fs = Raise e ->
  find_missing_names fs input s = (fs, []).
Proof. intros Hao. unfold find_missing_names. now rewrite Hao. Qed.

(** C1: no lookup is submitted for a name that is in [seen] when
    [process_batch] builds its tasks; in [find_missing_names] that set is
    the one read from the progress file, so no name read from the progress
    file at the start of a run is looked up in that run. *)
Theorem seen_names_not_submitted :
  (forall rows fs seen already_output pid s,
     Forall (fun item => name item.2 ∉ seen) (submit s rows seen)
     /\ Forall (fun n => n ∉ seen)
               (process_batch rows fs seen already_output pid s).2)
  /\ (forall fs input s,
        Forall (fun n => n ∉ load_seen fs) (find_missing_names fs input s).2).
Proof.
  assert (Hq : forall rows fs seen ao pid s,
             Forall (fun n => n ∉ seen) (process_batch rows fs seen ao pid s).2).
  { intros. rewrite process_batch_queried.
    apply Forall_fmap, Forall_forall. intros r Hr%list_elem_of_filter. tauto. }
  split.
  - intros rows fs seen ao pid s. split; [|apply Hq].
    apply (Forall_fmap snd (fun r => name r ∉ seen)).
    rewrite submit_rows. apply Forall_forall.
    intros r Hr%list_elem_of_filter. tauto.
  - intros fs input s.
    destruct (load_already_output fs) as [ao|e] eqn:Hao.
    + destruct input as [|r0 rows];
        [unfold find_missing_names; rewrite Hao; constructor|].
      rewrite (find_missing_names_cons _ _ _ _ ao Hao). apply Hq.
    + rewrite (find_missing_names_raise _ _ _ e Hao). constructor.
Qed.

(** *** The output file *)

Lemma omap_id_fmap {A B} (f : A -> option B) (l : list A) :
  omap id (f <$> l) = omap f l.
Proof.
  induction l as [|x l IH]; [reflexivity|].
  cbn [fmap list_fmap omap list_omap id]. rewrite IH. reflexivity.
Qed.

Lemma file_names_headed header rows :
  last_index (py "name") header = Some 0%nat ->
  file_names (header :: rows)
  = omap (fun r => r !! 0%nat) (filter (fun r => r <> []) rows).
Proof.
  unfold file_names, read_names. intros ->. apply omap_id_fmap.
Qed.


Lemma headed_file_app file more :
  headed_file file -> headed_file (file ++ more).
Proof. intros (header & rows & -> & Hh). now exists header, (rows ++ more)%list. Qed.

Lemma load_already_output_headed fs :
  headed fs -> load_already_output fs = Ok (list_to_set (names_of fs)).
Proof.
  unfold headed, load_already_output, names_of, output_lines, file_names.
  destruct (output_csv fs) as [file|]; [|reflexivity].
  intros (header & rows & -> & Hh). cbn [default from_option id].
  unfold read_names. rewrite Hh. reflexivity.
Qed.

(** The header the script writes. *)
Lemma last_index_absent x (l : record) : x ∉ l -> last_index x l = None.
Proof.
  induction l as [|y l IH]; [reflexivity|].
  intros Hx. cbn [last_index].
  rewrite IH by (intros Hin; apply Hx; now right).
  unfold str_eqb. rewrite bool_decide_eq_false_2; [reflexivity|].
  intros ->. apply Hx. now left.
Qed.

Lemma header_line_keys r :
  last_index (py "name") (header_line (keys r)) = Some 0%nat.
Proof.
  unfold header_line, keys. cbn [fmap list_fmap default from_option id last_index].
  rewrite last_index_absent; [reflexivity|].
  rewrite fmap_app, <- list_fmap_compose.
  intros [Hin|Hin]%elem_of_app.
  - apply list_elem_of_fmap in Hin as [k [Hk Hin]].
    apply list_elem_of_filter in Hin as [Hne _]. simpl in Hk. now subst k.
  - destruct (rest r); cbn in Hin.
    + apply list_elem_of_singleton in Hin. discriminate.
    + inversion Hin.
Qed.







(** Lines are only ever added at the end of the output file. *)
Lemma output_result_prefix fn r fut b :
  output_lines (disk b) `prefix_of` output_lines (disk (output_result fn r fut b)).
Proof.
  unfold output_lines.
  destruct (output_result_output fn r fut b) as (-> & _ & _).
  destruct (writes_row fn r fut b); [|reflexivity].
  now apply prefix_app_r.
Qed.

Lemma handle_last_prefix fn c b item :
  output_lines (disk b) `prefix_of` output_lines (disk (handle_last fn c b item)).
Proof.
  destruct item as [fut r].
  assert (Hlog : output_lines (disk (log_result r fut b)) = output_lines (disk b)).
  { unfold output_lines. now destruct (log_result_output r fut b) as (-> & _). }
  destruct c; cbn [handle_last handle].
  - unfold output_lines at 2. rewrite pace_disk.
    destruct (record_progress_output r fut
                (output_result fn r fut (log_result r fut b))) as (-> & _ & _).
    rewrite <- Hlog at 1. apply output_result_prefix.
  - now rewrite Hlog.
  - rewrite <- Hlog at 1. apply output_result_prefix.
Qed.

Lemma drain_prefix fn c b items :
  output_lines (disk b) `prefix_of` output_lines (disk (drain fn c b items)).
Proof.
  revert b; induction items as [|item rest IH]; intros b; [reflexivity|].
  destruct rest as [|item2 rest]; [apply handle_last_prefix|].
  change (output_lines (disk b) `prefix_of`
          output_lines (disk (drain fn c (handle fn b item) (item2 :: rest)))).
  etrans; [|apply IH]. destruct item as [fut r].
  apply (handle_last_prefix fn Finished b (fut, r)).
Qed.

(** The loop never removes the output file. *)
Lemma output_result_exists fn r fut b file :
  output_csv (disk b) = Some file ->
  output_csv (disk (output_result fn r fut b))
  = Some (output_lines (disk (output_result fn r fut b))).
Proof.
  intros Hfile. unfold output_lines.
  destruct (output_result_output fn r fut b) as (-> & _ & _).
  destruct (writes_row fn r fut b); [reflexivity | now rewrite Hfile].
Qed.

Lemma write_header_lines fs input :
  output_lines fs `prefix_of` output_lines (write_header_if_missing fs input).
Proof.
  unfold write_header_if_missing, output_lines.
  destruct (output_csv fs) eqn:E; cbn; rewrite ?E; [reflexivity|].
  apply prefix_nil.
Qed.

Lemma write_header_headed fs r0 rows :
  headed fs ->
  exists file,
    output_csv (write_header_if_missing fs (r0 :: rows)) = Some file
    /\ headed_file file
    /\ file_names file = names_of fs.
Proof.
  unfold headed, write_header_if_missing, names_of, output_lines.
  destruct (output_csv fs) as [file|] eqn:E.
  - intros Hfile. exists file. rewrite E. auto.
  - intros _. eexists. split; [reflexivity|]. split.
    + eexists _, []. split; [reflexivity|]. apply header_line_keys.
    + cbn [fieldnames_of]. rewrite file_names_headed by apply header_line_keys.
      reflexivity.
Qed.

Lemma find_missing_names_prefix fs input s :
  output_lines fs `prefix_of` output_lines (find_missing_names fs input s).1.
Proof.
  destruct (load_already_output fs) as [ao|e] eqn:Hao;
    [|now rewrite (find_missing_names_raise _ _ _ e Hao)].
  destruct input as [|r0 rows];
    [unfold find_missing_names; now rewrite Hao|].
  rewrite (find_missing_names_cons _ _ _ _ ao Hao).
  unfold process_batch. cbn [fst snd].
  etrans; [apply (write_header_lines fs (r0 :: rows))|].
  etrans; [|apply drain_prefix].
  unfold start, open_for_append, output_lines. cbn.
  destruct (output_csv (write_header_if_missing fs (r0 :: rows))); reflexivity.
Qed.

Lemma find_missing_names_headed fs input s :
  headed fs -> headed (find_missing_names fs input s).1.
Proof.
  intros Hfs.
  destruct (load_already_output fs) as [ao|e] eqn:Hao;
    [|now rewrite (find_missing_names_raise _ _ _ e Hao)].
  destruct input as [|r0 rows];
    [unfold find_missing_names; now rewrite Hao|].
  destruct (write_header_headed fs r0 rows Hfs) as (file & Hfile & Hhead & _).
  pose proof (find_missing_names_prefix fs (r0 :: rows) s) as Hpre.
  pose proof (write_header_lines fs (r0 :: rows)) as Hpre0.
  rewrite (find_missing_names_cons _ _ _ _ ao Hao) in *.
  unfold process_batch in *. cbn [fst snd] in *.
  set (b0 := start _ _ _ _) in *.
  pose proof (drain_prefix (fieldnames_of (r0 :: rows)) (stop s) b0
                (as_completed s (submit s (r0 :: rows) (load_seen fs)))) as Hd.
  replace (output_lines (disk b0)) with file in Hd
    by (unfold b0, start, open_for_append, output_lines; cbn; now rewrite Hfile).
  destruct Hd as [more Hd]. unfold headed, output_lines in *.
  destruct (output_csv (disk (drain _ _ b0 _))) as [file'|]; [|exact I].
  cbn in Hd. subst file'. now apply headed_file_app.
Qed.


Lemma lifetime_snoc fs runs run :
  lifetime fs (runs ++ [run]) = resume (lifetime fs runs) run.
Proof. unfold lifetime. now rewrite foldl_snoc. Qed.

Lemma resume_now h run :
  now (resume h run) = (find_missing_names (now h) run.1 run.2).1.
Proof. unfold resume. now destruct (find_missing_names _ _ _). Qed.

Lemma resume_queried h run :
  queried (resume h run)
  = (find_missing_names (now h) run.1 run.2).2 ++ queried h.
Proof. unfold resume. now destruct (find_missing_names _ _ _). Qed.

Lemma lifetime_headed fs runs : headed fs -> headed (now (lifetime fs runs)).
Proof.
  intros Hfs. induction runs as [|run runs IH] using rev_ind; [exact Hfs|].
  rewrite lifetime_snoc, resume_now. now apply find_missing_names_headed.
Qed.



(** *** The progress file *)

(** A name that survives the trip through the progress file: it is not
    empty, has no whitespace at either end and no line break inside. *)
Definition plain (n : str) : bool :=
  negb (str_eqb n []) && str_eqb (strip n) n
  && forallb (fun c => negb (c =? LF) && negb (c =? CR)) n.

(** The text that writing the names, one [f.write(f"{name}\n")] each,
    produces. *)
Definition ledger (names : list str) : str :=
  concat ((fun n => n ++ [LF]) <$> names).

(** How many different names a list holds. *)
Definition distinct (names : list str) : nat :=
  size (list_to_set names : gset str).

Lemma plain_spec n :
  plain n = true ->
  n <> [] /\ strip n = n /\ forall c, In c n -> c <> LF /\ c <> CR.
Proof.
  unfold plain, str_eqb.
  intros [[Hne Hs]%andb_prop Hc]%andb_prop.
  apply negb_true_iff, bool_decide_eq_false in Hne.
  apply bool_decide_eq_true in Hs.
  split; [exact Hne|]. split; [exact Hs|].
  intros c Hin. rewrite forallb_forall in Hc. specialize (Hc c Hin).
  apply andb_prop in Hc as [Hlf Hcr].
  apply negb_true_iff in Hlf, Hcr. apply N.eqb_neq in Hlf, Hcr. now split.
Qed.

Lemma lines_from_line n cur rest :
  (forall c, In c n -> c <> LF /\ c <> CR) ->
  lines_from false cur (n ++ LF :: rest)
  = (rev cur ++ n ++ [LF]) :: lines_from false [] rest.
Proof.
  revert cur; induction n as [|c n IH]; intros cur Hn.
  - simpl. reflexivity.
  - destruct (Hn c (or_introl eq_refl)) as [Hlf Hcr].
    cbn [app lines_from].
    destruct (N.eqb_spec c LF) as [?|_]; [contradiction|].
    destruct (N.eqb_spec c CR) as [?|_]; [contradiction|].
    rewrite IH by (intros d Hd; apply Hn; now right).
    simpl. now rewrite <- app_assoc.
Qed.

Lemma lines_ledger names :
  Forall (fun n => plain n = true) names ->
  lines (ledger names) = (fun n => n ++ [LF]) <$> names.
Proof.
  unfold lines, ledger.
  induction 1 as [|n names Hn _ IH]; [reflexivity|].
  cbn [fmap list_fmap concat]. rewrite <- app_assoc. cbn [app].
  rewrite lines_from_line by apply (plain_spec n Hn).
  now rewrite IH.
Qed.

Lemma strip_line n : strip (n ++ [LF]) = strip n.
Proof.
  unfold strip, rstrip. now rewrite rev_app_distr.
Qed.

Lemma stripped_lines_ledger names :
  Forall (fun n => plain n = true) names ->
  stripped_lines (ledger names) = names.
Proof.
  intros Hnames. unfold stripped_lines. rewrite lines_ledger by exact Hnames.
  induction Hnames as [|n names Hn _ IH]; [reflexivity|].
  cbn [fmap list_fmap]. rewrite strip_line.
  destruct (plain_spec n Hn) as (Hne & -> & _).
  rewrite filter_cons_True by exact Hne. now rewrite IH.
Qed.

Lemma ledger_app l k : ledger (l ++ k) = (ledger l ++ ledger k)%list.
Proof. unfold ledger. now rewrite fmap_app, concat_app. Qed.

Definition progress_text (fs : files) : str := default [] (progress_file fs).

Lemma load_seen_text fs :
  load_seen fs = list_to_set (stripped_lines (progress_text fs)).
Proof.
  unfold load_seen, progress_text. now destruct (progress_file fs).
Qed.

Lemma handle_progress_text fn b fut r :
  progress_text (disk (handle fn b (fut, r)))
  = (progress_text (disk b) ++ result_name r fut ++ [LF])%list.
Proof. unfold progress_text. now rewrite handle_progress. Qed.

Lemma foldl_handle_progress fn b items :
  Forall from_lookup items ->
  progress_text (disk (foldl (handle fn) b items))
  = (progress_text (disk b) ++ ledger ((fun item => name item.2) <$> items))%list.
Proof.
  intros Hitems. revert b.
  induction Hitems as [|[fut r] items [v Hv] _ IH]; intros b.
  - cbn. now rewrite app_nil_r.
  - cbn [foldl]. rewrite IH, handle_progress_text. cbn in Hv. subst fut.
    cbn [result_name fmap list_fmap snd].
    change (ledger (name r :: ?l)) with ((name r ++ [LF]) ++ ledger l)%list.
    now rewrite <- !app_assoc.
Qed.

(** The progress file holds the names [ns], which are the names looked up
    so far, in some order. *)
Definition in_step (h : history) (ns : list str) : Prop :=
  progress_text (now h) = ledger ns
  /\ Forall (fun n => plain n = true) ns
  /\ ns ≡ₚ queried h.

Lemma resume_in_step h ns run ao :
  load_already_output (now h) = Ok ao ->
  runs_to_end run.2 ->
  Forall (fun r => plain (name r) = true) run.1 ->
  in_step h ns ->
  exists new,
    in_step (resume h run) (ns ++ new)
    /\ new ≡ₚ name <$> filter (fun r => name r ∉ load_seen (now h)) run.1
    /\ queried (resume h run) = ((name <$> filter (fun r => name r ∉ load_seen (now h)) run.1) ++ queried h)%list
    /\ load_seen (now h) = list_to_set ns.
Proof.
  destruct run as [input s]. cbn [fst snd].
  intros Hao [Hstop Hperm] Hinput (Htext & Hplain & Hq).
  assert (Hseen : load_seen (now h) = list_to_set ns).
  { now rewrite load_seen_text, Htext, stripped_lines_ledger. }
  unfold in_step. rewrite resume_now, resume_queried. cbn [fst snd].
  destruct input as [|r0 rows].
  - exists []. rewrite app_nil_r. unfold find_missing_names. rewrite Hao.
    cbn. auto.
  - rewrite (find_missing_names_cons _ _ _ _ ao Hao). cbn zeta. cbn [fst snd].
    rewrite process_batch_queried.
    set (input := r0 :: rows) in *.
    set (fs' := write_header_if_missing (now h) input).
    assert (Hfs' : progress_text fs' = progress_text (now h)).
    { unfold fs', write_header_if_missing, progress_text.
      now destruct (output_csv (now h)). }
    unfold process_batch. cbn [fst].
    set (futures := submit s input (load_seen (now h))).
    set (done := as_completed s futures).
    assert (Hdone : done ≡ₚ futures) by apply Hperm.
    assert (Hfrom : Forall from_lookup done).
    { rewrite Hdone. apply submit_from_lookup. }
    exists ((fun item => name item.2) <$> done).
    assert (Hnew : (fun item => name item.2) <$> done
                   ≡ₚ name <$> filter (fun r => name r ∉ load_seen (now h)) input).
    { rewrite Hdone. unfold futures.
      rewrite <- (submit_rows s), <- list_fmap_compose. reflexivity. }
    repeat split.
    + rewrite Hstop, drain_finished, foldl_handle_progress by exact Hfrom.
      change (progress_text (disk (start fs' _ _ _))) with (progress_text fs').
      now rewrite Hfs', Htext, ledger_app.
    + apply Forall_app. split; [exact Hplain|].
      rewrite Forall_forall. intros n Hn. rewrite Hnew in Hn.
      apply list_elem_of_fmap in Hn as [r [-> Hr%list_elem_of_filter]].
      rewrite Forall_forall in Hinput. apply Hinput, Hr.
    + rewrite Hnew, Hq. apply Permutation_app_comm.
    + exact Hnew.
    + exact Hseen.
Qed.

Lemma NoDup_fmap_filter {A B} (f : A -> B) (P : A -> Prop)
    `{!forall x, Decision (P x)} (l : list A) :
  NoDup (f <$> l) -> NoDup (f <$> filter P l).
Proof.
  intros Hl. apply (sublist_NoDup (f <$> filter P l) (f <$> l));
    first [exact Hl | apply fmap_sublist, sublist_filter].
Qed.

Lemma lifetime_in_step (runs : list (list row * schedule)) :
  Forall (fun run => runs_to_end run.2
                     /\ Forall (fun r => plain (name r) = true) run.1) runs ->
  exists ns,
    in_step (lifetime no_files runs) ns
    /\ (Forall (fun run => NoDup (name <$> run.1)) runs -> NoDup ns).
Proof.
  induction runs as [|run runs IH] using rev_ind; intros Hruns.
  - exists []. repeat split; try constructor.
  - apply Forall_app in Hruns as [Hruns [Hend Hplain]%Forall_inv].
    destruct (IH Hruns) as (ns & Hstep & Hnodup).
    assert (Hao := load_already_output_headed (now (lifetime no_files runs))
                     (lifetime_headed no_files runs I)).
    destruct (resume_in_step _ ns run _ Hao Hend Hplain Hstep)
      as (new & Hstep' & Hnew & _ & Hseen).
    exists (ns ++ new). rewrite lifetime_snoc. split; [exact Hstep'|].
    intros [Hall Hrun%Forall_inv]%Forall_app.
    apply NoDup_app. split; [auto|]. split.
    + intros n Hn Hn'. rewrite Hnew in Hn'.
      apply list_elem_of_fmap in Hn' as [r [-> Hr%list_elem_of_filter]].
      destruct Hr as [Hr _]. apply Hr. rewrite Hseen.
      now apply elem_of_list_to_set.
    + rewrite Hnew. now apply NoDup_fmap_filter.
Qed.

(** Over runs that run to their end, the progress file has one line per
    lookup submitted, holding the name looked up. *)
Lemma progress_lines_per_lookup (runs : list (list row * schedule)) :
  Forall (fun run => runs_to_end run.2
                     /\ Forall (fun r => plain (name r) = true) run.1) runs ->
  progress_lines (now (lifetime no_files runs))
    ≡ₚ (fun n => n ++ [LF]) <$> queried (lifetime no_files runs).
Proof.
  intros Hruns.
  destruct (lifetime_in_step runs Hruns) as (ns & (Htext & Hplain & Hq) & _).
  unfold progress_lines. fold (progress_text (now (lifetime no_files runs))).
  rewrite Htext, lines_ledger by exact Hplain. now rewrite Hq.
Qed.

(** C9, amended: over runs that run to their end, on inputs in which no
    name occurs twice and every name is plain (not empty, no whitespace at
    its ends, no line break inside), the number of lines of the progress
    file is the number of distinct names that have been looked up. *)
Theorem progress_lines_count (runs : list (list row * schedule)) :
  Forall (fun run => runs_to_end run.2
                     /\ Forall (fun r => plain (name r) = true) run.1) runs ->
  Forall (fun run => NoDup (name <$> run.1)) runs ->
  length (progress_lines (now (lifetime no_files runs)))
  = distinct (queried (lifetime no_files runs)).
Proof.
  intros Hruns Hinputs.
  rewrite (progress_lines_per_lookup runs Hruns), length_fmap.
  destruct (lifetime_in_step runs Hruns) as (ns & (_ & _ & Hq) & Hnodup).
  unfold distinct. rewrite size_list_to_set; [reflexivity|].
  rewrite <- Hq. auto.
Qed.

End Run.


(** *** Worked runs *)

Definition candidate (n : string) : row :=
  {| name := py n; fields := [(py "affiliation", py "Somewhere")];
     rest := None |}.

(** A line of the input with one cell more than the header has columns. *)
Definition overlong (n : string) : row :=
  {| name := py n; fields := [(py "affiliation", py "Somewhere")];
     rest := Some (py "['x']") |}.

(** A reading of the text that names the wrong fields which is right for
    [None], the one key the rows of a [DictReader] can have beyond the
    columns of the header. *)
Definition none_only : CsvLib :=
  {| wrong_fields_text wrong :=
       concat ((fun k : key => match k with
                               | None => py "None"
                               | Some s => (py "'" ++ s ++ py "'")%list
                               end) <$> wrong) |}.

(** The pool delivers the results in the order of submission, or in the
    opposite order; or the run is killed in its second iteration, after the
    output row is written. *)
Definition in_order : schedule :=
  {| world := fun _ => DblpProps.example_net;
     as_completed := fun futures => futures;
     stop := Finished |}.

Definition last_first : schedule :=
  {| world := fun _ => DblpProps.example_net;
     as_completed := reverse;
     stop := Finished |}.

Definition killed : schedule :=
  {| world := fun _ => DblpProps.example_net;
     as_completed := take 2;
     stop := AfterOutput |}.

Definition runs_from (fs : files) (runs : list (list row * schedule)) : history :=
  @lifetime basic_latin DblpProps.dblp_urls none_only fs runs.

Definition runs_on (runs : list (list row * schedule)) : history :=
  runs_from no_files runs.

Lemma in_order_runs_to_end : runs_to_end in_order.
Proof. split; [reflexivity | intros futures; reflexivity]. Qed.

Lemma last_first_runs_to_end : runs_to_end last_first.
Proof. split; [reflexivity | intros futures; apply reverse_Permutation]. Qed.


Lemma killed_well_scheduled : well_scheduled killed.
Proof. intros futures. apply sublist_submseteq, sublist_take. Qed.

(** Scenario A of the description, followed by a second run on the same
    files: the first run writes the header and the one name that is not
    found, the second looks nothing up and leaves the files as they are. *)
Example alice_and_bob :
  let first := runs_on [([candidate "Alice Smith"; candidate "Bob Jones"], in_order)] in
  let second := runs_on [([candidate "Alice Smith"; candidate "Bob Jones"], in_order);
                         ([candidate "Alice Smith"; candidate "Bob Jones"], last_first)] in
  output_csv (now first)
  = Some [[py "name"; py "affiliation"]; [py "Bob Jones"; py "Somewhere"]]
  /\ log_file (now first)
     = Some (py "Alice Smith -> EXACT" ++ [LF] ++ py "Bob Jones -> NOT_FOUND" ++ [LF])
  /\ progress_file (now first) = Some (py "Alice Smith" ++ [LF] ++ py "Bob Jones" ++ [LF])
  /\ now second = now first
  /\ queried second = queried first.
Proof. vm_compute. auto. Qed.



(** C9, as stated, fails: an input that holds a name in two rows has both
    looked up in the same run, and each lookup adds a line. *)
Lemma progress_counts_repeated_names :
  length (progress_lines
            (now (runs_on [([candidate "Bob Jones"; candidate "Bob Jones"],
                            in_order)]))) = 2%nat
  /\ distinct (queried (runs_on [([candidate "Bob Jones"; candidate "Bob Jones"],
                                  in_order)])) = 1%nat.
Proof. vm_compute. auto. Qed.

Lemma progress_lines_count_witness :
  length (progress_lines
            (now (runs_on [([candidate "Alice Smith"; candidate "Bob Jones"], in_order);
                           ([candidate "Bob Jones"; candidate "Carol Lee";
                             candidate "Dan Roe"], last_first)])))
  = distinct (queried
                (runs_on [([candidate "Alice Smith"; candidate "Bob Jones"], in_order);
                          ([candidate "Bob Jones"; candidate "Carol Lee";
                            candidate "Dan Roe"], last_first)])).
Proof.
  refine (@progress_lines_count basic_latin DblpProps.dblp_urls none_only
            [([candidate "Alice Smith"; candidate "Bob Jones"], in_order);
             ([candidate "Bob Jones"; candidate "Carol Lee";
               candidate "Dan Roe"], last_first)] _ _).
  - repeat constructor;
      first [apply in_order_runs_to_end | apply last_first_runs_to_end].
  - constructor; [|constructor; [|constructor]];
      apply (bool_decide_unpack _); vm_compute; exact I.
Defined.


Example killed_then_resumed :
  names_of (now (runs_on [([candidate "Bob Jones"; candidate "Zed"; candidate "Bob Jones"], killed);
                          ([candidate "Zed"; candidate "Bob Jones"; candidate "Zed"], last_first)]))
  = [py "Bob Jones"; py "Zed"].
Proof. vm_compute. reflexivity. Qed.

End BatchProps.


(* ===================================================================== *)
(** * Further properties of the script *)
(* ===================================================================== *)

(** ** The two normalisations *)

Module StrMore.
Import StrProps.

(** X1: a name that holds no opening bracket, or no closing bracket, goes
    through [normalize_input_name] with only its ends stripped: an
    annotation that is not closed is kept. *)
Theorem normalize_input_name_no_segment (s : str) :
  ~ In LBRACKET s \/ ~ In RBRACKET s ->
  sub_brackets s = s /\ normalize_input_name s = strip s.
Proof.
  intros Hs.
  assert (Hsub : sub_brackets s = s); [|split; [exact Hsub|]].
  - induction s as [|c t IH]; rewrite sub_brackets_unfold,
      match_bracket_incomplete by exact Hs; [reflexivity|].
    rewrite IH; [reflexivity|]. simpl in Hs. tauto.
  - unfold normalize_input_name. now rewrite Hsub.
Qed.

Lemma normalize_input_name_no_segment_witness :
  normalize_input_name (py " Jane [0002 Doe ") = py "Jane [0002 Doe".
Proof.
  refine (eq_trans
    (proj2 (normalize_input_name_no_segment (py " Jane [0002 Doe ") _)) _).
  - right. vm_compute. intuition discriminate.
  - vm_compute. reflexivity.
Defined.

(** *** Only deletions *)

Lemma lstrip_suffix s : lstrip s `suffix_of` s.
Proof.
  destruct (lstrip_split s) as [w [Hs _]]. now exists w.
Qed.

Lemma match_tail_suffix s rest : match_tail s = Some rest -> rest `suffix_of` s.
Proof.
  revert rest; induction s as [|c t IH]; simpl; intros rest; [discriminate|].
  destruct (c =? RBRACKET).
  - intros [= <-]. now apply suffix_cons_r.
  - destruct (c =? LF); [discriminate|]. intros Hr%IH. now apply suffix_cons_r.
Qed.

Lemma match_bracket_suffix s rest :
  match_bracket s = Some rest -> rest `suffix_of` s.
Proof.
  unfold match_bracket. pose proof (lstrip_suffix s) as Hs.
  destruct (lstrip s) as [|c t]; [discriminate|].
  destruct (c =? LBRACKET); [|discriminate].
  destruct (match_tail t) as [r|] eqn:E; [|discriminate].
  intros [= <-]. apply match_tail_suffix in E.
  etrans; [apply lstrip_suffix|]. etrans; [exact E|].
  etrans; [|exact Hs]. now apply suffix_cons_r.
Qed.

Lemma suffix_is_sublist (l k : str) : l `suffix_of` k -> l `sublist_of` k.
Proof. intros [w ->]. now apply sublist_inserts_l. Qed.

Lemma prefix_is_sublist (l k : str) : l `prefix_of` k -> l `sublist_of` k.
Proof. intros [w ->]. now apply sublist_inserts_r. Qed.

Lemma sub_brackets_sublist s : sub_brackets s `sublist_of` s.
Proof.
  induction s as [s IH] using (well_founded_induction
    (well_founded_ltof _ (@length N))).
  rewrite sub_brackets_unfold.
  destruct (match_bracket s) as [rest|] eqn:E.
  - etrans; [apply IH; eapply match_bracket_length, E|].
    apply suffix_is_sublist. eapply match_bracket_suffix, E.
  - destruct s as [|c t]; [reflexivity|].
    apply sublist_skip, IH. unfold ltof. simpl. lia.
Qed.

Lemma rstrip_prefix s : rstrip s `prefix_of` s.
Proof.
  unfold rstrip. destruct (lstrip_suffix (rev s)) as [w Hw].
  exists (rev w). rewrite <- rev_app_distr, <- Hw. now rewrite rev_involutive.
Qed.

Lemma strip_sublist s : strip s `sublist_of` s.
Proof.
  unfold strip. etrans; [apply suffix_is_sublist, lstrip_suffix|].
  apply prefix_is_sublist, rstrip_prefix.
Qed.

(** X2: [normalize_input_name] only deletes: its result is a subsequence of
    the name it was given, and it has no whitespace at either end, so
    stripping it again (as a second application would) changes nothing. *)
Theorem normalize_input_name_only_deletes (s : str) :
  normalize_input_name s `sublist_of` s
  /\ trimmed (normalize_input_name s)
  /\ strip (normalize_input_name s) = normalize_input_name s.
Proof.
  unfold normalize_input_name. split; [|split].
  - etrans; [apply strip_sublist | apply sub_brackets_sublist].
  - apply strip_trimmed.
  - apply strip_idem.
Qed.

(** *** What [canonicalize] returns, and what it does not look at *)

Lemma single_spaced_spaces b s c :
  single_spaced b s = true -> In c s -> isspace c = true -> c = SPACE.
Proof.
  revert b; induction s as [|d t IH]; intros b Hs Hin Hc; [destruct Hin|].
  simpl in Hs. destruct Hin as [->|Hin].
  - rewrite Hc in Hs.
    apply andb_prop in Hs as [[_ Hd%N.eqb_eq]%andb_prop _]. exact Hd.
  - destruct (isspace d); [apply andb_prop in Hs as [_ Hs]|]; eauto.
Qed.

Lemma ascii_lower_not_upper c : ~ (65 <= ascii_lower c <= 90).
Proof.
  unfold ascii_lower.
  destruct ((65 <=? c) && (c <=? 90)) eqn:E.
  - apply andb_prop in E as [H1 H2]. apply N.leb_le in H1, H2. lia.
  - apply andb_false_iff in E as [E|E]; apply N.leb_gt in E; lia.
Qed.

Section CanonicalizeMore.
Context `{UnicodeData}.

(** X3: on ASCII text [canonicalize] returns ASCII text with no period, no
    capital letter, no whitespace at either end, and no whitespace
    character other than the space. *)
Theorem canonicalize_shape (s : str) :
  is_ascii s = true ->
  is_ascii (canonicalize s) = true
  /\ has_dot (canonicalize s) = false
  /\ trimmed (canonicalize s)
  /\ forall c, In c (canonicalize s) ->
       ~ (65 <= c <= 90) /\ (isspace c = true -> c = SPACE).
Proof.
  intros Hs.
  split; [now apply canonicalize_is_ascii|].
  split; [now apply canonicalize_no_dot|].
  rewrite canonicalize_ascii by exact Hs.
  split; [apply strip_trimmed|].
  intros c Hc%strip_In.
  apply in_map_iff in Hc as [d [<- [Hd _]%remove_dots_In]].
  split; [apply ascii_lower_not_upper|].
  rewrite isspace_ascii_lower. intros Hsp.
  rewrite (single_spaced_spaces false (sub_spaces s) d); auto.
  apply sub_spaces_single_spaced.
Qed.

(** *** Case and surrounding whitespace *)

Lemma sub_spaces_map_lower b s :
  sub_spaces_from b (List.map ascii_lower s)
  = List.map ascii_lower (sub_spaces_from b s).
Proof.
  revert b; induction s as [|c t IH]; intros b; simpl; [reflexivity|].
  rewrite isspace_ascii_lower.
  destruct (isspace c); [destruct b|]; simpl; now rewrite IH.
Qed.

Lemma remove_dots_map_lower s :
  remove_dots (List.map ascii_lower s) = List.map ascii_lower (remove_dots s).
Proof.
  unfold remove_dots. induction s as [|c t IH]; simpl; [reflexivity|].
  assert (Hc : (ascii_lower c =? DOT) = (c =? DOT)).
  { destruct (N.eqb_spec c DOT) as [->|Hne]; [reflexivity|].
    apply N.eqb_neq. intros Heq%ascii_lower_dot. contradiction. }
  rewrite Hc. destruct (c =? DOT); simpl; now rewrite IH.
Qed.

Lemma is_ascii_map_lower s :
  is_ascii s = true -> is_ascii (List.map ascii_lower s) = true.
Proof.
  rewrite !is_ascii_spec. intros Hs c [d [<- Hd]]%in_map_iff.
  apply ascii_lower_bound. auto.
Qed.

Lemma strip_space_cons s : strip (SPACE :: s) = strip s.
Proof.
  unfold strip. rewrite rstrip_cons.
  destruct (rstrip s); reflexivity.
Qed.

Lemma strip_space_snoc s : strip (s ++ [SPACE]) = strip s.
Proof. unfold strip, rstrip. now rewrite rev_app_distr. Qed.

Lemma sub_spaces_leading c s :
  isspace c = true ->
  sub_spaces s = sub_spaces_from true s
  \/ sub_spaces s = SPACE :: sub_spaces_from true s.
Proof.
  intros _. unfold sub_spaces. destruct s as [|d t]; simpl; [now left|].
  destruct (isspace d); [now right | now left].
Qed.

Lemma sub_spaces_trailing b s c :
  isspace c = true ->
  sub_spaces_from b (s ++ [c]) = sub_spaces_from b s
  \/ sub_spaces_from b (s ++ [c]) = (sub_spaces_from b s ++ [SPACE])%list.
Proof.
  intros Hc. revert b; induction s as [|d t IH]; intros b; simpl.
  - rewrite Hc. destruct b; [now left | now right].
  - destruct (isspace d); [destruct b|];
      (destruct (IH true) as [-> | ->] || destruct (IH false) as [-> | ->]);
      auto.
Qed.

Lemma canonicalize_leading c s :
  is_ascii (c :: s) = true -> isspace c = true ->
  canonicalize (c :: s) = canonicalize s.
Proof.
  intros Hcs Hc.
  assert (Hs : is_ascii s = true) by (simpl in Hcs; now apply andb_prop in Hcs).
  rewrite !canonicalize_ascii by assumption.
  unfold sub_spaces at 1. simpl. rewrite Hc.
  change (remove_dots (SPACE :: ?x)) with (SPACE :: remove_dots x).
  cbn [List.map]. change (ascii_lower SPACE) with SPACE.
  rewrite strip_space_cons.
  destruct (sub_spaces_leading c s Hc) as [-> | ->]; [reflexivity|].
  change (remove_dots (SPACE :: ?x)) with (SPACE :: remove_dots x).
  cbn [List.map]. change (ascii_lower SPACE) with SPACE.
  now rewrite strip_space_cons.
Qed.

Lemma canonicalize_trailing c s :
  is_ascii (s ++ [c]) = true -> isspace c = true ->
  canonicalize (s ++ [c]) = canonicalize s.
Proof.
  intros Hsc Hc.
  assert (Hs : is_ascii s = true).
  { apply is_ascii_spec. intros d Hd.
    apply (proj1 (is_ascii_spec _) Hsc). apply in_or_app. now left. }
  rewrite !canonicalize_ascii by assumption. unfold sub_spaces.
  destruct (sub_spaces_trailing false s c Hc) as [-> | ->]; [reflexivity|].
  unfold remove_dots. rewrite List.filter_app. simpl.
  rewrite List.map_app. simpl. change (ascii_lower SPACE) with SPACE.
  now rewrite strip_space_snoc.
Qed.

(** X4: on ASCII text [canonicalize] looks neither at the case of the
    letters nor at whitespace around the text: two strings that agree once
    lowered have the same canonical form, and so do a string and the same
    string with whitespace before and after it. *)
Theorem canonicalize_ignores_case_and_margins (s t w1 w2 : str) :
  is_ascii s = true -> is_ascii t = true ->
  is_ascii w1 = true -> is_ascii w2 = true ->
  forallb isspace w1 = true -> forallb isspace w2 = true ->
  (List.map ascii_lower s = List.map ascii_lower t ->
   canonicalize s = canonicalize t)
  /\ canonicalize (w1 ++ s ++ w2) = canonicalize s.
Proof.
  intros Hs Ht Hw1 Hw2 Hsp1 Hsp2. split.
  - assert (Hlow : forall x, is_ascii x = true ->
               canonicalize x = canonicalize (List.map ascii_lower x)).
    { intros x Hx.
      rewrite !canonicalize_ascii by (try apply is_ascii_map_lower; exact Hx).
      unfold sub_spaces. rewrite sub_spaces_map_lower, remove_dots_map_lower.
      f_equal. rewrite List.map_map.
      apply map_ext. intros c. now rewrite ascii_lower_idem. }
    intros Heq. rewrite (Hlow s Hs), (Hlow t Ht). now rewrite Heq.
  - assert (Hright : canonicalize (s ++ w2) = canonicalize s).
    { clear Hw1 Hsp1. induction w2 as [|c w2 IH] using rev_ind.
      - now rewrite app_nil_r.
      - rewrite forallb_app in Hsp2. apply andb_prop in Hsp2 as [Hsp2 Hc].
        simpl in Hc. rewrite andb_true_r in Hc.
        assert (Hw2' : is_ascii w2 = true).
        { apply is_ascii_spec. intros d Hd.
          apply (proj1 (is_ascii_spec _) Hw2). apply in_or_app. now left. }
        assert (Hc' : c < 128).
        { apply (proj1 (is_ascii_spec _) Hw2). apply in_or_app. right. now left. }
        rewrite app_assoc, canonicalize_trailing; [now apply IH | | exact Hc].
        apply is_ascii_spec. intros d Hd.
        apply in_app_or in Hd as [Hd | [<- | []]]; [|exact Hc'].
        apply in_app_or in Hd as [Hd | Hd];
          [apply (proj1 (is_ascii_spec _) Hs) | apply (proj1 (is_ascii_spec _) Hw2')];
          exact Hd. }
    rewrite <- Hright.
    assert (Hsw : is_ascii (s ++ w2) = true).
    { apply is_ascii_spec. intros d Hd.
      apply in_app_or in Hd as [Hd | Hd];
        [apply (proj1 (is_ascii_spec _) Hs) | apply (proj1 (is_ascii_spec _) Hw2)];
        exact Hd. }
    generalize dependent (s ++ w2)%list. intros x _ Hx. clear Hsp2 Hw2.
    induction w1 as [|c w1 IH]; [reflexivity|].
    simpl in Hw1, Hsp1.
    apply andb_prop in Hw1 as [Hc1 Hw1]. apply andb_prop in Hsp1 as [Hc Hsp1].
    cbn [app]. rewrite canonicalize_leading; [now apply IH | | exact Hc].
    simpl. rewrite Hc1. simpl.
    apply is_ascii_spec. intros d Hd.
    apply in_app_or in Hd as [Hd | Hd];
      [apply (proj1 (is_ascii_spec _) Hw1) | apply (proj1 (is_ascii_spec _) Hx)];
      exact Hd.
Qed.

End CanonicalizeMore.

Lemma canonicalize_shape_witness :
  forallb (fun c => negb ((65 <=? c) && (c <=? 90)))
    (@canonicalize basic_latin (py "  Dr. J. R. R.   TOLKIEN ")) = true.
Proof.
  apply forallb_forall. intros c Hc.
  destruct (proj2 (proj2 (proj2
    (@canonicalize_shape basic_latin (py "  Dr. J. R. R.   TOLKIEN ") eq_refl)))
    c Hc) as [Hup _].
  apply negb_true_iff, andb_false_iff.
  destruct (N.leb_spec 65 c); [|now left].
  destruct (N.leb_spec c 90); [lia | now right].
Defined.

Lemma canonicalize_ignores_case_and_margins_witness :
  @canonicalize basic_latin (py "ALICE Smith") = canonicalize (py "alice smith")
  /\ @canonicalize basic_latin (py "  " ++ py "ALICE Smith" ++ py " ")
     = canonicalize (py "ALICE Smith").
Proof.
  destruct (@canonicalize_ignores_case_and_margins basic_latin
              (py "ALICE Smith") (py "alice smith") (py "  ") (py " ")
              eq_refl eq_refl eq_refl eq_refl eq_refl eq_refl) as [Hcase Hmargin].
  split; [apply Hcase; reflexivity | exact Hmargin].
Defined.

End StrMore.


(** ** The lookup of one name *)

Module DblpMore.
Import Dblp DblpProps.




(** The person record of an identifier, and the ways fetching it can fail. *)
Definition xml_url (pid_path : str) : str :=
  (py "https://dblp.org/pid/" ++ pid_path ++ py ".xml")%list.


Section Lookup.
Context `{UnicodeData} `{UrlLib} (net : remote).




(** An [<author>] element below the root that carries the identifier and
    whose text is the query, up to [canonicalize]. *)
Definition names_query (pid_path q : str) (author : element) : Prop :=
  tag_of author = py "author"
  /\ assoc (py "pid") (attrib_of author) = Some pid_path
  /\ canonicalize (default [] (text_of author)) = canonicalize q.

(** X7: when the person record is fetched and parsed, [has_alias_match]
    holds exactly when some [author] element below the root carries the
    identifier of the URL as its [pid] and has the query as its text, up to
    [canonicalize]; an element without [pid], with another [pid], or
    without text equal to the query does not count. *)
Theorem has_alias_match_spec (dblp_pid_url : json) (q p : str)
    (r : response element) (root : element) :
  extract_pid_path dblp_pid_url = Some p -> p <> [] ->
  pid_record net (xml_url p) = Ok r ->
  ~ (400 <= status_code r < 600)%Z ->
  parsed r = Ok root ->
  has_alias_match net dblp_pid_url q = true
  <-> exists author, In author (descendants root) /\ names_query p q author.
Proof.
  intros Hp Hne Hr Hs Hroot. unfold has_alias_match. rewrite Hp.
  destruct p as [|c p]; [congruence|].
  unfold alias_lookup. fold (xml_url (c :: p)). rewrite Hr.
  cbn [mbind result_bind]. unfold raise_for_status.
  replace ((400 <=? status_code r)%Z && (status_code r <? 600)%Z) with false.
  2:{ symmetry. apply andb_false_iff.
      destruct (Z.leb_spec 400 (status_code r)); [|now left].
      destruct (Z.ltb_spec (status_code r) 600); [lia | now right]. }
  cbn [mbind result_bind]. rewrite Hroot. cbn [mbind result_bind].
  rewrite existsb_exists. unfold findall_below, names_query, str_eqb.
  split.
  - intros (author & [Hin Htag]%filter_In & Hmatch).
    exists author. split; [exact Hin|].
    apply bool_decide_eq_true in Htag. split; [exact Htag|].
    destruct (assoc (py "pid") (attrib_of author)) as [pid|]; [|discriminate].
    apply andb_prop in Hmatch as [Hpid Htext].
    apply bool_decide_eq_true in Hpid, Htext. now subst.
  - intros (author & Hin & Htag & Hpid & Htext).
    exists author. split.
    + apply filter_In. split; [exact Hin | now apply bool_decide_eq_true].
    + rewrite Hpid. apply andb_true_intro.
      split; now apply bool_decide_eq_true.
Qed.

(** *** Answers without hits, and hits that cannot be read *)

(** An answer that holds no hit: the object has no "result", or that has
    no "hits", or that has no "hit", or "hit" is an empty list. *)
Inductive no_hits : json -> Prop :=
  | no_result items :
      assoc (py "result") items = None -> no_hits (JDict items)
  | no_hits_key items result :
      assoc (py "result") items = Some (JDict result) ->
      assoc (py "hits") result = None -> no_hits (JDict items)
  | no_hit_key items result hits :
      assoc (py "result") items = Some (JDict result) ->
      assoc (py "hits") result = Some (JDict hits) ->
      assoc (py "hit") hits = None -> no_hits (JDict items)
  | empty_hit items result hits :
      assoc (py "result") items = Some (JDict result) ->
      assoc (py "hits") result = Some (JDict hits) ->
      assoc (py "hit") hits = Some (JList []) -> no_hits (JDict items).

Definition answered (net : remote) (q : str) (data : json) : Prop :=
  exists r, search_author net q = Ok r
            /\ status_code r <> 429%Z
            /\ ~ (400 <= status_code r < 600)%Z
            /\ parsed r = Ok data.

Lemma search_hits_answered q data :
  answered net q data ->
  search_hits net q =
    (result ← py_get data "result" (JDict []);
     hits ← py_get result "hits" (JDict []);
     hit ← py_get hits "hit" (JList []);
     py_iter hit).
Proof.
  intros (r & Hr & H429 & Hs & Hdata). unfold search_hits. rewrite Hr.
  cbn [mbind result_bind].
  destruct (Z.eqb_spec (status_code r) 429); [contradiction|].
  unfold raise_for_status.
  replace ((400 <=? status_code r)%Z && (status_code r <? 600)%Z) with false.
  2:{ symmetry. apply andb_false_iff.
      destruct (Z.leb_spec 400 (status_code r)); [|now left].
      destruct (Z.ltb_spec (status_code r) 600); [lia | now right]. }
  cbn [mbind result_bind]. now rewrite Hdata.
Qed.

(** X8: when the search is answered with an object that lacks the key
    "result", or "hits" inside it, or "hit" inside that, or whose "hit" is
    an empty list, the defaults of the three [get] calls apply and the
    verdict is NOT_FOUND, not ERROR. *)
Theorem dblp_author_search_no_hits (name : str) (data : json) :
  answered net (normalize_input_name name) data -> no_hits data ->
  dblp_author_search net name = (name, py "NOT_FOUND").
Proof.
  intros Hans Hdata. unfold dblp_author_search, search_and_classify.
  rewrite (search_hits_answered _ data Hans).
  unfold py_get.
  destruct Hdata as [items Hr | items result Hr Hh | items result hits Hr Hh Hi
                    | items result hits Hr Hh Hi];
    cbn [mbind result_bind]; rewrite Hr; cbn [default from_option id mbind result_bind];
    try reflexivity;
    rewrite Hh; cbn [default from_option id mbind result_bind];
    try reflexivity;
    rewrite Hi; reflexivity.
Qed.

Lemma scan_hits_malformed_head normalized canon_query hit rest fe fa :
  hit_fields hit = None ->
  exists e, scan_hits net normalized canon_query (hit :: rest) fe fa = Raise e.
Proof.
  unfold hit_fields. intros E. cbn [scan_hits].
  unfold py_get, mbind, result_bind, raise.
  destruct hit as [| | | | |?|items]; eauto.
  destruct (default (JDict []) (assoc (py "info") items))
    as [| | | | |?|info]; eauto.
  unfold canonicalize_obj, raise.
  destruct (default (JStr []) (assoc (py "author") info))
    as [| | | |author_name|?|?]; eauto. discriminate.
Qed.

Lemma scan_hits_malformed normalized canon_query hits fe fa :
  forallb well_formed hits = false ->
  exists e, scan_hits net normalized canon_query hits fe fa = Raise e.
Proof.
  revert fe fa; induction hits as [|hit rest IH]; intros fe fa; [discriminate|].
  cbn [forallb]. unfold well_formed at 1.
  destruct (hit_fields hit) as [[a u]|] eqn:E.
  - intros Hrest. cbn [andb] in Hrest.
    rewrite (scan_hits_cons _ _ _ _ _ _ _ a u E).
    destruct (str_eqb _ _); [now apply IH|].
    destruct (truthy u && _); now apply IH.
  - intros _. now apply scan_hits_malformed_head.
Qed.


(** X10: one hit that cannot be read (not an object, or with an "info"
    that is not an object, or an "author" that is not text) makes the
    verdict ERROR, even when another hit of the same answer matches
    exactly. *)
Theorem dblp_author_search_malformed_hit (name : str) (hits : list json) :
  search_hits net (normalize_input_name name) = Ok hits ->
  forallb well_formed hits = false ->
  dblp_author_search net name = (name, py "ERROR").
Proof.
  intros Hhits Hwf. unfold dblp_author_search, search_and_classify.
  rewrite Hhits. cbn [mbind result_bind].
  destruct (scan_hits_malformed (normalize_input_name name)
              (canonicalize (normalize_input_name name)) hits false false Hwf)
    as [e ->].
  reflexivity.
Qed.

End Lookup.


(** *** Worked cases *)


Definition bare_net : remote :=
  {| search_author := fun _ => Ok {| status_code := 200; parsed := Ok (JDict []) |};
     pid_record := fun _ => raise RequestException "timed out" |}.

Definition broken_net : remote :=
  {| search_author := fun _ =>
       Ok (answer [hit "Alice Smith" "https://dblp.org/pid/01/1"; JNull]);
     pid_record := fun _ => raise RequestException "timed out" |}.


Lemma has_alias_match_spec_witness :
  @has_alias_match basic_latin dblp_urls example_net
    (JStr (py "https://dblp.org/pid/90/9")) (py "Dan Roe") = true
  <-> exists author,
        In author
          (descendants
             (Element (py "dblpperson") [] None
                [Element (py "person") [] None
                   [Element (py "author") [(py "pid", py "90/9")]
                      (Some (py "Daniel Roe")) [];
                    Element (py "author") [(py "pid", py "90/9")]
                      (Some (py "Dan Roe")) []]]))
        /\ @names_query basic_latin (py "90/9") (py "Dan Roe") author.
Proof.
  apply (@has_alias_match_spec basic_latin dblp_urls example_net
           (JStr (py "https://dblp.org/pid/90/9")) (py "Dan Roe") (py "90/9")
           (person "90/9" ["Daniel Roe"%string; "Dan Roe"%string])).
  - reflexivity.
  - discriminate.
  - vm_compute. reflexivity.
  - cbn. lia.
  - reflexivity.
Defined.

Lemma dblp_author_search_no_hits_witness :
  @dblp_author_search basic_latin dblp_urls bare_net (py "Bob Jones [0001]")
  = (py "Bob Jones [0001]", py "NOT_FOUND").
Proof.
  apply (@dblp_author_search_no_hits basic_latin dblp_urls bare_net
           (py "Bob Jones [0001]") (JDict [])).
  - eexists. split; [reflexivity|]. cbn. repeat split; lia || discriminate.
  - apply no_result. reflexivity.
Defined.


Lemma dblp_author_search_malformed_hit_witness :
  @dblp_author_search basic_latin dblp_urls broken_net (py "Alice Smith")
  = (py "Alice Smith", py "ERROR").
Proof.
  apply (@dblp_author_search_malformed_hit basic_latin dblp_urls broken_net
           (py "Alice Smith")
           [hit "Alice Smith" "https://dblp.org/pid/01/1"; JNull]);
    vm_compute; reflexivity.
Defined.

End DblpMore.


(** ** The loop, the files and repeated runs *)

Module BatchMore.
Import Dblp Batch PID BatchProps.

(** *** Counters and sleeps *)

(** A result that the loop counts as an error whatever the row: the
    verdict ERROR, or an exception out of [future.result()]. *)
Definition counts_as_error (item : future_result * row) : bool :=
  match item.1 with
  | Returned (_, verdict) => str_eqb verdict (py "ERROR")
  | Raised _ => true
  end.

Definition is_not_found (item : future_result * row) : bool :=
  match item.1 with
  | Returned (_, verdict) => str_eqb verdict (py "NOT_FOUND")
  | Raised _ => false
  end.

(** A result whose row the writer cannot take: the verdict is NOT_FOUND
    and the row has a key outside the field names.  The loop counts it as
    an error when it comes to write the row. *)
Definition refusable (fieldnames : list key) (item : future_result * row) : bool :=
  is_not_found item && negb (accepted fieldnames item.2).

Definition errors_among (items : list (future_result * row)) : Z :=
  Z.of_nat (length (List.filter counts_as_error items)).

Definition refusable_among (fieldnames : list key)
    (items : list (future_result * row)) : Z :=
  Z.of_nat (length (List.filter (refusable fieldnames) items)).

Section Loop.
Context `{CsvLib}.

Lemma refuses_row_refusable fn r fut b :
  refuses_row fn r fut b = true -> refusable fn (fut, r) = true.
Proof.
  unfold refuses_row, refusable, wanted, is_not_found.
  destruct fut as [[n v]|e]; cbn [fst snd]; [|discriminate].
  intros [[-> _]%andb_prop ->]%andb_prop. reflexivity.
Qed.

Lemma refuses_row_not_error fn r fut b :
  refuses_row fn r fut b = true -> counts_as_error (fut, r) = false.
Proof.
  unfold refuses_row, wanted, counts_as_error.
  destruct fut as [[n v]|e]; cbn [fst snd]; [|discriminate].
  intros [[Hv _]%andb_prop _]%andb_prop.
  apply bool_decide_eq_true in Hv. subst v. reflexivity.
Qed.

(** What the [try] and its handler do to the counters. *)
Lemma output_result_counters fn r fut b :
  total_requests (output_result fn r fut b) = total_requests b
  /\ total_errors (output_result fn r fut b)
     = (total_errors b
        + if counts_as_error (fut, r) || refuses_row fn r fut b then 1 else 0)%Z
  /\ slept (output_result fn r fut b) = slept b
  /\ pid_controller (output_result fn r fut b) = pid_controller b.
Proof.
  unfold refuses_row, accepted, counts_as_error, wanted.
  destruct fut as [[n v]|e]; cbn [output_result fst snd].
  - destruct (str_eqb v (py "NOT_FOUND")) eqn:Hnf.
    + apply bool_decide_eq_true in Hnf. subst v.
      replace (str_eqb (py "NOT_FOUND") (py "ERROR")) with false by reflexivity.
      cbn [andb orb].
      destruct (negb (bool_decide (n ∈ already_output b)));
        [destruct (wrong_fields fn r)|]; cbn; repeat split; lia.
    + cbn [andb]. rewrite orb_false_r.
      destruct (str_eqb v (py "ERROR")); cbn; repeat split; lia.
  - cbn. repeat split.
Qed.

Lemma handle_errors fn b fut r :
  total_errors (handle fn b (fut, r))
  = (total_errors b
     + if counts_as_error (fut, r) || refuses_row fn r fut b then 1 else 0)%Z.
Proof.
  destruct (output_result_counters fn r fut (log_result r fut b))
    as (_ & He & _).
  destruct (log_result_output r fut b) as (_ & _ & Hao).
  assert (Hw : refuses_row fn r fut (log_result r fut b) = refuses_row fn r fut b)
    by (unfold refuses_row, wanted; now rewrite Hao).
  rewrite Hw in He.
  replace (total_errors (log_result r fut b)) with (total_errors b) in He
    by (destruct fut as [[n v]|e]; reflexivity).
  rewrite <- He. unfold handle, pace.
  destruct (0 <? _)%Z; [destruct (update _ _)|]; reflexivity.
Qed.

Lemma handle_counters fn b item :
  (0 <= total_requests b)%Z ->
  total_requests (handle fn b item) = (total_requests b + 1)%Z
  /\ total_errors (handle fn b item)
     = (total_errors b
        + if counts_as_error item || refuses_row fn item.2 item.1 b
          then 1 else 0)%Z
  /\ exists t, slept (handle fn b item) = t :: slept b
               /\ (0.1 <=? t)%float = true.
Proof.
  destruct item as [fut r]. intros Hreq.
  split; [|split; [apply handle_errors|]]; unfold handle, pace; cbn [fst snd];
    destruct (output_result_counters fn r fut (log_result r fut b))
      as (Hr & _ & Hs & _);
    cbn [record_progress count_request add_seen write_progress on_disk
         total_requests total_errors slept pid_controller];
    rewrite Hr;
    replace (total_requests (log_result r fut b)) with (total_requests b)
      by (destruct fut as [[n v]|e]; reflexivity);
    (destruct (Z.ltb_spec 0 (total_requests b + 1)) as [_|]; [|lia]);
    destruct (update _ _) as [pid adj]; cbn; [reflexivity|].
  exists (sleep_time adj). split; [|apply PIDProps.sleep_time_floor].
  rewrite Hs. destruct fut as [[n v]|e]; reflexivity.
Qed.

Lemma handle_already_output fn b fut r :
  already_output (handle fn b (fut, r))
  = (if writes_row fn r fut b then {[ result_name r fut ]} ∪ already_output b
     else already_output b)
  /\ output_csv (disk (handle fn b (fut, r)))
     = (if writes_row fn r fut b
        then append (output_csv (disk b)) [get r <$> fn]
        else output_csv (disk b)).
Proof.
  unfold handle. rewrite pace_disk, pace_already_output.
  destruct (record_progress_output r fut
              (output_result fn r fut (log_result r fut b))) as (-> & -> & _).
  destruct (output_result_output fn r fut (log_result r fut b)) as (-> & -> & _).
  destruct (log_result_output r fut b) as (-> & _ & Hao).
  assert (Hw : writes_row fn r fut (log_result r fut b) = writes_row fn r fut b)
    by (unfold writes_row, wanted; now rewrite Hao).
  now rewrite Hw, Hao.
Qed.

Lemma foldl_handle_counters fn b items :
  (0 <= total_requests b)%Z ->
  total_requests (foldl (handle fn) b items)
    = (total_requests b + Z.of_nat (length items))%Z
  /\ (total_errors b + errors_among items
      <= total_errors (foldl (handle fn) b items)
      <= total_errors b + errors_among items + refusable_among fn items)%Z
  /\ exists ts, slept (foldl (handle fn) b items) = (ts ++ slept b)%list
                /\ length ts = length items
                /\ Forall (fun t => (0.1 <=? t)%float = true) ts.
Proof.
  revert b; induction items as [|item items IH]; intros b Hb.
  - cbn. unfold errors_among, refusable_among. cbn. repeat split; try lia.
    exists []. repeat split. constructor.
  - destruct (handle_counters fn b item Hb) as (Hr & He & t & Hs & Ht).
    destruct (IH (handle fn b item)) as (IHr & IHe & ts & IHs & IHl & IHf);
      [lia|].
    cbn [foldl]. rewrite IHr, IHs, Hr, Hs. rewrite He in IHe.
    unfold errors_among, refusable_among in *. cbn [List.filter length].
    split; [lia|]. split.
    + destruct (counts_as_error item) eqn:Hc; cbn [orb] in IHe.
      * destruct (refusable fn item); cbn [length]; lia.
      * destruct (refuses_row fn item.2 item.1 b) eqn:Hw.
        -- destruct item as [fut r].
           rewrite (refuses_row_refusable fn r fut b Hw). cbn [length]. lia.
        -- destruct (refusable fn item); cbn [length]; lia.
    + exists (ts ++ [t])%list. rewrite <- app_assoc. split; [reflexivity|].
      split; [rewrite length_app; cbn; lia|].
      apply Forall_app. split; [exact IHf | now constructor].
Qed.

(** With names that are all different and none of them in
    [already_output], every row the writer cannot take is refused. *)
Lemma foldl_handle_errors_exact fn b items :
  Forall from_lookup items ->
  NoDup ((fun item => name item.2) <$> items) ->
  Forall (fun item => name item.2 ∉ already_output b) items ->
  total_errors (foldl (handle fn) b items)
  = (total_errors b + errors_among items + refusable_among fn items)%Z.
Proof.
  intros Hitems. revert b.
  induction Hitems as [|[fut r] items [v Hv] _ IH]; intros b Hnames Hnew.
  - cbn. unfold errors_among, refusable_among. cbn. lia.
  - cbn in Hv. subst fut. cbn [foldl fmap list_fmap snd] in *.
    apply NoDup_cons in Hnames as [Hr Hnames].
    apply Forall_cons in Hnew as [Hrnew Hnew]. cbn [snd] in Hrnew.
    rewrite IH; [|exact Hnames|].
    + rewrite handle_errors. unfold errors_among, refusable_among.
      cbn [List.filter].
      assert (Hw : refuses_row fn r (Returned (name r, v)) b
                   = refusable fn (Returned (name r, v), r)).
      { unfold refuses_row, refusable, wanted, is_not_found. cbn [fst snd].
        rewrite (bool_decide_eq_false_2 _ Hrnew). cbn [negb].
        now rewrite andb_true_r. }
      rewrite Hw.
      destruct (counts_as_error _) eqn:Hc; cbn [orb].
      * assert (Hx : refusable fn (Returned (name r, v), r) = false).
        { unfold counts_as_error, refusable, is_not_found in *. cbn [fst snd] in *.
          apply bool_decide_eq_true in Hc. subst v. reflexivity. }
        rewrite Hx. cbn [length]. lia.
      * destruct (refusable fn _); cbn [length]; lia.
    + destruct (handle_already_output fn b (Returned (name r, v)) r) as [-> _].
      apply Forall_forall. intros item Hin.
      rewrite Forall_forall in Hnew. specialize (Hnew item Hin).
      cbn [result_name].
      destruct (writes_row _ _ _ _); [|exact Hnew].
      intros [Heq%elem_of_singleton | Hn]%elem_of_union; [|auto].
      apply Hr, list_elem_of_fmap. exists item. split; [now symmetry | exact Hin].
Qed.

(** X11: when the loop of [process_batch] has gone through its results,
    [total_requests] is their number; [total_errors] counts the ERROR
    verdicts and the exceptions of the lookups, and besides them only
    NOT_FOUND results whose row the writer refuses, each result at most
    once, so the error rate fed to the controller lies between 0 and 1;
    when the names are all different and not yet in [already_output], every
    row the writer cannot take is counted; and the loop has slept once per
    result, never less than 0.1 s. *)
Theorem process_batch_counters (fn : list key) (fs : files)
    (seen already_output : gset str)
    (pid : PIDController float) (items : list (future_result * row)) :
  let b := drain fn Finished (start fs seen already_output pid) items in
  total_requests b = Z.of_nat (length items)
  /\ (errors_among items <= total_errors b
      <= errors_among items + refusable_among fn items)%Z
  /\ (Forall from_lookup items ->
      NoDup ((fun item => name item.2) <$> items) ->
      Forall (fun item => name item.2 ∉ already_output) items ->
      total_errors b = (errors_among items + refusable_among fn items)%Z)
  /\ (0 <= total_errors b <= total_requests b)%Z
  /\ length (slept b) = length items
  /\ Forall (fun t => (0.1 <=? t)%float = true) (slept b).
Proof.
  cbn zeta. rewrite drain_finished.
  destruct (foldl_handle_counters fn (start fs seen already_output pid) items)
    as (Hr & He & ts & Hs & Hl & Hf); [cbn; lia|].
  cbn [start total_requests total_errors slept] in Hr, He, Hs.
  rewrite Hr, Hs, app_nil_r.
  assert (Hdisjoint : (errors_among items + refusable_among fn items
                       <= Z.of_nat (length items))%Z).
  { unfold errors_among, refusable_among.
    clear. induction items as [|[fut r] items IH]; [cbn; lia|].
    cbn [List.filter length].
    assert (Hx : counts_as_error (fut, r) = true ->
                 refusable fn (fut, r) = false).
    { unfold counts_as_error, refusable, is_not_found. cbn [fst snd].
      destruct fut as [[n v]|e]; [|reflexivity].
      intros Hv. apply bool_decide_eq_true in Hv. subst v. reflexivity. }
    destruct (counts_as_error (fut, r)); [rewrite Hx by reflexivity|];
      destruct (refusable fn (fut, r)); cbn [length]; lia. }
  repeat split; try lia; try assumption.
  - intros Hitems Hnames Hnew.
    rewrite (foldl_handle_errors_exact fn (start fs seen already_output pid)
               items Hitems Hnames Hnew).
    cbn. lia.
  - unfold errors_among in He. lia.
Qed.

(** *** The log and the progress file of a run, killed or not *)













(** *** What a run adds to the output file *)





Section Run.
Context `{UnicodeData} `{UrlLib}.



(** *** Names the progress file cannot hold *)

Lemma load_seen_stripped fs n : n ∈ load_seen fs -> n <> [] /\ strip n = n.
Proof.
  rewrite load_seen_text. unfold stripped_lines.
  intros Hn. apply elem_of_list_to_set, list_elem_of_filter in Hn as [Hne Hl].
  apply list_elem_of_fmap in Hl as [l [-> _]].
  split; [exact Hne | apply StrProps.strip_idem].
Qed.

(** X14: the names read from the progress file are stripped and not empty;
    so a row whose name is empty, or has whitespace at an end, is never
    found there, whatever the progress file holds, and it is looked up in
    every run that gets as far as the lookups.  The only runs that do not
    are those that end with a [KeyError] while they read the output file:
    they look nothing up. *)
Theorem unstripped_name_looked_up_again
    (fs : files) (input : list row) (s : schedule) (r : row) :
  r ∈ input ->
  (name r = [] \/ strip (name r) <> name r) ->
  (name r ∉ load_seen fs)
  /\ match load_already_output fs with
     | Ok _ => name r ∈ (find_missing_names fs input s).2
     | Raise _ => (find_missing_names fs input s).2 = []
     end.
Proof.
  intros Hr Hname.
  assert (Hseen : name r ∉ load_seen fs).
  { intros [Hne Hs]%load_seen_stripped. tauto. }
  split; [exact Hseen|].
  destruct (load_already_output fs) as [ao|e] eqn:Hao.
  - destruct input as [|r0 rows]; [inversion Hr|].
    rewrite (find_missing_names_cons _ _ _ _ ao Hao). cbn zeta. cbn [snd].
    rewrite process_batch_queried.
    apply list_elem_of_fmap. exists r. split; [reflexivity|].
    apply list_elem_of_filter. now split.
  - now rewrite (find_missing_names_raise _ _ _ e Hao).
Qed.

(** *** Running again on the same input *)

(** Both the output file and the log exist. *)
Definition opened (fs : files) : Prop :=
  is_Some (output_csv fs) /\ is_Some (log_file fs).

Lemma handle_last_opened fn c b item :
  opened (disk b) -> opened (disk (handle_last fn c b item)).
Proof.
  destruct item as [fut r]. intros [Hout Hlog].
  assert (Hlog1 : opened (disk (log_result r fut b))).
  { split.
    - now destruct (log_result_output r fut b) as (-> & _).
    - destruct fut as [[n v]|e]; cbn; eauto. }
  assert (Hout1 : opened (disk (output_result fn r fut (log_result r fut b)))).
  { destruct Hlog1 as [Ho Hl]. split.
    - destruct (output_result_output fn r fut (log_result r fut b)) as (-> & _).
      destruct (writes_row fn r fut _); [cbn; eauto | exact Ho].
    - unfold output_result.
      destruct fut as [[n v]|e]; cbn [log_result] in *;
        repeat match goal with
               | |- context [if ?c then _ else _] => destruct c
               | |- context [match ?c with [] => _ | _ :: _ => _ end] => destruct c
               end; cbn; eauto. }
  destruct c; cbn [handle_last handle]; [|exact Hlog1 | exact Hout1].
  rewrite pace_disk. exact Hout1.
Qed.

Lemma drain_opened fn c b items :
  opened (disk b) -> opened (disk (drain fn c b items)).
Proof.
  revert b; induction items as [|item rest IH]; intros b Hb; [exact Hb|].
  destruct rest as [|item2 rest]; [now apply handle_last_opened|].
  change (opened (disk (drain fn c (handle fn b item) (item2 :: rest)))).
  apply IH. destruct item as [fut r].
  exact (handle_last_opened fn Finished b (fut, r) Hb).
Qed.

Lemma open_for_append_opened fs input :
  opened fs -> open_for_append (write_header_if_missing fs input) = fs.
Proof.
  destruct fs as [p o l]. intros [[rows Ho] [text Hl]]. cbn in Ho, Hl. now subst.
Qed.

Lemma filter_all_seen (seen : gset str) (rows : list row) :
  Forall (fun r => name r ∈ seen) rows ->
  filter (fun r => name r ∉ seen) rows = [].
Proof.
  induction 1 as [|r rows Hr _ IH]; [reflexivity|].
  rewrite filter_cons_False by (intros Hn; now apply Hn). exact IH.
Qed.

(** X15: after a run that ended, on a progress file the script wrote and
    an input whose names are plain, running again on the same input looks
    nothing up and leaves the three files exactly as they are, whatever
    the second run's schedule. *)
Theorem rerun_changes_nothing
    (fs : files) (input : list row) (s1 s2 : schedule) (ns : list str) :
  progress_text fs = ledger ns ->
  Forall (fun n => plain n = true) ns ->
  Forall (fun r => plain (name r) = true) input ->
  runs_to_end s1 -> well_scheduled s2 ->
  find_missing_names (find_missing_names fs input s1).1 input s2
  = ((find_missing_names fs input s1).1, []).
Proof.
  intros Htext Hns Hinput Hs1 Hs2.
  destruct (load_already_output fs) as [ao|e] eqn:Hao.
  2:{ rewrite (find_missing_names_raise fs input s1 e Hao). cbn [fst].
      apply (find_missing_names_raise fs input s2 e Hao). }
  destruct input as [|r0 rows].
  { unfold find_missing_names. rewrite Hao. cbn [fst]. now rewrite Hao. }
  set (input := r0 :: rows) in *.
  set (fs1 := (find_missing_names fs input s1).1).
  destruct (load_already_output fs1) as [ao1|e1] eqn:Hao1;
    [|apply (find_missing_names_raise fs1 input s2 e1 Hao1)].
  set (h := {| now := fs; queried := ns |}).
  destruct (resume_in_step h ns (input, s1) ao Hao Hs1 Hinput)
    as (new & (Htext1 & Hplain1 & _) & Hnew & _ & Hseen).
  { split; [exact Htext|]. split; [exact Hns | reflexivity]. }
  rewrite resume_now in Htext1. cbn [fst snd h now] in Htext1, Hnew, Hseen.
  fold fs1 in Htext1.
  assert (Hseen1 : load_seen fs1 = list_to_set (ns ++ new)).
  { now rewrite load_seen_text, Htext1, stripped_lines_ledger. }
  assert (Hall : Forall (fun r => name r ∈ load_seen fs1) input).
  { apply Forall_forall. intros r Hr. rewrite Hseen1.
    apply elem_of_list_to_set, elem_of_app.
    destruct (decide (name r ∈ load_seen fs)) as [Hin|Hout].
    - left. rewrite Hseen in Hin. now apply elem_of_list_to_set in Hin.
    - right. rewrite Hnew. apply list_elem_of_fmap. exists r.
      split; [reflexivity|]. apply list_elem_of_filter. now split. }
  assert (Hopen : opened fs1).
  { unfold fs1, input. rewrite (find_missing_names_cons _ _ _ _ ao Hao). cbn zeta.
    unfold process_batch. cbn [fst]. apply drain_opened. cbn. split; eauto. }
  unfold input. rewrite (find_missing_names_cons _ _ _ _ ao1 Hao1). fold input.
  cbn zeta.
  rewrite process_batch_queried. unfold process_batch. cbn [fst].
  unfold submit. rewrite (filter_all_seen _ _ Hall). cbn [imap fmap list_fmap].
  assert (Hnone : as_completed s2 [] = []) by (apply submseteq_nil_r, Hs2).
  rewrite Hnone. cbn [drain start disk].
  now rewrite open_for_append_opened.
Qed.

(** *** The progress file, written and read back *)

Lemma lines_ledger_app names rest :
  Forall (fun n => plain n = true) names ->
  lines (ledger names ++ rest)
  = (((fun n => n ++ [LF]) <$> names) ++ lines rest)%list.
Proof.
  unfold lines, ledger.
  induction 1 as [|n names Hn _ IH]; [reflexivity|].
  cbn [fmap list_fmap concat]. rewrite <- !app_assoc. cbn [app].
  rewrite lines_from_line by apply (plain_spec n Hn).
  now rewrite IH.
Qed.

Lemma plain_fixed names :
  Forall (fun n => plain n = true) names ->
  filter (fun l => l <> []) (strip <$> ((fun n => n ++ [LF]) <$> names)) = names.
Proof.
  induction 1 as [|n names Hn _ IH]; [reflexivity|].
  cbn [fmap list_fmap]. rewrite strip_line.
  destruct (plain_spec n Hn) as (Hne & -> & _).
  rewrite filter_cons_True by exact Hne. now rewrite IH.
Qed.

(** X16: the names a run appends to the progress file are the names the
    next run reads back, as long as they are plain.  A name with a line
    feed inside comes back as two names, and a name with a space in front
    comes back without it: neither is recognised in the next run. *)
Theorem progress_file_round_trip (ns : list str) (a b : str) :
  Forall (fun n => plain n = true) ns ->
  plain a = true -> plain b = true ->
  stripped_lines (ledger ns) = ns
  /\ stripped_lines (ledger (ns ++ [a ++ LF :: b])) = (ns ++ [a; b])%list
  /\ stripped_lines (ledger (ns ++ [SPACE :: a])) = (ns ++ [a])%list.
Proof.
  intros Hns Ha Hb. split; [now apply stripped_lines_ledger|]. split.
  - replace (ledger (ns ++ [a ++ LF :: b])) with (ledger (ns ++ [a; b])).
    + apply stripped_lines_ledger. apply Forall_app. split; [exact Hns|].
      now repeat constructor.
    + rewrite !ledger_app. f_equal. unfold ledger. cbn.
      now rewrite !app_nil_r, <- !app_assoc.
  - unfold stripped_lines. rewrite ledger_app, lines_ledger_app by exact Hns.
    rewrite fmap_app, filter_app, plain_fixed by exact Hns. f_equal.
    unfold ledger, lines. cbn [fmap list_fmap concat]. rewrite app_nil_r.
    destruct (plain_spec a Ha) as (Hne & Hstrip & Hbreaks).
    rewrite (lines_from_line (SPACE :: a) [] []).
    2:{ intros c [<- | Hc]; [split; discriminate | now apply Hbreaks]. }
    cbn [rev app lines_from fmap list_fmap].
    change (SPACE :: a ++ [LF])%list with ((SPACE :: a) ++ [LF])%list.
    rewrite strip_line.
    replace (strip (SPACE :: a)) with a.
    + now rewrite filter_cons_True, filter_nil by exact Hne.
    + rewrite <- Hstrip at 1. unfold strip. rewrite StrProps.rstrip_cons.
      destruct (rstrip a); reflexivity.
Qed.

End Run.
End Loop.


(** *** Worked cases *)

Definition run_once (fs : files) (input : list row) (s : schedule)
  : files * list str :=
  @find_missing_names basic_latin DblpProps.dblp_urls none_only fs input s.

(** A line of the input that is longer than the header: the name is not
    found, the writer refuses the row, the handler logs a second line, and
    the name is recorded in the progress file all the same. *)
Example refused_row :
  run_once no_files [candidate "Alice Smith"; overlong "Bob Jones"] in_order
  = ({| progress_file :=
          Some (py "Alice Smith" ++ [LF] ++ py "Bob Jones" ++ [LF]);
        output_csv := Some [[py "name"; py "affiliation"]];
        log_file :=
          Some (py "Alice Smith -> EXACT" ++ [LF]
                ++ py "Bob Jones -> NOT_FOUND" ++ [LF]
                ++ py "Bob Jones -> EXCEPTION: dict contains fields not in fieldnames: None"
                ++ [LF]) |},
     [py "Alice Smith"; py "Bob Jones"]).
Proof. vm_compute. reflexivity. Qed.

(** An output file with two rows and no header: the next run ends with a
    [KeyError] while it reads the file, and touches nothing. *)
Example unreadable_output :
  let fs := {| progress_file := None;
               output_csv := Some [[py "Bob Jones"; py "Somewhere"];
                                   [py "Zed"; py "Somewhere"]];
               log_file := None |} in
  load_already_output fs = raise KeyError "'name'"
  /\ run_once fs [candidate "Carol Lee"] in_order = (fs, []).
Proof. vm_compute. auto. Qed.

Definition eve_and_bob : list (future_result * row) :=
  @submit basic_latin DblpProps.dblp_urls in_order
    [candidate "Eve"; overlong "Bob Jones"; candidate "Alice Smith"] ∅.

Lemma process_batch_counters_witness :
  total_errors
    (@drain none_only (keys (candidate "Eve")) Finished
       (start no_files ∅ ∅ program_pid) eve_and_bob)
  = (errors_among eve_and_bob
     + refusable_among (keys (candidate "Eve")) eve_and_bob)%Z.
Proof.
  apply (@process_batch_counters none_only (keys (candidate "Eve")) no_files
           ∅ ∅ program_pid eve_and_bob).
  - apply submit_from_lookup.
  - apply (bool_decide_unpack _). vm_compute. exact I.
  - apply Forall_forall. intros item _. apply not_elem_of_empty.
Defined.

Example eve_and_bob_errors :
  errors_among eve_and_bob = 1%Z
  /\ refusable_among (keys (candidate "Eve")) eve_and_bob = 1%Z.
Proof. vm_compute. auto. Qed.




(** A progress file that holds "Bob Jones", and an input that spells the
    name with a space in front. *)
Definition bob_done : files :=
  {| progress_file := Some (py "Bob Jones" ++ [LF]);
     output_csv := Some [[py "name"; py "affiliation"];
                         [py "Bob Jones"; py "Somewhere"]];
     log_file := Some (py "Bob Jones -> NOT_FOUND" ++ [LF]) |}.

Lemma unstripped_name_looked_up_again_witness :
  (py " Bob Jones" ∉ load_seen bob_done)
  /\ (py " Bob Jones" ∈ (run_once bob_done [candidate " Bob Jones"] in_order).2).
Proof.
  apply (@unstripped_name_looked_up_again none_only basic_latin
           DblpProps.dblp_urls
           bob_done [candidate " Bob Jones"] in_order (candidate " Bob Jones")).
  - apply list_elem_of_here.
  - right. vm_compute. discriminate.
Defined.

Lemma rerun_changes_nothing_witness :
  run_once (run_once no_files
              [candidate "Alice Smith"; candidate "Bob Jones"] in_order).1
           [candidate "Alice Smith"; candidate "Bob Jones"] killed
  = ((run_once no_files
        [candidate "Alice Smith"; candidate "Bob Jones"] in_order).1, []).
Proof.
  apply (@rerun_changes_nothing none_only basic_latin DblpProps.dblp_urls no_files
           [candidate "Alice Smith"; candidate "Bob Jones"] in_order killed []).
  - reflexivity.
  - constructor.
  - repeat constructor.
  - apply in_order_runs_to_end.
  - apply killed_well_scheduled.
Defined.

Lemma progress_file_round_trip_witness :
  stripped_lines (ledger [py "Alice Smith"]) = [py "Alice Smith"]
  /\ stripped_lines (ledger ([py "Alice Smith"] ++ [py "Bob" ++ LF :: py "Jones"]))
     = ([py "Alice Smith"] ++ [py "Bob"; py "Jones"])%list
  /\ stripped_lines (ledger ([py "Alice Smith"] ++ [SPACE :: py "Bob"]))
     = ([py "Alice Smith"] ++ [py "Bob"])%list.
Proof.
  apply (progress_file_round_trip [py "Alice Smith"] (py "Bob") (py "Jones"));
    repeat constructor.
Defined.

End BatchMore.


(** ** The controller under a constant rate *)

Module PIDMore.
Import PID PIDProps.

Lemma map_replicate {A B} (f : A -> B) (n : nat) (x : A) :
  List.map f (replicate n x) = replicate n (f x).
Proof. induction n as [|n IH]; simpl; [reflexivity | now rewrite IH]. Qed.

Lemma fold_left_replicate_S (e acc : float) (k : nat) :
  fold_left PrimFloat.add (replicate (S k) e) acc
  = (fold_left PrimFloat.add (replicate k e) acc + e)%float.
Proof.
  rewrite replicate_S_end, fold_left_app. reflexivity.
Qed.

(** Adding a number that is not negative does not make a float smaller. *)
Lemma add_nonneg_fle (x e : float) :
  (0 <= FloatOrder.J e)%Z -> FloatOrder.fle x (x + e)%float.
Proof.
  intros He. unfold FloatOrder.fle, FloatOrder.nan, FloatOrder.J in *.
  rewrite add_spec. intros Nx N.
  destruct (FloatOrder.jval_add _ _ (Prim2SF_valid x) (Prim2SF_valid e) N)
    as (_ & _ & ->).
  rewrite <- (FloatOrder.G_repr (Prim2SF x) (Prim2SF_valid x) Nx) at 1.
  apply FloatOrder.G_mono.
  apply Z.mul_le_mono_nonneg_r; [apply Z.pow_nonneg|]; lia.
Qed.

Lemma sub_self_fle (e : float) :
  FloatOrder.fle 0%float (e - e)%float.
Proof.
  unfold FloatOrder.fle, FloatOrder.nan, FloatOrder.J.
  rewrite sub_spec. intros _ N.
  destruct (FloatOrder.jval_sub _ _ (Prim2SF_valid e) (Prim2SF_valid e) N)
    as (_ & _ & ->).
  rewrite Z.sub_diag. reflexivity.
Qed.

Lemma error_nonneg (sp m : float) :
  (m <=? sp)%float = true -> (0 <= FloatOrder.J (sp - m)%float)%Z.
Proof.
  intros Hle. apply FloatOrder.leb_fle in Hle.
  unfold FloatOrder.fle, FloatOrder.nan, FloatOrder.J in *.
  rewrite sub_spec.
  destruct (FloatOrder.is_nan (SF64sub (Prim2SF sp) (Prim2SF m))) eqn:N.
  - destruct (SF64sub (Prim2SF sp) (Prim2SF m)); try discriminate N. cbn. lia.
  - destruct (FloatOrder.jval_sub _ _ (Prim2SF_valid sp) (Prim2SF_valid m) N)
      as (Nsp & Nm & ->).
    specialize (Hle Nm Nsp).
    change 0%Z with (FloatOrder.G 0). apply FloatOrder.G_mono.
    apply Z.mul_nonneg_nonneg; [lia | apply Z.pow_nonneg; lia].
Qed.

(** X17: on a new controller whose gains are not negative, fed at every
    call the same measured value, at or below the setpoint, the value
    returned by a call is never smaller than the value returned by the
    call before it, in the floats the script computes with: the integral
    only accumulates, so the signal, and with it the delay, only winds
    up. *)
Theorem constant_rate_windup (kp ki kd sp m : float) (n i : nat) (a b : float) :
  (0 <=? kp)%float = true -> (0 <=? ki)%float = true -> (0 <=? kd)%float = true ->
  (m <=? sp)%float = true ->
  (updates (init kp ki kd sp) (replicate n m)).2 !! i = Some a ->
  (updates (init kp ki kd sp) (replicate n m)).2 !! S i = Some b ->
  (b <? a)%float = false.
Proof.
  intros Hp Hi Hd Hm Ha Hb.
  apply FloatOrder.leb_0_J in Hp, Hi, Hd.
  pose proof (error_nonneg sp m Hm) as He.
  set (c := init kp ki kd sp) in *.
  destruct (updates_outputs c (replicate n m)) as [Hlen Hout].
  cbn zeta in Hout. rewrite map_replicate in Hout.
  change (sub (setpoint c) m) with (sp - m)%float in Hout.
  assert (Hn : (S i < n)%nat).
  { apply lookup_lt_Some in Hb. rewrite Hlen, length_replicate in Hb. exact Hb. }
  rewrite (Hout i (sp - m)%float) in Ha by (apply lookup_replicate_2; lia).
  rewrite (Hout (S i) (sp - m)%float) in Hb by (apply lookup_replicate_2; lia).
  injection Ha as <-. injection Hb as <-.
  apply FloatOrder.fle_ltb.
  unfold signal_at, integral_after. rewrite !take_replicate.
  replace (S i `min` n)%nat with (S i) by lia.
  replace (S (S i) `min` n)%nat with (S (S i)) by lia.
  cbn [c init PID.kp PID.ki PID.kd integral add sub mul zero float_arith].
  rewrite (fold_left_replicate_S _ _ (S i)).
  apply FloatOrder.add_fle; [apply FloatOrder.add_fle|];
    apply FloatOrder.mul_fle; try assumption.
  - apply FloatOrder.fle_refl.
  - now apply add_nonneg_fle.
  - cbn [error_before]. rewrite lookup_replicate_2 by lia.
    destruct i as [|j]; cbn [error_before c init prev_error].
    + apply sub_self_fle.
    + rewrite lookup_replicate_2 by lia. apply FloatOrder.fle_refl.
Qed.

Lemma constant_rate_windup_witness :
  ((5.0 * (0.01 - 0) + 0.5 * (0 + (0.01 - 0) + (0.01 - 0))
    + 0.2 * ((0.01 - 0) - (0.01 - 0)))
   <? (5.0 * (0.01 - 0) + 0.5 * (0 + (0.01 - 0)) + 0.2 * 0))%float = false.
Proof.
  apply (constant_rate_windup 5.0%float 0.5%float 0.2%float 0.01%float 0%float 3%nat 0%nat); reflexivity.
Defined.

(** Two hundred lookups without one error: the delay has grown from
    about 1.05 s to about 2.05 s. *)
Example windup_without_errors :
  let outs := (updates program_pid (replicate 200 0%float)).2 in
  (sleep_time <$> outs) !! 0%nat = Some 1.055%float
  /\ exists late, (sleep_time <$> outs) !! 199%nat = Some late
                  /\ (2.04 <? late)%float = true /\ (late <? 2.06)%float = true.
Proof.
  vm_compute. split; [reflexivity|]. eexists. repeat split.
Qed.

End PIDMore.
